(** * The Kademlia overlay engine of the network package (dht.go)

    A shallow embedding of [DHT] and of its operations: [addNode],
    [getExpirationTime], [iterate], [Store], [Get], [FindNode], [Bootstrap],
    [RemoteProcedureCall], the message handlers and the refresh pass of
    [handleStoreTimers].

    The packages [node], [message], [routing], [store], [transport] and
    [rpc] that dht.go imports are collaborators whose code is not part of
    dht.go; each is a module below, written from its contract.  The engine
    runs in a monad that threads the [DHT] value and can panic; whatever the
    network and the clock decide (does a send fail, does a future deliver a
    reply, is its channel closed, does the timeout fire first) is read from
    a [World]. *)

From Stdlib Require Import ZArith Lia Ascii String.
From stdpp Require Import base option list strings gmap.

Local Open Scope Z_scope.

(** [[]byte]: one [Z] in [0, 256) per byte. *)
Abbreviation bytes := (list Z).

Definition bytes_eqb (a b : bytes) : bool := bool_decide (a = b).

(** Big-endian value of a byte string. *)
Definition bytes_to_Z (b : bytes) : Z :=
  fold_left (fun acc x => acc * 256 + x) b 0.

(** ** package node *)
Module node.

(** Modelled from the spec: a node is an ID and an address.  [ID] is the
    empty byte string for a node known by its address only (Go's nil
    [ID]). *)
Record Node := mkNode { ID : bytes; Address : string }.

(** Modelled from the spec: the local participant, an address and one or
    more IDs. *)
Record Origin := mkOrigin { OriginAddress : string; IDs : list bytes }.

#[global] Instance Node_eq_dec : EqDecision Node.
Proof. solve_decision. Defined.

End node.

(** ** package message *)
Module message.

(** Modelled from the spec: the five message types, the request and the
    response payload of each, and the message; the names are those dht.go
    uses.  [NoData] is the nil payload. *)
Inductive MessageType := TypePing | TypeStore | TypeFindNode | TypeFindValue | TypeRPC.

Inductive MessageData :=
| NoData
| RequestDataFindNode (Target : bytes)
| RequestDataFindValue (Target : bytes)
| RequestDataStore (Data : bytes)
| RequestDataRPC (Method : string) (Args : list bytes)
| ResponseDataFindNode (Closest : list node.Node)
| ResponseDataFindValue (Closest : list node.Node) (Value : option bytes)
| ResponseDataRPC (Success : bool) (Result : bytes) (Error : string).

Record Message := mkMessage {
  Sender : node.Node;
  Receiver : node.Node;
  Type_ : MessageType;
  RequestID : bytes;
  Data : MessageData;
  Error : option string;
  IsResponse : bool }.

#[global] Instance MessageType_eq_dec : EqDecision MessageType.
Proof. solve_decision. Defined.

(** The builder of dht.go's call chains
    [NewBuilder().Sender(a).Receiver(b).Type(t).Request(d).Build()]. *)
Definition BuildRequest (snd rcv : node.Node) (t : MessageType) (d : MessageData) : Message :=
  mkMessage snd rcv t [] d None false.

Definition BuildResponse (snd rcv : node.Node) (t : MessageType) (d : MessageData) : Message :=
  mkMessage snd rcv t [] d None true.

Definition NewPingMessage (snd rcv : node.Node) : Message :=
  BuildRequest snd rcv TypePing NoData.

(** Modelled from the spec: [IsForMe] of the message package, absent from
    the sources; true iff the receiver's address or ID matches one of the
    origin's identities. *)
Definition IsForMe (m : Message) (o : node.Origin) : bool :=
  bool_decide (node.Address (Receiver m) = node.OriginAddress o)
  || bool_decide (node.ID (Receiver m) ∈ node.IDs o).

End message.

(** ** package routing *)
Module routing.

(** Modelled from the spec: the bucket capacity K (also the width of an
    ID in bytes), the fan-out alpha of a round, and the number of bits of
    an ID, which is the number of buckets. *)
Definition MaxContactsInBucket : nat := 20.
Definition ParallelCalls : nat := 3.
Definition KeyBitSize : nat := 160.

(** The four goals of an iteration, as [iterate] tells them apart. *)
Inductive IterateType := IterateStore | IterateBootstrap | IterateFindNode | IterateFindValue.

#[global] Instance IterateType_eq_dec : EqDecision IterateType.
Proof. solve_decision. Defined.

(** Modelled from the spec: a route node wraps a node ([bucket[0].Node]
    and [node.ID] in dht.go).  The last-seen time of the spec's route node
    is neither read nor written by dht.go and is left out. *)
Record RouteNode := NewRouteNode { Node : node.Node }.

Definition RouteNodesFrom (l : list node.Node) : list RouteNode := map NewRouteNode l.

Definition RouteNodeID (r : RouteNode) : bytes := node.ID (Node r).

(** Modelled from the spec: the table of one identity, with its origin,
    its [KeyBitSize] buckets (least recently seen entry first) and the
    refresh clock of each bucket, in nanoseconds. *)
Record HashTable := mkHashTable {
  Origin : node.Node;
  RoutingTable : list (list RouteNode);
  refreshTimes : list Z }.

(** Modelled from the spec: the position, counted from the most
    significant bit of the first byte, of the first bit of [x], a byte. *)
Definition firstBitOfByte (x : Z) : nat := 7 - Z.to_nat (Z.log2 x).

(** Modelled from the spec: [GetBucketIndexFromDifferingBit] of the
    routing package, absent from the sources; the index of the
    highest-order bit in which the two IDs differ, bit 0 being the most
    significant.  The spec leaves the result undefined on equal IDs;
    [iterate] reaches that case on every bootstrap (target = own ID), and
    the model then answers 0. *)
Fixpoint differingBitFrom (j : nat) (id1 id2 : bytes) : option nat :=
  match id1, id2 with
  | x :: id1', y :: id2' =>
      if Z.lxor x y =? 0 then differingBitFrom (S j) id1' id2'
      else Some (8 * j + firstBitOfByte (Z.lxor x y))%nat
  | _, _ => None
  end.

Definition GetBucketIndexFromDifferingBit (id1 id2 : bytes) : nat :=
  default 0%nat (differingBitFrom 0 id1 id2).

(** Modelled from the spec: the XOR distance, compared as a big-endian
    unsigned integer. *)
Definition distance (a b : bytes) : Z := Z.lxor (bytes_to_Z a) (bytes_to_Z b).

(** Bucket [i] of the table, empty when there is no such bucket. *)
Definition bucketAt (ht : HashTable) (i : nat) : list RouteNode :=
  default [] (RoutingTable ht !! i).

(** Modelled from the spec: count of entries in bucket [i]. *)
Definition GetTotalNodesInBucket (ht : HashTable) (i : nat) : nat :=
  length (bucketAt ht i).

(** Modelled from the spec: the entries of bucket [i] whose distance to
    [key] is strictly less than the origin's. *)
Definition GetAllNodesInBucketCloserThan (ht : HashTable) (i : nat) (key : bytes)
  : list RouteNode :=
  filter (fun r => distance (RouteNodeID r) key < distance (node.ID (Origin ht)) key)
         (bucketAt ht i).

(** Modelled from the spec: membership test. *)
Definition DoesNodeExistInBucket (ht : HashTable) (i : nat) (id : bytes) : bool :=
  existsb (fun r => bytes_eqb (RouteNodeID r) id) (bucketAt ht i).

(** The first entry with the given ID is taken out of the bucket and put
    back at its tail. *)
Fixpoint moveToTail (id : bytes) (bucket : list RouteNode) : list RouteNode :=
  match bucket with
  | [] => []
  | r :: rest =>
      if bytes_eqb (RouteNodeID r) id then rest ++ [r]
      else r :: moveToTail id rest
  end.

(** Modelled from the spec: [MarkNodeAsSeen] moves the entry to the tail
    of its bucket.  The spec has it update the last-seen time of the entry
    as well; a [RouteNode] has no such field here, and that write is left
    out. *)
Definition MarkNodeAsSeen (ht : HashTable) (id : bytes) : HashTable :=
  let index := GetBucketIndexFromDifferingBit (node.ID (Origin ht)) id in
  mkHashTable (Origin ht)
              (<[index := moveToTail id (bucketAt ht index)]> (RoutingTable ht))
              (refreshTimes ht).

(** Modelled from the spec: sets the refresh clock of bucket [i] to now. *)
Definition ResetRefreshTimeForBucket (ht : HashTable) (i : nat) (now : Z) : HashTable :=
  mkHashTable (Origin ht) (RoutingTable ht) (<[i := now]> (refreshTimes ht)).

(** Modelled from the spec: reads the refresh clock of bucket [i]. *)
Definition GetRefreshTimeForBucket (ht : HashTable) (i : nat) : Z :=
  default 0 (refreshTimes ht !! i).

(** Modelled from the spec: sum of the bucket sizes. *)
Definition TotalNodes (ht : HashTable) : nat :=
  foldr (fun b acc => (length b + acc)%nat) 0%nat (RoutingTable ht).

(** Modelled from the spec: [NewHashTable] makes the table of one
    identity, [KeyBitSize] empty buckets whose refresh clocks start at the
    time of creation. *)
Definition NewHashTable (id : bytes) (address : string) (now : Z) : HashTable :=
  mkHashTable (node.mkNode id address)
              (replicate KeyBitSize [])
              (replicate KeyBitSize now).

(** *** Route sets *)

(** Modelled from the spec: a route-set is an ordered container of route
    nodes, kept sorted by XOR distance to the target it was built for. *)
Record RouteSet := mkRouteSet { target : bytes; nodes : list RouteNode }.

(** Stable insertion: [r] goes in front of the first entry that is not
    nearer to [key] than [r] is. *)
Fixpoint insertByDistance (key : bytes) (r : RouteNode) (l : list RouteNode)
  : list RouteNode :=
  match l with
  | [] => [r]
  | x :: l' =>
      if distance (RouteNodeID r) key <=? distance (RouteNodeID x) key
      then r :: x :: l'
      else x :: insertByDistance key r l'
  end.

Definition sortByDistance (key : bytes) (l : list RouteNode) : list RouteNode :=
  foldr (insertByDistance key) [] l.

(** Modelled from the spec: the length, the first node (the nearest),
    the nodes in order, and the sort of a route-set. *)
Definition Len (rs : RouteSet) : nat := length (nodes rs).
Definition FirstNode (rs : RouteSet) : option node.Node := Node <$> head (nodes rs).
Definition Nodes (rs : RouteSet) : list node.Node := map Node (nodes rs).
Definition Sort (rs : RouteSet) : RouteSet :=
  mkRouteSet (target rs) (sortByDistance (target rs) (nodes rs)).

(** Modelled from the spec: [Extend] appends and re-sorts. *)
Definition Extend (rs : RouteSet) (l : list RouteNode) : RouteSet :=
  Sort (mkRouteSet (target rs) (nodes rs ++ l)).

(** Modelled from the spec: [Remove] takes the node out of the set. *)
Definition Remove (rs : RouteSet) (r : RouteNode) : RouteSet :=
  mkRouteSet (target rs)
             (filter (fun x => RouteNodeID x ≠ RouteNodeID r) (nodes rs)).

(** Modelled from the spec: [GetClosestContacts] returns the up to [n]
    nodes of the table nearest [key], none of them in [exclude], sorted
    by distance, ties broken by first encounter. *)
Definition GetClosestContacts (ht : HashTable) (n : nat) (key : bytes)
           (exclude : list node.Node) : RouteSet :=
  let candidates :=
    filter (fun r => RouteNodeID r ∉ map node.ID exclude) (concat (RoutingTable ht)) in
  mkRouteSet key (take n (sortByDistance key candidates)).

(** *** Random IDs *)

(** Byte [o] up to bit [bit] (counted from the most significant), the
    next bit flipped, and the bits after it taken from [r]. *)
Definition differingByte (bit : nat) (o r : Z) : Z :=
  let low := Z.of_nat (7 - bit) in
  Z.lor (Z.lor (Z.land o (256 - Z.shiftl 1 (low + 1)))
               (Z.land (Z.lxor o 255) (Z.shiftl 1 low)))
        (Z.land r (Z.shiftl 1 low - 1)).

(** Modelled from the spec: [GetRandomIDFromBucket i] returns an ID that
    falls into bucket [i]: it agrees with the origin's ID on the bits
    before bit [i], differs on bit [i], and takes the rest from [random],
    a string of as many random bytes as an ID has. *)
Definition GetRandomIDFromBucket (ht : HashTable) (i : nat) (random : bytes) : bytes :=
  let id := node.ID (Origin ht) in
  let byteIndex := (i / 8)%nat in
  take byteIndex id
    ++ [differingByte (i mod 8) (default 0 (id !! byteIndex)) (default 0 (random !! byteIndex))]
    ++ drop (S byteIndex) random.

End routing.

(** ** package store *)
Module store.

(** Modelled from the spec: a store entry; the key is the content hash
    of the value. *)
Record Entry := mkEntry {
  value : bytes;
  replication : Z;
  expiration : Z;
  publisher : bool }.

(** Modelled from the spec: [Store] overwrites the prior value of the key. *)
Definition Store (key data : bytes) (repl exp : Z) (pub : bool)
           (st : gmap bytes Entry) : gmap bytes Entry :=
  <[key := mkEntry data repl exp pub]> st.

(** Modelled from the spec: [Retrieve] returns the value and whether the
    key exists. *)
Definition Retrieve (key : bytes) (st : gmap bytes Entry) : option bytes :=
  value <$> st !! key.

(** Modelled from the spec: the keys whose replication deadline has
    passed and whose entry this node published. *)
Definition GetKeysReadyToReplicate (now : Z) (st : gmap bytes Entry) : list bytes :=
  (map_to_list (filter (fun kv => replication kv.2 <= now ∧ publisher kv.2 = true) st)).*1.

(** Modelled from the spec: [ExpireKeys] deletes every entry whose
    expiration deadline has passed. *)
Definition ExpireKeys (now : Z) (st : gmap bytes Entry) : gmap bytes Entry :=
  filter (fun kv => now < expiration kv.2) st.

End store.

(** ** package transport *)
Module transport.

(** A future is known by its number: the [n]-th request the transport
    was asked to send. *)
Definition Future := nat.

(** What the [select] on a future's result channel and a timer sees. *)
Inductive FutureOutcome :=
| Reply (m : message.Message)
| ChannelClosed
| TimedOut.

(** The calls made on the transport, the store, the RPC registry and,
    as a ghost mark, the iterations started. *)
Inductive Event :=
| EvSendRequest (f : Future) (m : message.Message) (ok : bool)
| EvSendResponse (requestID : bytes) (m : message.Message)
| EvCancel (f : Future)
| EvStore (key : bytes)
| EvRetrieve (key : bytes)
| EvGetKeysReadyToReplicate
| EvExpireKeys
| EvInvoke (sender : node.Node) (method : string) (args : list bytes)
| EvIterate (t : routing.IterateType) (tgt : bytes).

End transport.

(** ** package network: the state *)

(** Durations and instants are counts of nanoseconds, as in Go's [time]. *)
Definition Second : Z := 1000000000.

(** [Options]: the configuration of the local node. *)
Record Options := mkOptions {
  BootstrapNodes : list node.Node;
  ExpirationTime : Z;
  RefreshTime : Z;
  ReplicateTime : Z;
  RepublishTime : Z;
  PingTimeout : Z;
  MessageTimeout : Z }.

(** [DHT]: the state of the local node.  [tables], [options], [origin] and
    [store] are the fields of the Go struct.  The [transport] field is
    represented by [sent], the number of requests it was asked to send, and
    by [trace], the calls made so far on the collaborators; [drawn] counts
    the random IDs drawn and [clock] is what [time.Now()] reads. *)
Record DHT := mkDHT {
  tables : list routing.HashTable;
  options : Options;
  origin : node.Origin;
  store : gmap bytes store.Entry;
  sent : nat;
  drawn : nat;
  clock : Z;
  trace : list transport.Event }.

(** What the environment decides: whether the [n]-th send fails, what the
    [select] on the [n]-th future sees, the random bytes of the [n]-th
    draw, what a registered remote procedure returns, the content hash
    [store.NewKey] and the base58 codec. *)
Record World := mkWorld {
  sendFails : transport.Future -> message.Message -> bool;
  outcome : transport.Future -> transport.FutureOutcome;
  randomBytes : nat -> bytes;
  Invoke : node.Node -> string -> list bytes -> bytes * option string;
  NewKey : bytes -> bytes;
  Encode : bytes -> string;
  Decode : string -> bytes }.

(** ** The monad of the engine *)

(** A call returns a value, panics (the Go process aborts), or, for the
    loop of [iterate], runs out of the fuel it was given. *)
Inductive Outcome (A : Type) : Type :=
| Returned (a : A) (s : DHT)
| Panicked (why : string) (s : DHT)
| OutOfFuel.
Arguments Returned {A} a s.
Arguments Panicked {A} why s.
Arguments OutOfFuel {A}.

Definition M (A : Type) : Type := DHT -> Outcome A.

#[global] Instance M_ret : MRet M := fun A a s => Returned a s.
#[global] Instance M_bind : MBind M := fun A B f m s =>
  match m s with
  | Returned a s' => f a s'
  | Panicked why s' => Panicked why s'
  | OutOfFuel => OutOfFuel
  end.

Definition panic {A} (why : string) : M A := fun s => Panicked why s.
Definition outOfFuel {A} : M A := fun _ => OutOfFuel.
Definition gets {A} (f : DHT -> A) : M A := fun s => Returned (f s) s.
Definition modify (f : DHT -> DHT) : M unit := fun s => Returned tt (f s).

Definition setTables (ts : list routing.HashTable) (s : DHT) : DHT :=
  mkDHT ts (options s) (origin s) (store s) (sent s) (drawn s) (clock s) (trace s).
Definition setStore (st : gmap bytes store.Entry) (s : DHT) : DHT :=
  mkDHT (tables s) (options s) (origin s) st (sent s) (drawn s) (clock s) (trace s).
Definition setSent (n : nat) (s : DHT) : DHT :=
  mkDHT (tables s) (options s) (origin s) (store s) n (drawn s) (clock s) (trace s).
Definition setDrawn (n : nat) (s : DHT) : DHT :=
  mkDHT (tables s) (options s) (origin s) (store s) (sent s) n (clock s) (trace s).
Definition record (e : transport.Event) (s : DHT) : DHT :=
  mkDHT (tables s) (options s) (origin s) (store s) (sent s) (drawn s) (clock s)
        (trace s ++ [e]).

(** The state an outcome leaves behind, if any. *)
Definition finalState {A} (o : Outcome A) : option DHT :=
  match o with
  | Returned _ s | Panicked _ s => Some s
  | OutOfFuel => None
  end.

(** ** Contexts *)

(** Modelled from the spec: the operation context carries the index of the
    chosen identity; [None] is the nil context of a failed [Build]. *)
Definition Context := option nat.

Fixpoint indexOfID (id : bytes) (ts : list routing.HashTable) : option nat :=
  match ts with
  | [] => None
  | ht :: ts' =>
      if bytes_eqb (node.ID (routing.Origin ht)) id then Some 0%nat
      else S <$> indexOfID id ts'
  end.

(** Modelled from the spec: [NewContextBuilder(dht).SetNodeByID(id).Build()]
    binds the context to the identity whose ID is [id], and fails when
    there is none. *)
Definition SetNodeByID (id : bytes) : M (Context * option string) :=
  ts ← gets tables;
  match indexOfID id ts with
  | Some i => mret (Some i, None)
  | None => mret (None, Some "node not found")
  end.

(** Modelled from the spec: [SetDefaultNode().Build()] binds the context to
    the default identity, the first one. *)
Definition SetDefaultNode : M (Context * option string) :=
  ts ← gets tables;
  match ts with
  | _ :: _ => mret (Some 0%nat, None)
  | [] => mret (None, Some "node not found")
  end.

(** [htFromCtx]: [dht.tables[ctx.Value(ctxTableIndex).(int)]]. *)
Definition htFromCtx (ctx : Context) : M (nat * routing.HashTable) :=
  match ctx with
  | None => panic "invalid memory address or nil pointer dereference"
  | Some htIdx =>
      ts ← gets tables;
      match ts !! htIdx with
      | Some ht => mret (htIdx, ht)
      | None => panic "index out of range"
      end
  end.

(** The hash table behind [ctx] is a pointer in Go: a method that mutates
    it is a write into [tables]. *)
Definition updateTable (htIdx : nat) (f : routing.HashTable -> routing.HashTable) : M unit :=
  modify (fun s => setTables (alter f htIdx (tables s)) s).

(** ** The transport *)
Section Engine.

Variable w : World.

(** [time.Now()].  The clock is read and never advanced: a run of an
    operation is taken at one instant, and the time the run spends waiting
    for replies is not modelled. *)
Definition Now : M Z := gets clock.

(** Modelled from the spec: [dht.transport.SendRequest(msg)] returns a
    pending future; the request-ID it attaches is the number of the
    future, kept beside the message in the trace.  On failure it returns a
    nil future and an error, Go's convention for a (value, error) pair and
    what every call site that tests [err != nil] relies on. *)
Definition SendRequest (msg : message.Message) : M (option transport.Future * option string) :=
  f ← gets sent;
  let failed := sendFails w f msg in
  modify (fun s => record (transport.EvSendRequest f msg (negb failed)) (setSent (S f) s));;
  if failed then mret (None, Some "send failed") else mret (Some f, None).

(** Modelled from the spec: [dht.transport.SendResponse(requestID, msg)];
    the handlers only log its error. *)
Definition SendResponse (requestID : bytes) (msg : message.Message) : M unit :=
  modify (record (transport.EvSendResponse requestID msg)).

(** Modelled from the spec: [future.Cancel()]; [Future] is an interface,
    and a method call on a nil future panics. *)
Definition Cancel (future : option transport.Future) : M unit :=
  match future with
  | Some f => modify (record (transport.EvCancel f))
  | None => panic "invalid memory address or nil pointer dereference"
  end.

(** ** addNode *)

(** [ht.RoutingTable[index]]; out of range panics. *)
Definition bucketOf (ht : routing.HashTable) (index : nat) : M (list routing.RouteNode) :=
  match routing.RoutingTable ht !! index with
  | Some bucket => mret bucket
  | None => panic "index out of range"
  end.

Definition setBucket (index : nat) (bucket : list routing.RouteNode)
           (ht : routing.HashTable) : routing.HashTable :=
  routing.mkHashTable (routing.Origin ht)
                      (<[index := bucket]> (routing.RoutingTable ht))
                      (routing.refreshTimes ht).

(** [addNode] adds a node into the appropriate k bucket.  On a full
    bucket the head is pinged: a failed send replaces the head by the new
    node, whatever arrives on the future's channel before [PingTimeout]
    makes [addNode] return at once, and the timeout replaces the head. *)
Definition addNode (ctx : Context) (n : routing.RouteNode) : M unit :=
  '(htIdx, ht) ← htFromCtx ctx;
  let index := routing.GetBucketIndexFromDifferingBit
                 (node.ID (routing.Origin ht)) (routing.RouteNodeID n) in
  if routing.DoesNodeExistInBucket ht index (routing.RouteNodeID n) then
    updateTable htIdx (fun ht => routing.MarkNodeAsSeen ht (routing.RouteNodeID n))
  else
    bucket ← bucketOf ht index;
    if bool_decide (length bucket = routing.MaxContactsInBucket) then
      match bucket with
      | [] => panic "index out of range"
      | h :: _ =>
          let request := message.NewPingMessage (routing.Origin ht) (routing.Node h) in
          '(future, err) ← SendRequest request;
          match err, future with
          | Some _, _ =>
              updateTable htIdx (setBucket index (drop 1 (bucket ++ [n])))
          | None, Some future =>
              match outcome w future with
              | transport.TimedOut =>
                  updateTable htIdx (setBucket index (drop 1 bucket ++ [n]))
              | _ => mret tt
              end
          | None, None => panic "invalid memory address or nil pointer dereference"
          end
      end
    else
      updateTable htIdx (setBucket index (bucket ++ [n])).

(** ** getExpirationTime *)

(** Go's [int64] arithmetic wraps around. *)
Definition wrap64 (z : Z) : Z := (z + 2 ^ 63) `mod` 2 ^ 64 - 2 ^ 63.

(** A decimal enclosure of e: [e_num_lo / e_den < e < e_num_hi / e_den]. *)
Definition e_num_lo : Z := 2718281828459045235360287471.
Definition e_num_hi : Z := 2718281828459045235360287472.
Definition e_den : Z := 1000000000000000000000000000.

(** [int64(math.Exp(float64(q)))] for the quotients [0 <= q <= 20] that
    [getExpirationTime] can form: the integer part of e^q.  The lower
    and the upper end of the enclosure give the same integer part
    (lemma [math_Exp_int64_enclosed]), which is far from both
    neighbouring integers on the scale of a double's rounding error. *)
Definition math_Exp_int64 (q : Z) : Z := e_num_lo ^ q / e_den ^ q.

Definition sumTotalNodes (ht : routing.HashTable) (bucket : nat) : nat :=
  foldr (fun i acc => (routing.GetTotalNodesInBucket ht i + acc)%nat) 0%nat (seq 0 bucket).

Definition getExpirationTime (ctx : Context) (key : bytes) : M Z :=
  '(_, ht) ← htFromCtx ctx;
  let bucket := routing.GetBucketIndexFromDifferingBit key (node.ID (routing.Origin ht)) in
  let total := sumTotalNodes ht bucket in
  let closer := routing.GetAllNodesInBucketCloserThan ht bucket key in
  let score := (total + length closer)%nat in
  let score := if bool_decide (score = 0%nat) then 1%nat else score in
  now ← Now;
  opts ← gets options;
  if bool_decide (routing.MaxContactsInBucket < score)%nat then
    mret (now + ExpirationTime opts)
  else
    let day := ExpirationTime opts in
    let seconds :=
      wrap64 (day * math_Exp_int64 (Z.of_nat (routing.MaxContactsInBucket / score))) in
    let dur := wrap64 (Second * seconds) in
    mret (now + dur).

(** ** iterate *)

(** The request of one round: [FindValue] asks for the value, the other
    three iteration types ask for the nodes closest to the target. *)
Definition requestFor (t : routing.IterateType) (self receiver : node.Node)
           (target : bytes) : message.Message :=
  match t with
  | routing.IterateBootstrap | routing.IterateFindNode =>
      message.BuildRequest self receiver message.TypeFindNode
                           (message.RequestDataFindNode target)
  | routing.IterateFindValue =>
      message.BuildRequest self receiver message.TypeFindValue
                           (message.RequestDataFindValue target)
  | routing.IterateStore =>
      message.BuildRequest self receiver message.TypeFindNode
                           (message.RequestDataFindNode target)
  end.

(** The first [for] of a round, over [routeSet.Nodes()] from position
    [i]: stop after alpha nodes unless [queryRest], skip the contacted,
    send to the others; a failed send puts the receiver on the removal
    list. *)
Fixpoint sendQueries (t : routing.IterateType) (target : bytes) (self : node.Node)
         (queryRest : bool) (i : nat) (receivers : list node.Node)
         (contacted : gset bytes) (removeFromRouteSet : list node.Node)
         (futures : list transport.Future)
  : M (gset bytes * list node.Node * list transport.Future) :=
  match receivers with
  | [] => mret (contacted, removeFromRouteSet, futures)
  | receiver :: rest =>
      if bool_decide (routing.ParallelCalls ≤ i)%nat && negb queryRest then
        mret (contacted, removeFromRouteSet, futures)
      else if bool_decide (node.ID receiver ∈ contacted) then
        sendQueries t target self queryRest (S i) rest contacted removeFromRouteSet futures
      else
        let contacted := {[ node.ID receiver ]} ∪ contacted in
        let msg := requestFor t self receiver target in
        '(res, err) ← SendRequest msg;
        match err, res with
        | None, Some f =>
            sendQueries t target self queryRest (S i) rest contacted
                        removeFromRouteSet (futures ++ [f])
        | _, _ =>
            sendQueries t target self queryRest (S i) rest contacted
                        (removeFromRouteSet ++ [message.Receiver msg]) futures
        end
  end.

(** The goroutines of a round, one per future, run here one after the
    other: a reply registers its sender with [addNode] and is handed to
    the round, a timeout cancels the future, a closed channel does
    nothing.  Every reply is taken to reach the round before the round's
    own deadline.  In Go the goroutines run concurrently, and [addNode]
    tests the membership of the sender before it locks the table: of the
    runs that interleave two calls of [addNode], this definition has only
    those in which one call ends before the next begins. *)
Fixpoint awaitFutures (ctx : Context) (futures : list transport.Future)
  : M (list message.Message) :=
  match futures with
  | [] => mret []
  | f :: rest =>
      match outcome w f with
      | transport.Reply result =>
          addNode ctx (routing.NewRouteNode (message.Sender result));;
          results ← awaitFutures ctx rest;
          mret (result :: results)
      | transport.ChannelClosed => awaitFutures ctx rest
      | transport.TimedOut => Cancel (Some f);; awaitFutures ctx rest
      end
  end.

(** What the loop over the results of a round decides. *)
Inductive RoundResult :=
| Continue (routeSet : routing.RouteSet)
| Done (value : option bytes) (closest : list node.Node).

Fixpoint processResults (t : routing.IterateType) (target : bytes)
         (results : list message.Message) (routeSet : routing.RouteSet)
  : M RoundResult :=
  match results with
  | [] => mret (Continue routeSet)
  | result :: rest =>
      match message.Error result with
      | Some _ =>
          processResults t target rest
            (routing.Remove routeSet (routing.NewRouteNode (message.Sender result)))
      | None =>
          match t with
          | routing.IterateFindValue =>
              match message.Data result with
              | message.ResponseDataFindValue closest value =>
                  let routeSet := routing.Extend routeSet (routing.RouteNodesFrom closest) in
                  match value with
                  | Some v => mret (Done (Some v) [])
                  | None => processResults t target rest routeSet
                  end
              | _ => panic "interface conversion"
              end
          | _ =>
              match message.Data result with
              | message.ResponseDataFindNode closest =>
                  if bool_decide (node.ID <$> head closest = Some target) then
                    mret (Done None closest)
                  else
                    processResults t target rest
                      (routing.Extend routeSet (routing.RouteNodesFrom closest))
              | _ => panic "interface conversion"
              end
          end
      end
  end.

(** The last step of an iterative store: a Store request to each of the
    first [MaxContactsInBucket] nodes of the route set; the result of the
    send is not looked at and the future is cancelled at once. *)
Fixpoint storeFanOut (self : node.Node) (data : bytes) (i : nat)
         (receivers : list node.Node) : M unit :=
  match receivers with
  | [] => mret tt
  | receiver :: rest =>
      if bool_decide (routing.MaxContactsInBucket ≤ i)%nat then mret tt
      else
        let msg := message.BuildRequest self receiver message.TypeStore
                                        (message.RequestDataStore data) in
        '(future, _) ← SendRequest msg;
        Cancel future;;
        storeFanOut self data (S i) rest
  end.

(** The [for] of [iterate]; [fuel] bounds the number of rounds. *)
Fixpoint iterateLoop (fuel : nat) (ctx : Context) (t : routing.IterateType)
         (target data : bytes) (self : node.Node) (routeSet : routing.RouteSet)
         (contacted : gset bytes) (queryRest : bool) (closestNode : node.Node)
         (removeFromRouteSet : list node.Node)
  : M (option bytes * list node.Node * option string) :=
  match fuel with
  | O => outOfFuel
  | S fuel =>
      '(contacted, removeFromRouteSet, futures) ←
        sendQueries t target self queryRest 0 (routing.Nodes routeSet)
                    contacted removeFromRouteSet [];
      let routeSet :=
        foldl (fun rs n => routing.Remove rs (routing.NewRouteNode n))
              routeSet removeFromRouteSet in
      results ← awaitFutures ctx futures;
      r ← (if bool_decide (0 < length futures)%nat
           then processResults t target results routeSet
           else mret (Continue routeSet));
      match r with
      | Done value closest => mret (value, closest, None)
      | Continue routeSet =>
          if negb queryRest && bool_decide (routing.Len routeSet = 0%nat) then
            mret (None, [], None)
          else
            let routeSet := routing.Sort routeSet in
            match routing.FirstNode routeSet with
            | None => panic "index out of range"
            | Some first =>
                if bytes_eqb (node.ID first) (node.ID closestNode) || queryRest then
                  match t with
                  | routing.IterateBootstrap =>
                      if negb queryRest then
                        iterateLoop fuel ctx t target data self routeSet contacted
                                    true closestNode removeFromRouteSet
                      else mret (None, routing.Nodes routeSet, None)
                  | routing.IterateFindNode | routing.IterateFindValue =>
                      mret (None, routing.Nodes routeSet, None)
                  | routing.IterateStore =>
                      storeFanOut self data 0 (routing.Nodes routeSet);;
                      mret (None, [], None)
                  end
                else
                  iterateLoop fuel ctx t target data self routeSet contacted
                              queryRest first removeFromRouteSet
            end
      end
  end.

(** [iterate] does an iterative search through the network; it returns
    [(value, closest, err)].  The first step leaves a ghost mark in the
    trace. *)
Definition iterate (fuel : nat) (ctx : Context) (t : routing.IterateType)
           (target data : bytes) : M (option bytes * list node.Node * option string) :=
  modify (record (transport.EvIterate t target));;
  '(htIdx, ht) ← htFromCtx ctx;
  let routeSet := routing.GetClosestContacts ht routing.ParallelCalls target [] in
  if bool_decide (routing.Len routeSet = 0%nat) then mret (None, [], None)
  else
    match routing.FirstNode routeSet with
    | None => panic "index out of range"
    | Some closestNode =>
        (if bool_decide (t = routing.IterateBootstrap) then
           let bucket :=
             routing.GetBucketIndexFromDifferingBit target (node.ID (routing.Origin ht)) in
           now ← Now;
           updateTable htIdx (fun ht => routing.ResetRefreshTimeForBucket ht bucket now)
         else mret tt);;
        iterateLoop fuel ctx t target data (routing.Origin ht) routeSet ∅ false
                    closestNode []
    end.

(** ** The operations of the driver interface *)

(** The store behind [dht.store]; each call leaves its mark in the trace.
    The in-memory store of the spec never fails. *)
Definition storeStore (key data : bytes) (repl exp : Z) (pub : bool) : M (option string) :=
  modify (fun s => record (transport.EvStore key)
                          (setStore (store.Store key data repl exp pub (store s)) s));;
  mret None.

Definition storeRetrieve (key : bytes) : M (option bytes) :=
  modify (record (transport.EvRetrieve key));;
  gets (fun s => store.Retrieve key (store s)).

(** [Store] stores data on the network and returns the base58 encoded
    key. *)
Definition Store (fuel : nat) (ctx : Context) (data : bytes) : M (string * option string) :=
  let key := NewKey w data in
  expiration ← getExpirationTime ctx key;
  now ← Now;
  opts ← gets options;
  let replication := now + ReplicateTime opts in
  err ← storeStore key data replication expiration true;
  match err with
  | Some e => mret (""%string, Some e)
  | None =>
      '(_, _, err) ← iterate fuel ctx routing.IterateStore key data;
      match err with
      | Some e => mret (""%string, Some e)
      | None => mret (Encode w key, None)
      end
  end.

(** [Get] retrieves data using the base58 encoded key; it returns
    [(value, exists, err)], a nil value being [None].  What the store
    holds for a key is returned as [Some]: a nil slice that was stored
    under a key is not told apart from an empty one. *)
Definition Get (fuel : nat) (ctx : Context) (key : string)
  : M (option bytes * bool * option string) :=
  let keyBytes := Decode w key in
  if bool_decide (length keyBytes ≠ routing.MaxContactsInBucket) then
    mret (None, false, Some "invalid key"%string)
  else
    value ← storeRetrieve keyBytes;
    match value with
    | Some v => mret (Some v, true, None)
    | None =>
        '(value, _, err) ← iterate fuel ctx routing.IterateFindValue keyBytes [];
        match err with
        | Some e => mret (None, false, Some e)
        | None => mret (value, bool_decide (is_Some value), None)
        end
    end.

(** The second half of [FindNode]: the target is not in the routing
    table, and is looked for through the network. *)
Definition findNodeIterating (fuel : nat) (ctx : Context) (keyBytes : bytes)
  : M (option node.Node * bool * option string) :=
  '(_, closest, err) ← iterate fuel ctx routing.IterateFindNode keyBytes [];
  match err, closest with
  | Some e, _ => mret (None, false, Some e)
  | None, c :: _ =>
      if bytes_eqb (node.ID c) keyBytes then mret (Some c, true, None)
      else mret (None, false, None)
  | None, [] => mret (None, false, None)
  end.

(** [FindNode] returns the target node's real network address:
    [(node, exists, err)]. *)
Definition FindNode (fuel : nat) (ctx : Context) (key : string)
  : M (option node.Node * bool * option string) :=
  let keyBytes := Decode w key in
  if bool_decide (length keyBytes ≠ routing.MaxContactsInBucket) then
    mret (None, false, Some "invalid key"%string)
  else
    '(_, ht) ← htFromCtx ctx;
    if bytes_eqb (node.ID (routing.Origin ht)) keyBytes then
      mret (Some (routing.Origin ht), true, None)
    else
      let routeSet := routing.GetClosestContacts ht 1 keyBytes [] in
      match routing.FirstNode routeSet with
      | Some first =>
          if bytes_eqb (node.ID first) keyBytes then mret (Some first, true, None)
          else findNodeIterating fuel ctx keyBytes
      | None => findNodeIterating fuel ctx keyBytes
      end.

(** [NumNodes] returns the total number of nodes of the routing table. *)
Definition NumNodes (ctx : Context) : M nat :=
  '(_, ht) ← htFromCtx ctx;
  mret (routing.TotalNodes ht).

(** [GetOriginID] returns the base58 encoded identifier of the local
    node. *)
Definition GetOriginID (ctx : Context) : M string :=
  '(_, ht) ← htFromCtx ctx;
  mret (Encode w (node.ID (routing.Origin ht))).

(** ** Bootstrap *)

(** The inner [for] of the first pass: a seed without an ID is pinged and
    its future kept, a seed with an ID goes into the table directly.  The
    test [bn.ID == nil] is the test of the empty ID here, a nil ID and an
    empty one being the same list of bytes. *)
Fixpoint bootstrapSeeds (ctx : Context) (self : node.Node) (seeds : list node.Node)
         (futures : list transport.Future) : M (list transport.Future) :=
  match seeds with
  | [] => mret futures
  | bn :: rest =>
      let request := message.NewPingMessage self bn in
      if bool_decide (node.ID bn = []) then
        '(res, err) ← SendRequest request;
        match err, res with
        | None, Some f => bootstrapSeeds ctx self rest (futures ++ [f])
        | _, _ => bootstrapSeeds ctx self rest futures
        end
      else
        addNode ctx (routing.NewRouteNode bn);;
        bootstrapSeeds ctx self rest futures
  end.

(** A [for _, ht := range dht.tables] whose body may return from the
    function: the body runs on the table at each index of [idxs], read
    from the current state, until one gives [Some]. *)
Fixpoint rangeTables {A} (body : nat -> routing.HashTable -> M (option A))
         (idxs : list nat) : M (option A) :=
  match idxs with
  | [] => mret None
  | k :: rest =>
      ts ← gets tables;
      match ts !! k with
      | None => rangeTables body rest
      | Some ht =>
          r ← body k ht;
          match r with
          | Some a => mret (Some a)
          | None => rangeTables body rest
          end
      end
  end.

Definition tableIndices : M (list nat) :=
  ts ← gets tables; mret (seq 0 (length ts)).

(** The goroutines that wait for the pings of the seeds, one after the
    other, where Go runs them concurrently (see [awaitFutures]);
    [log.Fatal] ends the process. *)
Fixpoint awaitSeeds (futures : list transport.Future) : M unit :=
  match futures with
  | [] => mret tt
  | f :: rest =>
      match outcome w f with
      | transport.Reply result =>
          '(ctx, err) ← SetNodeByID (node.ID (message.Receiver result));
          match err with
          | Some e => panic ("log.Fatal: " +:+ e)
          | None =>
              addNode ctx (routing.NewRouteNode (message.Sender result));;
              awaitSeeds rest
          end
      | transport.ChannelClosed => awaitSeeds rest
      | transport.TimedOut => Cancel (Some f);; awaitSeeds rest
      end
  end.

(** The first pass of [Bootstrap] over the tables at the indices [idxs]:
    each table pings or inserts every seed, the futures of the pings pile
    up in [futures]; a context that cannot be built ends the pass with the
    error. *)
Fixpoint seedTables (seeds : list node.Node) (idxs : list nat)
         (futures : list transport.Future)
  : M (option string * list transport.Future) :=
  match idxs with
  | [] => mret (None, futures)
  | k :: rest =>
      ts ← gets tables;
      match ts !! k with
      | None => seedTables seeds rest futures
      | Some ht =>
          '(ctx, err) ← SetNodeByID (node.ID (routing.Origin ht));
          match err with
          | Some e => mret (Some e, futures)
          | None =>
              futures ← bootstrapSeeds ctx (routing.Origin ht) seeds futures;
              seedTables seeds rest futures
          end
      end
  end.

(** The last pass of [Bootstrap], on one table: the first identity that
    knows a node runs the iterative bootstrap for its own ID and its error
    is the result. *)
Definition bootstrapTable (fuel : nat) (ht : routing.HashTable)
  : M (option (option string)) :=
  '(ctx, err) ← SetNodeByID (node.ID (routing.Origin ht));
  match err with
  | Some e => mret (Some (Some e))
  | None =>
      n ← NumNodes ctx;
      if bool_decide (0 < n)%nat then
        '(_, _, err) ← iterate fuel ctx routing.IterateBootstrap
                               (node.ID (routing.Origin ht)) [];
        mret (Some err)
      else mret None
  end.

(** [Bootstrap] attempts to bootstrap the network using the
    [BootstrapNodes] of the options; the result is the error. *)
Definition Bootstrap (fuel : nat) : M (option string) :=
  opts ← gets options;
  if bool_decide (length (BootstrapNodes opts) = 0%nat) then mret None
  else
    idxs ← tableIndices;
    '(err, futures) ← seedTables (BootstrapNodes opts) idxs [];
    match err with
    | Some e => mret (Some e)
    | None =>
        awaitSeeds futures;;
        r ← rangeTables (fun _ ht => bootstrapTable fuel ht) idxs;
        mret (default None r)
    end.

(** ** The message handlers *)

(** [messageBuilder] as [handleMessages] prepares it: sender, receiver
    and type are set, the response payload is still to come. *)
Definition Builder := message.MessageData -> message.Message.

Definition processFindNode (ctx : Context) (msg : message.Message)
           (messageBuilder : Builder) : M unit :=
  '(htIdx, _) ← htFromCtx ctx;
  match message.Data msg with
  | message.RequestDataFindNode target =>
      addNode ctx (routing.NewRouteNode (message.Sender msg));;
      '(_, ht) ← htFromCtx ctx;
      let closest := routing.GetClosestContacts ht routing.MaxContactsInBucket target
                                                [message.Sender msg] in
      SendResponse (message.RequestID msg)
                   (messageBuilder (message.ResponseDataFindNode (routing.Nodes closest)))
  | _ => panic "interface conversion"
  end.

Definition processFindValue (ctx : Context) (msg : message.Message)
           (messageBuilder : Builder) : M unit :=
  '(htIdx, _) ← htFromCtx ctx;
  match message.Data msg with
  | message.RequestDataFindValue target =>
      addNode ctx (routing.NewRouteNode (message.Sender msg));;
      value ← storeRetrieve target;
      '(_, ht) ← htFromCtx ctx;
      let response :=
        match value with
        | Some v => message.ResponseDataFindValue [] (Some v)
        | None =>
            let closest := routing.GetClosestContacts ht routing.MaxContactsInBucket target
                                                      [message.Sender msg] in
            message.ResponseDataFindValue (routing.Nodes closest) None
        end in
      SendResponse (message.RequestID msg) (messageBuilder response)
  | _ => panic "interface conversion"
  end.

Definition processStore (ctx : Context) (msg : message.Message)
           (messageBuilder : Builder) : M unit :=
  match message.Data msg with
  | message.RequestDataStore data =>
      addNode ctx (routing.NewRouteNode (message.Sender msg));;
      let key := NewKey w data in
      expiration ← getExpirationTime ctx key;
      now ← Now;
      opts ← gets options;
      let replication := now + ReplicateTime opts in
      _ ← storeStore key data replication expiration false;
      mret tt
  | _ => panic "interface conversion"
  end.

Definition processPing (ctx : Context) (msg : message.Message)
           (messageBuilder : Builder) : M unit :=
  SendResponse (message.RequestID msg) (messageBuilder message.NoData).

Definition rpcInvoke (sender : node.Node) (method : string) (args : list bytes)
  : M (bytes * option string) :=
  modify (record (transport.EvInvoke sender method args));;
  mret (Invoke w sender method args).

Definition processRPC (ctx : Context) (msg : message.Message)
           (messageBuilder : Builder) : M unit :=
  match message.Data msg with
  | message.RequestDataRPC method args =>
      addNode ctx (routing.NewRouteNode (message.Sender msg));;
      '(result, err) ← rpcInvoke (message.Sender msg) method args;
      let response :=
        match err with
        | None => message.ResponseDataRPC true result ""
        | Some e => message.ResponseDataRPC false result e
        end in
      SendResponse (message.RequestID msg) (messageBuilder response)
  | _ => panic "interface conversion"
  end.

(** The handler that [handleMessages] picks for a message type. *)
Definition handlerOf (t : message.MessageType)
  : Context -> message.Message -> Builder -> M unit :=
  match t with
  | message.TypeFindNode => processFindNode
  | message.TypeFindValue => processFindValue
  | message.TypeStore => processStore
  | message.TypePing => processPing
  | message.TypeRPC => processRPC
  end.

(** One turn of the loop of [handleMessages], on the inbound message
    [msg]. *)
Definition handleMessage (msg : message.Message) : M unit :=
  o ← gets origin;
  if negb (message.IsForMe msg o) then mret tt
  else
    '(ctx, _) ← (if bool_decide (node.ID (message.Receiver msg) = [])
                 then SetDefaultNode
                 else SetNodeByID (node.ID (message.Receiver msg)));
    '(_, ht) ← htFromCtx ctx;
    let messageBuilder :=
      message.BuildResponse (routing.Origin ht) (message.Sender msg) (message.Type_ msg) in
    handlerOf (message.Type_ msg) ctx msg messageBuilder.

(** ** RemoteProcedureCall *)

(** [RemoteProcedureCall] calls a remote procedure on the target node;
    it returns [(result, err)], a nil result being the empty string. *)
Definition RemoteProcedureCall (fuel : nat) (ctx : Context) (target method : string)
           (args : list bytes) : M (bytes * option string) :=
  '(targetNode, exists_, err) ← FindNode fuel ctx target;
  '(_, ht) ← htFromCtx ctx;
  match err with
  | Some e => mret ([], Some e)
  | None =>
      if negb exists_ then mret ([], Some "targetNode not found"%string)
      else
        match targetNode with
        | None => panic "invalid memory address or nil pointer dereference"
        | Some targetNode =>
            let request :=
              message.BuildRequest (routing.Origin ht) targetNode message.TypeRPC
                                   (message.RequestDataRPC method args) in
            self ← GetOriginID ctx;
            if bool_decide (target = self) then
              rpcInvoke (message.Sender request) method args
            else
              '(future, err) ← SendRequest request;
              match err, future with
              | Some e, _ => mret ([], Some e)
              | None, None => panic "invalid memory address or nil pointer dereference"
              | None, Some future =>
                  match outcome w future with
                  | transport.Reply rsp =>
                      addNode ctx (routing.NewRouteNode (message.Sender rsp));;
                      match message.Data rsp with
                      | message.ResponseDataRPC success result error =>
                          if success then mret (result, None)
                          else mret ([], Some error)
                      | _ => panic "interface conversion"
                      end
                  | transport.ChannelClosed =>
                      mret ([], Some "chanel closed unexpectedly"%string)
                  | transport.TimedOut =>
                      Cancel (Some future);;
                      mret ([], Some "timeout"%string)
                  end
              end
        end
  end.

(** ** The timers *)

(** [ht.GetRandomIDFromBucket(bucket)] draws its random bytes from the
    world. *)
Definition randomIDFromBucket (ht : routing.HashTable) (bucket : nat) : M bytes :=
  n ← gets drawn;
  modify (setDrawn (S n));;
  mret (routing.GetRandomIDFromBucket ht bucket (randomBytes w n)).

(** The refresh loop of one table, over the bucket indices [buckets];
    the table is read anew at each index, as through the Go pointer.
    [time.Since] is taken on the clock of the state, which the iterations
    that went before have not advanced (see [Now]). *)
Fixpoint refreshBuckets (fuel : nat) (ctx : Context) (k : nat) (buckets : list nat)
  : M unit :=
  match buckets with
  | [] => mret tt
  | i :: rest =>
      ts ← gets tables;
      match ts !! k with
      | None => panic "index out of range"
      | Some ht =>
          now ← Now;
          opts ← gets options;
          (if bool_decide (RefreshTime opts < now - routing.GetRefreshTimeForBucket ht i) then
             id ← randomIDFromBucket ht routing.MaxContactsInBucket;
             _ ← iterate fuel ctx routing.IterateBootstrap id [];
             mret tt
           else mret tt);;
          refreshBuckets fuel ctx k rest
      end
  end.

(** The replication loop of one table. *)
Fixpoint replicateKeys (fuel : nat) (ctx : Context) (keys : list bytes) : M unit :=
  match keys with
  | [] => mret tt
  | key :: rest =>
      value ← storeRetrieve key;
      _ ← iterate fuel ctx routing.IterateStore key (default [] value);
      replicateKeys fuel ctx rest
  end.

(** One tick of [handleStoreTimers]: refresh and replication for every
    table, then expiration.  The sweep reads the clock of the state, which
    is still the clock the tick began with (see [Now]). *)
Definition handleStoreTimersTick (fuel : nat) : M unit :=
  now ← Now;
  modify (record transport.EvGetKeysReadyToReplicate);;
  keys ← gets (fun s => store.GetKeysReadyToReplicate now (store s));
  idxs ← tableIndices;
  _ ← rangeTables (fun k ht =>
         '(ctx, err) ← SetNodeByID (node.ID (routing.Origin ht));
         match err with
         | Some e => panic ("log.Fatal: " +:+ e)
         | None =>
             refreshBuckets fuel ctx k (seq 0 routing.KeyBitSize);;
             replicateKeys fuel ctx keys;;
             mret (@None unit)
         end) idxs;
  modify (fun s => record transport.EvExpireKeys
                          (setStore (store.ExpireKeys (clock s) (store s)) s)).

End Engine.

(** [NewDHT] initializes a new DHT node: one empty table per identity of
    the origin and the defaults of the options left at zero. *)
Definition orDefault (d v : Z) : Z := if v =? 0 then d else v.

Definition NewDHT (o : node.Origin) (opts : Options) (now : Z) : DHT :=
  mkDHT (map (fun id => routing.NewHashTable id (node.OriginAddress o) now) (node.IDs o))
        (mkOptions (BootstrapNodes opts)
                   (orDefault (Second * 86410) (ExpirationTime opts))
                   (orDefault (Second * 3600) (RefreshTime opts))
                   (orDefault (Second * 3600) (ReplicateTime opts))
                   (orDefault (Second * 86400) (RepublishTime opts))
                   (orDefault (Second * 1) (PingTimeout opts))
                   (orDefault (Second * 10) (MessageTimeout opts)))
        o ∅ 0 0 now [].

(** ** A base58 codec and sample worlds

    The codec of the driver boundary (Bitcoin alphabet): the digits of the
    big-endian number in base 58, one leading 1 per leading zero byte. *)
Module base58.

Definition alphabet : list ascii :=
  list_ascii_of_string "123456789ABCDEFGHJKLMNPQRSTUVWXYZabcdefghijkmnopqrstuvwxyz".

Fixpoint indexOf (c : ascii) (l : list ascii) : option nat :=
  match l with
  | [] => None
  | x :: l' => if bool_decide (x = c) then Some 0%nat else S <$> indexOf c l'
  end.

Fixpoint toDigits (fuel : nat) (n : Z) (acc : list ascii) : list ascii :=
  match fuel with
  | O => acc
  | S fuel =>
      if n <=? 0 then acc
      else toDigits fuel (n / 58)
                    (default "1"%char (alphabet !! Z.to_nat (n `mod` 58)) :: acc)
  end.

Fixpoint toBytes (fuel : nat) (n : Z) (acc : bytes) : bytes :=
  match fuel with
  | O => acc
  | S fuel => if n <=? 0 then acc else toBytes fuel (n / 256) (n `mod` 256 :: acc)
  end.

Fixpoint leadingZeros (b : bytes) : nat :=
  match b with
  | 0 :: b' => S (leadingZeros b')
  | _ => 0%nat
  end.

Fixpoint leadingOnes (s : list ascii) : nat :=
  match s with
  | c :: s' => if bool_decide (c = "1"%char) then S (leadingOnes s') else 0%nat
  | [] => 0%nat
  end.

Definition Encode (b : bytes) : string :=
  string_of_list_ascii
    (replicate (leadingZeros b) "1"%char
       ++ toDigits (2 * length b) (bytes_to_Z b) []).

Definition Decode (s : string) : bytes :=
  let cs := list_ascii_of_string s in
  match mapM (fun c => indexOf c alphabet) cs with
  | None => []
  | Some ds =>
      let n := fold_left (fun acc d => acc * 58 + Z.of_nat d) ds 0 in
      replicate (leadingOnes cs) 0 ++ toBytes (length cs) n []
  end.

End base58.

(** Sample worlds and states, used to run the engine on concrete inputs. *)
Module sample.

(** A stand-in for the content hash: 20 bytes made from the data. *)
Definition NewKey (data : bytes) : bytes := take 20 (data ++ replicate 20 7).

(** A world in which every send succeeds and no future ever delivers. *)
Definition silent : World :=
  mkWorld (fun _ _ => false) (fun _ => transport.TimedOut) (fun _ => replicate 20 85)
          (fun _ _ _ => ([], None)) NewKey base58.Encode base58.Decode.

(** A world in which every send succeeds and every future delivers the
    reply [rsp]. *)
Definition answering (rsp : message.Message) : World :=
  mkWorld (fun _ _ => false) (fun _ => transport.Reply rsp) (fun _ => replicate 20 85)
          (fun _ _ _ => ([], None)) NewKey base58.Encode base58.Decode.

(** A world in which the Store requests cannot be sent, every other
    request can, and no future ever delivers. *)
Definition storeless : World :=
  mkWorld (fun _ m => bool_decide (message.Type_ m = message.TypeStore))
          (fun _ => transport.TimedOut) (fun _ => replicate 20 85)
          (fun _ _ _ => ([], None)) NewKey base58.Encode base58.Decode.

Definition selfID : bytes := replicate 20 0.
Definition self : node.Origin := node.mkOrigin "127.0.0.1:40001" [selfID].
Definition selfNode : node.Node := node.mkNode selfID "127.0.0.1:40001".

(** The node of a fresh DHT with the default options, created at time 0. *)
Definition fresh : DHT := NewDHT self (mkOptions [] 0 0 0 0 0 0) 0.

(** Peer [n]: its ID differs from [selfID] in the very first bit, so that
    every peer falls into bucket 0. *)
Definition peerID (n : nat) : bytes := 128 :: replicate 18 0 ++ [Z.of_nat n].
Definition peer (n : nat) : node.Node := node.mkNode (peerID n) "127.0.0.1:40002".
Definition routePeer (n : nat) : routing.RouteNode := routing.NewRouteNode (peer n).

(** The table of [fresh] with the given entries in bucket 0, and [fresh]
    with that table. *)
Definition table0 (bucket : list routing.RouteNode) : routing.HashTable :=
  setBucket 0 bucket (routing.NewHashTable selfID "127.0.0.1:40001" 0).

Definition withBucket0 (bucket : list routing.RouteNode) : DHT :=
  setTables [table0 bucket] fresh.

Definition ctx0 : Context := Some 0%nat.

(** Two hours after its creation, a node that knows peer 1, whose
    bucket 0 was never refreshed and whose other buckets were refreshed
    just now; [RefreshTime] is the default hour. *)
Definition twoHours : Z := 7200 * Second.

Definition staleBucket0 : DHT :=
  mkDHT [routing.mkHashTable selfNode
           (<[0%nat := [routePeer 1]]> (replicate routing.KeyBitSize []))
           (<[0%nat := 0]> (replicate routing.KeyBitSize twoHours))]
        (options fresh) self ∅ 0 0 twoHours [].

(** [fresh], and [withBucket0], with another [ExpirationTime]. *)
Definition expiringAfter (d : Z) (s : DHT) : DHT :=
  mkDHT (tables s)
        (mkOptions [] d (RefreshTime (options s)) (ReplicateTime (options s))
                   (RepublishTime (options s)) (PingTimeout (options s))
                   (MessageTimeout (options s)))
        (origin s) (store s) (sent s) (drawn s) (clock s) (trace s).

(** The reply of peer [n] to a remote procedure call. *)
Definition rpcReply (n : nat) (success : bool) (result : bytes) (error : string)
  : message.Message :=
  message.BuildResponse (peer n) selfNode message.TypeRPC
                        (message.ResponseDataRPC success result error).

(** Bucket 0 of the first table. *)
Definition bucket0 (s : DHT) : list routing.RouteNode :=
  default [] (ht ← tables s !! 0%nat; routing.RoutingTable ht !! 0%nat).

(** The reply of peer [n] to a ping. *)
Definition pong (n : nat) : message.Message :=
  message.BuildResponse (peer n) selfNode message.TypePing message.NoData.

End sample.

(** ** The predicates of the properties *)

(** The origin of a table and its number of buckets. *)
Definition shape (ht : routing.HashTable) : node.Node * nat :=
  (routing.Origin ht, length (routing.RoutingTable ht)).

(** [frame s s']: going from [s] to [s'] left the store, the options, the
    origin and the clock alone, and kept, for every table, its origin and
    its number of buckets. *)
Record frame (s s' : DHT) : Prop := mkFrame {
  frame_store : store s' = store s;
  frame_options : options s' = options s;
  frame_origin : origin s' = origin s;
  frame_clock : clock s' = clock s;
  frame_shape : map shape (tables s') = map shape (tables s) }.

(** [framed m]: whatever state [m] ends in is framed by the one it began
    in. *)
Definition framed {A} (m : M A) : Prop :=
  forall s s', finalState (m s) = Some s' -> frame s s'.

(** A bucket holds at most [MaxContactsInBucket] entries, and no ID
    twice. *)
Definition bucketOK (b : list routing.RouteNode) : Prop :=
  (length b ≤ routing.MaxContactsInBucket)%nat /\ NoDup (routing.RouteNodeID <$> b).

Definition tableOK (ht : routing.HashTable) : Prop :=
  Forall bucketOK (routing.RoutingTable ht).

Definition bucketsOK (s : DHT) : Prop := Forall tableOK (tables s).

#[global] Instance bucketOK_dec b : Decision (bucketOK b).
Proof. unfold bucketOK. apply _. Defined.
#[global] Instance tableOK_dec ht : Decision (tableOK ht).
Proof. unfold tableOK. apply _. Defined.
#[global] Instance bucketsOK_dec s : Decision (bucketsOK s).
Proof. unfold bucketsOK. apply _. Defined.

(** The payload of a request of type [t] has the shape the handler of [t]
    asserts. *)
Definition requestOf (t : message.MessageType) (d : message.MessageData) : Prop :=
  match t, d with
  | message.TypePing, _
  | message.TypeFindNode, message.RequestDataFindNode _
  | message.TypeFindValue, message.RequestDataFindValue _
  | message.TypeStore, message.RequestDataStore _
  | message.TypeRPC, message.RequestDataRPC _ _ => True
  | _, _ => False
  end.

(** The state in which [addNode] of the sender of [msg] ends. *)
Definition afterAddNode (w : World) (ctx : Context) (msg : message.Message)
           (s : DHT) : option DHT :=
  finalState (addNode w ctx (routing.NewRouteNode (message.Sender msg)) s).

(** [keepsTables m]: [m] always ends, and in a state with the tables it
    began with. *)
Definition keepsTables {A} (m : M A) : Prop :=
  forall s, exists s', finalState (m s) = Some s' /\ tables s' = tables s.

(** What [Get] makes of the outcome of the iterative FindValue. *)
Definition getFromNetwork (o : Outcome (option bytes * list node.Node * option string))
  : Outcome (option bytes * bool * option string) :=
  match o with
  | Returned (value, _, None) s => Returned (value, bool_decide (is_Some value), None) s
  | Returned (_, _, Some e) s => Returned (None, false, Some e) s
  | Panicked why s => Panicked why s
  | OutOfFuel => OutOfFuel
  end.

(** Every table has [KeyBitSize] buckets and an origin whose ID is
    [MaxContactsInBucket] bytes long, as [NewDHT] makes them. *)
Definition wellFormed (s : DHT) : Prop :=
  Forall (fun sh : node.Node * nat =>
            length (node.ID sh.1) = routing.MaxContactsInBucket
            /\ sh.2 = routing.KeyBitSize)
         (map shape (tables s)).

(** The iterations a trace records, and the Store requests it records,
    each with its receiver and whether the send succeeded. *)
Definition iterations (tr : list transport.Event) : list (routing.IterateType * bytes) :=
  omap (fun e => match e with
                 | transport.EvIterate t tgt => Some (t, tgt)
                 | _ => None
                 end) tr.

Definition storeRequests (tr : list transport.Event) : list (node.Node * bool) :=
  omap (fun e => match e with
                 | transport.EvSendRequest _ m ok =>
                     if bool_decide (message.Type_ m = message.TypeStore)
                     then Some (message.Receiver m, ok) else None
                 | _ => None
                 end) tr.

(** The table of the first identity. *)
Definition firstTable (s : DHT) : routing.HashTable :=
  default (routing.NewHashTable [] "" 0) (tables s !! 0%nat).

(** The enclosure of e against the series of 1/k!: with N = 30! and S the
    sum of N/k! for k up to 30, S/N < e < (S+1)/N, and the enclosure
    contains that interval. *)
Definition factorialZ (n : nat) : Z :=
  foldr (fun k acc => Z.of_nat (S k) * acc) 1 (seq 0 n).
Definition seriesE (n : nat) : Z :=
  foldr (fun k acc => factorialZ n / factorialZ k + acc) 0 (seq 0 (S n)).

(** An ID: [MaxContactsInBucket] bytes, each in [0, 256). *)
Definition isID (b : bytes) : Prop :=
  length b = routing.MaxContactsInBucket /\ Forall (fun x => 0 <= x < 256) b.

(** The byte values, and the check of [routing.differingByte] at a bit
    position, an origin byte and a random byte: the byte it makes differs
    from the origin's, first at that position. *)
Definition byteValues : list Z := Z.of_nat <$> seq 0 256.

Definition differsAt (bit : nat) (o r : Z) : bool :=
  let x := Z.lxor o (routing.differingByte bit o r) in
  negb (x =? 0) && bool_decide (routing.firstBitOfByte x = bit).

Definition differsAtForEveryRandom (bit : nat) (o : Z) : bool :=
  forallb (differsAt bit o) byteValues.

Definition differsAtForEveryByte (bit : nat) : bool :=
  forallb (differsAtForEveryRandom bit) byteValues.

(** ** The predicates of the further properties *)

(** ** The ways through addNode *)

(** The state [s] with bucket [index] of table [htIdx] set to [bucket]. *)
Definition withBucket (htIdx index : nat) (bucket : list routing.RouteNode) (s : DHT) : DHT :=
  setTables (alter (setBucket index bucket) htIdx (tables s)) s.

(** The state after the ping of [addNode] to the head [h] of a full bucket
    was handed to the transport. *)
Definition pinged (w : World) (ht : routing.HashTable) (h : routing.RouteNode) (s : DHT) : DHT :=
  let ping := message.NewPingMessage (routing.Origin ht) (routing.Node h) in
  record (transport.EvSendRequest (sent s) ping (negb (sendFails w (sent s) ping)))
         (setSent (S (sent s)) s).

(** [addNodeStep w ctx n s s']: [addNode w ctx n] ends in [s'] when started
    in [s]; one constructor for each way through the function. *)
Inductive addNodeStep (w : World) (n : routing.RouteNode) (s : DHT)
  : Context -> DHT -> Prop :=
| AddNilContext : addNodeStep w n s None s
| AddNoTable htIdx :
    tables s !! htIdx = None ->
    addNodeStep w n s (Some htIdx) s
| AddSeen htIdx ht :
    tables s !! htIdx = Some ht ->
    let index := routing.GetBucketIndexFromDifferingBit
                   (node.ID (routing.Origin ht)) (routing.RouteNodeID n) in
    routing.DoesNodeExistInBucket ht index (routing.RouteNodeID n) = true ->
    addNodeStep w n s (Some htIdx)
      (setTables (alter (fun ht => routing.MarkNodeAsSeen ht (routing.RouteNodeID n))
                        htIdx (tables s)) s)
| AddNoBucket htIdx ht :
    tables s !! htIdx = Some ht ->
    let index := routing.GetBucketIndexFromDifferingBit
                   (node.ID (routing.Origin ht)) (routing.RouteNodeID n) in
    routing.DoesNodeExistInBucket ht index (routing.RouteNodeID n) = false ->
    routing.RoutingTable ht !! index = None ->
    addNodeStep w n s (Some htIdx) s
| AddAppend htIdx ht bucket :
    tables s !! htIdx = Some ht ->
    let index := routing.GetBucketIndexFromDifferingBit
                   (node.ID (routing.Origin ht)) (routing.RouteNodeID n) in
    routing.DoesNodeExistInBucket ht index (routing.RouteNodeID n) = false ->
    routing.RoutingTable ht !! index = Some bucket ->
    length bucket ≠ routing.MaxContactsInBucket ->
    addNodeStep w n s (Some htIdx) (withBucket htIdx index (bucket ++ [n]) s)
| AddSendFailed htIdx ht h rest :
    tables s !! htIdx = Some ht ->
    let index := routing.GetBucketIndexFromDifferingBit
                   (node.ID (routing.Origin ht)) (routing.RouteNodeID n) in
    routing.DoesNodeExistInBucket ht index (routing.RouteNodeID n) = false ->
    routing.RoutingTable ht !! index = Some (h :: rest) ->
    length (h :: rest) = routing.MaxContactsInBucket ->
    sendFails w (sent s) (message.NewPingMessage (routing.Origin ht) (routing.Node h)) = true ->
    addNodeStep w n s (Some htIdx) (withBucket htIdx index (rest ++ [n]) (pinged w ht h s))
| AddTimedOut htIdx ht h rest :
    tables s !! htIdx = Some ht ->
    let index := routing.GetBucketIndexFromDifferingBit
                   (node.ID (routing.Origin ht)) (routing.RouteNodeID n) in
    routing.DoesNodeExistInBucket ht index (routing.RouteNodeID n) = false ->
    routing.RoutingTable ht !! index = Some (h :: rest) ->
    length (h :: rest) = routing.MaxContactsInBucket ->
    sendFails w (sent s) (message.NewPingMessage (routing.Origin ht) (routing.Node h)) = false ->
    outcome w (sent s) = transport.TimedOut ->
    addNodeStep w n s (Some htIdx) (withBucket htIdx index (rest ++ [n]) (pinged w ht h s))
| AddAnswered htIdx ht h rest :
    tables s !! htIdx = Some ht ->
    let index := routing.GetBucketIndexFromDifferingBit
                   (node.ID (routing.Origin ht)) (routing.RouteNodeID n) in
    routing.DoesNodeExistInBucket ht index (routing.RouteNodeID n) = false ->
    routing.RoutingTable ht !! index = Some (h :: rest) ->
    length (h :: rest) = routing.MaxContactsInBucket ->
    sendFails w (sent s) (message.NewPingMessage (routing.Origin ht) (routing.Node h)) = false ->
    outcome w (sent s) ≠ transport.TimedOut ->
    addNodeStep w n s (Some htIdx) (pinged w ht h s).

(** Bucket [index] of the table exists and is not full. *)
Definition hasRoom (ht : routing.HashTable) (index : nat) : bool :=
  match routing.RoutingTable ht !! index with
  | Some bucket => bool_decide (length bucket ≠ routing.MaxContactsInBucket)
  | None => false
  end.

(** ** Invariants of the engine *)

(** [preserves P m]: whatever state [m] ends in, by returning or by a
    panic, satisfies [P] if the state it began in does. *)
Definition preserves {A} (P : DHT -> Prop) (m : M A) : Prop :=
  forall s s', P s -> finalState (m s) = Some s' -> P s'.

(** The bound of the buckets alone, without the distinct IDs: every
    bucket holds at most [MaxContactsInBucket] entries. *)
Definition tableCapped (ht : routing.HashTable) : Prop :=
  Forall (fun b => (length b ≤ routing.MaxContactsInBucket)%nat) (routing.RoutingTable ht).

Definition bucketsCapped (s : DHT) : Prop := Forall tableCapped (tables s).

#[global] Instance tableCapped_dec ht : Decision (tableCapped ht).
Proof. unfold tableCapped. apply _. Defined.
#[global] Instance bucketsCapped_dec s : Decision (bucketsCapped s).
Proof. unfold bucketsCapped. apply _. Defined.

(** [bucketInvariant Inv]: [Inv] speaks of the buckets of the tables and
    of nothing else, and [addNode] keeps it. *)
Record bucketInvariant (Inv : DHT -> Prop) : Prop := mkBucketInvariant {
  inv_buckets : forall s s',
    routing.RoutingTable <$> tables s' = routing.RoutingTable <$> tables s ->
    Inv s -> Inv s';
  inv_addNode : forall w ctx n, preserves Inv (addNode w ctx n) }.

(** The IDs of the entries of every bucket of every table, in the order
    of the buckets. *)
Definition bucketIDs (s : DHT) : list (list (list bytes)) :=
  map (fun ht => map (map routing.RouteNodeID) (routing.RoutingTable ht)) (tables s).

(** The responses a trace records, each with the request-ID it was sent
    under. *)
Definition responsesOf (tr : list transport.Event) : list (bytes * message.Message) :=
  omap (fun e => match e with
                 | transport.EvSendResponse rid m => Some (rid, m)
                 | _ => None
                 end) tr.

(** ** What goes into the trace *)

(** [emits P m]: [m] only ever appends to the trace, and every event it
    appends satisfies [P]. *)
Definition emits {A} (P : transport.Event -> Prop) (m : M A) : Prop :=
  forall s s', finalState (m s) = Some s' ->
    exists d, trace s' = trace s ++ d /\ Forall P d.

(** No response, and no request but of the types [allowed]. *)
Definition onlyRequests (allowed : list message.MessageType) (e : transport.Event) : Prop :=
  match e with
  | transport.EvSendRequest _ m _ => message.Type_ m ∈ allowed
  | transport.EvSendResponse _ _ => False
  | _ => True
  end.

(** The type of the queries of an iteration, and the types of all the
    requests it may send: the ping of [addNode], the queries, and the
    Store requests that end an iterative store. *)
Definition queryType (t : routing.IterateType) : message.MessageType :=
  match t with
  | routing.IterateFindValue => message.TypeFindValue
  | _ => message.TypeFindNode
  end.

Definition requestTypes (t : routing.IterateType) : list message.MessageType :=
  match t with
  | routing.IterateStore => [message.TypePing; message.TypeFindNode; message.TypeStore]
  | _ => [message.TypePing; queryType t]
  end.

(** What the handling of the inbound message [msg] may leave in the
    trace: the ping of [addNode], a response to the sender of [msg] under
    its request-ID and of its type, and the call on the store or on the
    registry of remote procedures that goes with the type of [msg]; no
    iteration, no request of another type, no cancellation. *)
Definition handlerEvent (msg : message.Message) (e : transport.Event) : Prop :=
  match e with
  | transport.EvSendRequest _ m _ => message.Type_ m = message.TypePing
  | transport.EvSendResponse rid m =>
      rid = message.RequestID msg
      /\ message.Type_ m = message.Type_ msg
      /\ message.Receiver m = message.Sender msg
      /\ message.IsResponse m = true
      /\ message.Type_ msg ≠ message.TypeStore
  | transport.EvStore _ => message.Type_ msg = message.TypeStore
  | transport.EvRetrieve _ => message.Type_ msg = message.TypeFindValue
  | transport.EvInvoke sender _ _ =>
      message.Type_ msg = message.TypeRPC /\ sender = message.Sender msg
  | _ => False
  end.

(** ** What the engine returns *)

(** [returns Q m]: whatever [m] returns satisfies [Q]. *)
Definition returns {A} (Q : A -> Prop) (m : M A) : Prop :=
  forall s a s', m s = Returned a s' -> Q a.

(** What [iterate] of type [t] may return: never an error, and a value
    for a FindValue only, without nodes. *)
Definition iterateResult (t : routing.IterateType)
           (r : option bytes * list node.Node * option string) : Prop :=
  r.2 = None /\ (is_Some r.1.1 -> t = routing.IterateFindValue /\ r.1.2 = []).

(** The IDs of the receivers of the queries a trace records, the FindNode
    and FindValue requests, in the order of the sends and whether or not
    the send succeeded. *)
Definition queried (tr : list transport.Event) : list bytes :=
  omap (fun e => match e with
                 | transport.EvSendRequest _ m _ =>
                     if bool_decide (message.Type_ m = message.TypeFindNode
                                     \/ message.Type_ m = message.TypeFindValue)
                     then Some (node.ID (message.Receiver m)) else None
                 | _ => None
                 end) tr.

(** [queriesOnce contacted m]: [m] only appends to the trace, and the
    queries it appends go to nodes that are pairwise distinct and not in
    [contacted]. *)
Definition queriesOnce {A : Type} (contacted : gset bytes) (m : M A) : Prop :=
  forall s s', finalState (m s) = Some s' ->
    exists d, trace s' = trace s ++ d
              /\ NoDup (queried d)
              /\ forall id, id ∈ queried d -> id ∉ contacted.

(** The futures a trace records as cancelled. *)
Definition cancellations (tr : list transport.Event) : list transport.Future :=
  omap (fun e => match e with
                 | transport.EvCancel f => Some f
                 | _ => None
                 end) tr.

(** A world like [sample.silent] whose remote procedures return their
    arguments, joined, and a state for peer 1 as [NewDHT] makes it. *)
Definition echoing : World :=
  mkWorld (fun _ _ => false) (fun _ => transport.TimedOut) (fun _ => replicate 20 85)
          (fun _ _ args => (concat args, None))
          sample.NewKey base58.Encode base58.Decode.

Definition freshPeer1 : DHT :=
  NewDHT (node.mkOrigin "127.0.0.1:40002" [sample.peerID 1]) (mkOptions [] 0 0 0 0 0 0) 0.

(** A node created with two seeds, one known by its ID and one by its
    address only. *)
Definition seeded : DHT :=
  NewDHT sample.self
         (mkOptions [sample.peer 1; node.mkNode [] "127.0.0.1:40003"] 0 0 0 0 0 0) 0.

(** ** cmd/example: the console *)
Module example.

(** [strings.Split(line, " ")]: the pieces of [line] between its spaces,
    one more than it has spaces. *)
Fixpoint Split (line : string) : list string :=
  match line with
  | EmptyString => [EmptyString]
  | String c rest =>
      if bool_decide (c = " "%char) then EmptyString :: Split rest
      else match Split rest with
           | piece :: pieces => String c piece :: pieces
           | [] => [String c EmptyString]
           end
  end.

(** [[]byte(arg)]. *)
Definition toBytes (arg : string) : bytes :=
  (fun c => Z.of_N (N_of_ascii c)) <$> list_ascii_of_string arg.

(** What the console prints, line by line; the prints of the library are
    left out. *)
Inductive Printed :=
| InteractiveHelp
| Searching (key : string)
| ErrorText (e : string)
| Found (targetNode : option node.Node)
| NothingFound
| InfoID (originID : string)
| InfoKnownNodes (nodes : nat)
| Running (method target : string) (args : list bytes)
| Result (result : bytes).

Definition displayInteractiveHelp : M (list Printed) := mret [InteractiveHelp].

(** [input[i]], for the indices the code has checked. *)
Definition word (input : list string) (i : nat) : string :=
  default EmptyString (input !! i).

Definition doFindNode (w : World) (fuel : nat) (input : list string) (ctx : Context)
  : M (list Printed) :=
  if bool_decide (length input ≠ 2%nat) then displayInteractiveHelp
  else
    '(targetNode, exists_, err) ← FindNode w fuel ctx (word input 1);
    let found : Printed := if (exists_ : bool) then Found targetNode else NothingFound in
    mret match err with
         | Some e => [Searching (word input 1); ErrorText e; found]
         | None => [Searching (word input 1); found]
         end.

Definition doInfo (w : World) (ctx : Context) : M (list Printed) :=
  nodes ← NumNodes ctx;
  originID ← GetOriginID w ctx;
  mret [InfoID originID; InfoKnownNodes nodes].

Definition doRPC (w : World) (fuel : nat) (input : list string) (ctx : Context)
  : M (list Printed) :=
  if bool_decide (length input < 2)%nat
     || bool_decide (String.length (word input 0) = 0%nat)
     || bool_decide (String.length (word input 1) = 0%nat)
  then
    if bool_decide (0 < length input)%nat
       && bool_decide (0 < String.length (word input 0))%nat
    then displayInteractiveHelp
    else mret []
  else
    let method := word input 0 in
    let target := word input 1 in
    let args := toBytes <$> drop 2 input in
    '(result, err) ← RemoteProcedureCall w fuel ctx target method args;
    mret [Running method target args;
          match err with Some e => ErrorText e | None => Result result end].

(** One turn of the loop of [repl], on the line read. *)
Definition replLine (w : World) (fuel : nat) (ctx : Context) (line : string)
  : M (list Printed) :=
  let input := Split line in
  if String.eqb (word input 0) "help" then displayInteractiveHelp
  else if String.eqb (word input 0) "findnode" then doFindNode w fuel input ctx
  else if String.eqb (word input 0) "info" then doInfo w ctx
  else doRPC w fuel input ctx.

(** The words of a command line, joined by single spaces. *)
Fixpoint join (words : list string) : string :=
  match words with
  | [] => EmptyString
  | [word] => word
  | word :: words => word ++ String " "%char (join words)
  end.

(** A word holds no space. *)
Fixpoint spaceless (word : string) : bool :=
  match word with
  | EmptyString => true
  | String c rest => negb (bool_decide (c = " "%char)) && spaceless rest
  end.

End example.

(** Requests of the types [allowed] and cancellations, nothing else. *)
Definition requestsOf (allowed : list message.MessageType) (e : transport.Event) : Prop :=
  match e with
  | transport.EvSendRequest _ m _ => message.Type_ m ∈ allowed
  | transport.EvCancel _ => True
  | _ => False
  end.

(** The keys of the iterative stores a trace records as started. *)
Definition storesStarted (tr : list transport.Event) : list bytes :=
  omap (fun e => match e with
                 | transport.EvIterate routing.IterateStore key => Some key
                 | _ => None
                 end) tr.

(** Anything but the mark of an iterative store. *)
Definition notStoreMark (e : transport.Event) : Prop :=
  match e with
  | transport.EvIterate routing.IterateStore _ => False
  | _ => True
  end.

(** A node that knows peer 1 and published a value whose replication is
    due, ten seconds after its creation. *)
Definition republishing : DHT :=
  mkDHT [sample.table0 [sample.routePeer 1]] (options sample.fresh) sample.self
        {[ sample.NewKey [104; 105]
           := store.mkEntry [104; 105] 0 (Second * 100000) true ]}
        0 0 (Second * 10) [].

(** * Properties *)

(** ** The monad *)

Lemma bind_Returned {A B} (m : M A) (f : A -> M B) (s s' : DHT) (b : B) :
  (m ≫= f) s = Returned b s' ->
  exists a s1, m s = Returned a s1 /\ f a s1 = Returned b s'.
Proof.
  unfold mbind, M_bind. destruct (m s) as [a s1| |]; try discriminate.
  intros H. exists a, s1. split; [reflexivity | exact H].
Qed.

Lemma bind_run {A B} (m : M A) (f : A -> M B) (s s1 : DHT) (a : A) :
  m s = Returned a s1 -> (m ≫= f) s = f a s1.
Proof. unfold mbind, M_bind. intros ->. reflexivity. Qed.

Lemma bind_final {A B} (m : M A) (f : A -> M B) (s s' : DHT) :
  finalState ((m ≫= f) s) = Some s' ->
  (exists a s1, m s = Returned a s1 /\ finalState (f a s1) = Some s')
  \/ (exists why, m s = Panicked why s').
Proof.
  unfold mbind, M_bind. destruct (m s) as [a s1|why s1|]; simpl.
  - intros H. left. exists a, s1. split; [reflexivity | exact H].
  - intros [= ->]. right. exists why. reflexivity.
  - discriminate.
Qed.

(** ** What the engine never touches *)

Lemma frame_refl s : frame s s.
Proof. split; reflexivity. Qed.

Lemma frame_trans s1 s2 s3 : frame s1 s2 -> frame s2 s3 -> frame s1 s3.
Proof.
  intros [a b c d e] [a' b' c' d' e'].
  split; etrans; eassumption.
Qed.

Lemma framed_ret {A} (a : A) : framed (mret a).
Proof. intros s s' [= <-]. apply frame_refl. Qed.

Lemma framed_panic {A} why : framed (@panic A why).
Proof. intros s s' [= <-]. apply frame_refl. Qed.

Lemma framed_outOfFuel {A} : framed (@outOfFuel A).
Proof. intros s s' [=]. Qed.

Lemma framed_gets {A} (f : DHT -> A) : framed (gets f).
Proof. intros s s' [= <-]. apply frame_refl. Qed.

Lemma framed_bind {A B} (m : M A) (f : A -> M B) :
  framed m -> (forall a, framed (f a)) -> framed (m ≫= f).
Proof.
  intros Hm Hf s s' H.
  destruct (bind_final _ _ _ _ H) as [(a & s1 & E1 & E2)|[why E]].
  - eapply frame_trans; [apply Hm; rewrite E1; reflexivity | eapply Hf, E2].
  - apply Hm. rewrite E. reflexivity.
Qed.

Lemma framed_modify (f : DHT -> DHT) :
  (forall s, frame s (f s)) -> framed (modify f).
Proof. intros Hf s s' [= <-]. apply Hf. Qed.

Lemma frame_record e s : frame s (record e s).
Proof. split; reflexivity. Qed.

Lemma frame_setSent n s : frame s (setSent n s).
Proof. split; reflexivity. Qed.

Lemma frame_setDrawn n s : frame s (setDrawn n s).
Proof. split; reflexivity. Qed.

Lemma frame_setTables f i s :
  (forall ht, shape (f ht) = shape ht) ->
  frame s (setTables (alter f i (tables s)) s).
Proof.
  intros Hf. split; try reflexivity. simpl.
  revert i. induction (tables s) as [|ht ts IH]; intros [|i]; simpl; try reflexivity.
  - f_equal. apply Hf.
  - f_equal. apply IH.
Qed.

Create HintDb framed.
#[local] Hint Resolve framed_ret framed_panic framed_outOfFuel framed_gets
  frame_record frame_setSent frame_setDrawn frame_refl : framed.

(** One step through the syntax of a monadic program. *)
Ltac framed_step :=
  match goal with
  | |- framed (_ ≫= _) =>
      apply framed_bind;
      [ | intros ?; repeat match goal with x : (_ * _)%type |- _ => destruct x end;
          cbv beta iota ]
  | |- framed (match ?x with _ => _ end) => destruct x
  | |- framed _ => solve [auto with framed]
  end.

Ltac framed_auto := repeat framed_step.

Lemma framed_htFromCtx ctx : framed (htFromCtx ctx).
Proof. unfold htFromCtx. framed_auto. Qed.

Lemma shape_MarkNodeAsSeen ht id : shape (routing.MarkNodeAsSeen ht id) = shape ht.
Proof. unfold shape. simpl. rewrite length_insert. reflexivity. Qed.

Lemma shape_setBucket i b ht : shape (setBucket i b ht) = shape ht.
Proof. unfold shape. simpl. rewrite length_insert. reflexivity. Qed.

Lemma shape_ResetRefreshTimeForBucket ht i now :
  shape (routing.ResetRefreshTimeForBucket ht i now) = shape ht.
Proof. reflexivity. Qed.

Lemma framed_updateTable i f :
  (forall ht, shape (f ht) = shape ht) -> framed (updateTable i f).
Proof. intros Hf. apply framed_modify. intros s. apply frame_setTables, Hf. Qed.

Lemma framed_SendRequest w msg : framed (SendRequest w msg).
Proof.
  unfold SendRequest. framed_auto.
  apply framed_modify. intros s. split; reflexivity.
Qed.

Lemma framed_SendResponse rid msg : framed (SendResponse rid msg).
Proof. apply framed_modify. auto with framed. Qed.

Lemma framed_Cancel f : framed (Cancel f).
Proof. destruct f; simpl; [apply framed_modify|]; auto with framed. Qed.

#[local] Hint Resolve framed_htFromCtx framed_SendRequest framed_SendResponse
  framed_Cancel : framed.
#[local] Hint Extern 1 (framed (updateTable _ _)) =>
  apply framed_updateTable; intros;
  first [apply shape_MarkNodeAsSeen | apply shape_setBucket
        | apply shape_ResetRefreshTimeForBucket] : framed.

#[local] Hint Extern 2 (framed (modify _)) =>
  apply framed_modify; intros; split; reflexivity : framed.

Lemma framed_addNode w ctx n : framed (addNode w ctx n).
Proof. unfold addNode, bucketOf. framed_auto. Qed.
#[local] Hint Resolve framed_addNode : framed.

Lemma framed_sendQueries w t target self queryRest receivers :
  forall i contacted remove futures,
    framed (sendQueries w t target self queryRest i receivers contacted remove futures).
Proof.
  induction receivers as [|r rest IH]; intros; simpl; framed_auto.
Qed.

Lemma framed_awaitFutures w ctx futures : framed (awaitFutures w ctx futures).
Proof. induction futures as [|f rest IH]; simpl; framed_auto. Qed.

Lemma framed_processResults t target results :
  forall routeSet, framed (processResults t target results routeSet).
Proof. induction results as [|r rest IH]; intros; simpl; framed_auto. Qed.

Lemma framed_storeFanOut w self data receivers :
  forall i, framed (storeFanOut w self data i receivers).
Proof. induction receivers as [|r rest IH]; intros; simpl; framed_auto. Qed.

#[local] Hint Resolve framed_sendQueries framed_awaitFutures framed_processResults
  framed_storeFanOut : framed.

Lemma framed_iterateLoop w fuel ctx t target data self :
  forall routeSet contacted queryRest closestNode remove,
    framed (iterateLoop w fuel ctx t target data self routeSet contacted queryRest
                        closestNode remove).
Proof.
  induction fuel as [|fuel IH]; intros; simpl; framed_auto.
Qed.
#[local] Hint Resolve framed_iterateLoop : framed.

Lemma framed_iterate w fuel ctx t target data : framed (iterate w fuel ctx t target data).
Proof.
  unfold iterate, Now. framed_auto.
Qed.
#[local] Hint Resolve framed_iterate : framed.

Lemma framed_FindNode w fuel ctx key : framed (FindNode w fuel ctx key).
Proof. unfold FindNode, findNodeIterating. framed_auto. Qed.

(** ** The bucket invariant *)

Lemma moveToTail_Permutation id b : routing.moveToTail id b ≡ₚ b.
Proof.
  induction b as [|r rest IH]; simpl; [reflexivity|].
  destruct (bytes_eqb _ _).
  - symmetry. apply Permutation_cons_append.
  - f_equiv. exact IH.
Qed.

Lemma bucketOK_Permutation b b' : b ≡ₚ b' -> bucketOK b -> bucketOK b'.
Proof.
  intros Hp [Hlen Hnd]. split.
  - rewrite <- Hp. exact Hlen.
  - rewrite <- Hp. exact Hnd.
Qed.

Lemma bucketOK_nil : bucketOK [].
Proof. split; [simpl; lia | constructor]. Qed.

Lemma bucketOK_bucketAt ht i : tableOK ht -> bucketOK (routing.bucketAt ht i).
Proof.
  intros H. unfold routing.bucketAt.
  destruct (routing.RoutingTable ht !! i) as [b|] eqn:E; simpl.
  - eapply Forall_lookup_1; eassumption.
  - apply bucketOK_nil.
Qed.

Lemma tableOK_setBucket i b ht : tableOK ht -> bucketOK b -> tableOK (setBucket i b ht).
Proof. intros H Hb. unfold tableOK. simpl. apply Forall_insert; assumption. Qed.

Lemma tableOK_MarkNodeAsSeen ht id : tableOK ht -> tableOK (routing.MarkNodeAsSeen ht id).
Proof.
  intros H. unfold tableOK. simpl. apply Forall_insert; [exact H|].
  eapply bucketOK_Permutation; [symmetry; apply moveToTail_Permutation|].
  apply bucketOK_bucketAt, H.
Qed.

Lemma bucketsOK_alter f i s :
  bucketsOK s -> (forall ht, tableOK ht -> tableOK (f ht)) ->
  bucketsOK (setTables (alter f i (tables s)) s).
Proof.
  intros H Hf. unfold bucketsOK. simpl. apply Forall_alter; [exact H|].
  intros ht _. apply Hf.
Qed.

(** [DoesNodeExistInBucket] decides membership of the ID. *)
Lemma DoesNodeExistInBucket_false ht i id :
  routing.DoesNodeExistInBucket ht i id = false ->
  id ∉ routing.RouteNodeID <$> routing.bucketAt ht i.
Proof.
  unfold routing.DoesNodeExistInBucket. generalize (routing.bucketAt ht i) as b.
  induction b as [|r rest IH]; simpl; intros H.
  - apply not_elem_of_nil.
  - apply orb_false_iff in H as [H1 H2].
    apply not_elem_of_cons. split; [|apply IH, H2].
    unfold bytes_eqb in H1. apply bool_decide_eq_false in H1. congruence.
Qed.

Lemma NoDup_append_fresh b n :
  NoDup (routing.RouteNodeID <$> b) ->
  routing.RouteNodeID n ∉ routing.RouteNodeID <$> b ->
  NoDup (routing.RouteNodeID <$> (b ++ [n])).
Proof.
  intros Hnd Hin. rewrite fmap_app. apply NoDup_app. split; [exact Hnd|]. split.
  - intros x Hx Hx'. apply list_elem_of_singleton in Hx'. subst x. contradiction.
  - apply NoDup_singleton.
Qed.

Lemma bucketOK_append b n :
  bucketOK b -> length b ≠ routing.MaxContactsInBucket ->
  routing.RouteNodeID n ∉ routing.RouteNodeID <$> b ->
  bucketOK (b ++ [n]).
Proof.
  intros [Hlen Hnd] Hne Hin. split.
  - rewrite length_app. simpl. lia.
  - apply NoDup_append_fresh; assumption.
Qed.

(** The head leaves, the new node comes in at the tail: both ways of
    writing it in [addNode] give the same bucket unless it was empty. *)
Lemma bucketOK_replace_head b n :
  bucketOK b -> routing.RouteNodeID n ∉ routing.RouteNodeID <$> b ->
  bucketOK (drop 1 (b ++ [n])) /\ bucketOK (drop 1 b ++ [n]).
Proof.
  intros [Hlen Hnd] Hin.
  assert (Hall : NoDup (routing.RouteNodeID <$> (b ++ [n])))
    by (apply NoDup_append_fresh; assumption).
  destruct b as [|h rest]; simpl in *.
  - split; [apply bucketOK_nil|].
    split; [unfold routing.MaxContactsInBucket; simpl; lia | exact Hall].
  - rewrite !drop_0.
    split; (split; [rewrite length_app; simpl; lia|]);
      apply NoDup_cons in Hall as [_ Hall]; exact Hall.
Qed.

(** Claim C8: [addNode] preserves the bucket invariant.  From a state in
    which every bucket of every table holds at most [MaxContactsInBucket]
    entries with distinct IDs, a call of [addNode] always ends (it returns
    or panics, whatever the ping of a full bucket's head gives), and in the
    state it ends in every bucket still holds at most that many entries
    with distinct IDs. *)
Theorem addNode_preserves_bucketsOK (w : World) (ctx : Context) (n : routing.RouteNode)
        (s : DHT) :
  bucketsOK s ->
  exists s', finalState (addNode w ctx n s) = Some s' /\ bucketsOK s'.
Proof.
  intros Hs. unfold addNode, htFromCtx.
  destruct ctx as [htIdx|]; [|eexists; split; [reflexivity|exact Hs]].
  cbn. unfold mbind, M_bind, gets.
  destruct (tables s !! htIdx) as [ht|] eqn:Eht;
    [|eexists; split; [reflexivity|exact Hs]].
  assert (Hht : tableOK ht) by (eapply Forall_lookup_1; eassumption).
  cbn.
  set (index := routing.GetBucketIndexFromDifferingBit _ _).
  destruct (routing.DoesNodeExistInBucket ht index (routing.RouteNodeID n)) eqn:Eex.
  { eexists; split; [reflexivity|].
    apply bucketsOK_alter; [exact Hs|]. intros; apply tableOK_MarkNodeAsSeen; assumption. }
  apply DoesNodeExistInBucket_false in Eex.
  unfold bucketOf, routing.bucketAt in *.
  destruct (routing.RoutingTable ht !! index) as [bucket|] eqn:Eb;
    [|eexists; split; [reflexivity|exact Hs]].
  simpl in Eex.
  assert (Hb : bucketOK bucket) by (eapply Forall_lookup_1; eassumption).
  cbn. case_bool_decide as Hfull.
  - destruct (bucketOK_replace_head bucket n Hb Eex) as [Hr1 Hr2].
    destruct bucket as [|h rest]; [eexists; split; [reflexivity|exact Hs]|].
    unfold SendRequest, mbind, M_bind, gets, modify. cbn.
    destruct (sendFails w (sent s) _); cbn.
    + eexists; split; [reflexivity|].
      apply (bucketsOK_alter _ _ (record _ (setSent _ s))); [exact Hs|].
      intros; apply tableOK_setBucket; assumption.
    + destruct (outcome w (sent s)); cbn;
        (eexists; split; [reflexivity|]); try exact Hs.
      apply (bucketsOK_alter _ _ (record _ (setSent _ s))); [exact Hs|].
      intros; apply tableOK_setBucket; assumption.
  - eexists; split; [reflexivity|].
    apply bucketsOK_alter; [exact Hs|].
    intros; apply tableOK_setBucket; [assumption|].
    apply bucketOK_append; assumption.
Qed.

Lemma addNode_preserves_bucketsOK_witness :
  let s := sample.withBucket0 (sample.routePeer <$> seq 1 20) in
  bucketsOK s /\
  exists s', finalState (addNode sample.silent sample.ctx0 (sample.routePeer 21) s) = Some s'
             /\ bucketsOK s'.
Proof.
  intros s.
  assert (H : bucketsOK s) by (apply (bool_decide_unpack _); vm_compute; reflexivity).
  split; [exact H|]. apply addNode_preserves_bucketsOK. exact H.
Defined.

(** ** addNode on a full bucket *)

(** The full-bucket path of [addNode] when the head replies, for every
    table and bucket: on a full bucket whose head [h] replies to the ping
    before [PingTimeout], [addNode] returns at once, on
    [case <-future.Result(): return].  The tables are left exactly as they
    were, so [h] stays where it was, at the head of the bucket, the new
    node is dropped and the bucket still has [MaxContactsInBucket]
    entries; the only trace is the ping. *)
Lemma addNode_full_bucket_head_replies (w : World) (htIdx : nat) (ht : routing.HashTable)
      (n h : routing.RouteNode) (rest : list routing.RouteNode) (rsp : message.Message)
      (s : DHT) :
  let index := routing.GetBucketIndexFromDifferingBit
                 (node.ID (routing.Origin ht)) (routing.RouteNodeID n) in
  let ping := message.NewPingMessage (routing.Origin ht) (routing.Node h) in
  tables s !! htIdx = Some ht ->
  routing.RoutingTable ht !! index = Some (h :: rest) ->
  length (h :: rest) = routing.MaxContactsInBucket ->
  routing.DoesNodeExistInBucket ht index (routing.RouteNodeID n) = false ->
  sendFails w (sent s) ping = false ->
  outcome w (sent s) = transport.Reply rsp ->
  exists s',
    addNode w (Some htIdx) n s = Returned tt s'
    /\ tables s' = tables s
    /\ trace s' = trace s ++ [transport.EvSendRequest (sent s) ping true].
Proof.
  intros index ping Hht Hb Hlen Hex Hsend Hout.
  unfold addNode, htFromCtx. cbn. unfold mbind, M_bind, gets.
  rewrite Hht. cbn. fold index. rewrite Hex.
  unfold bucketOf. rewrite Hb. cbn.
  rewrite bool_decide_eq_true_2 by exact Hlen.
  unfold SendRequest, mbind, M_bind, gets, modify. cbn. fold ping.
  rewrite Hsend. cbn. rewrite Hout.
  eexists. split; [reflexivity|]. split; reflexivity.
Qed.

(** Claim C2 fails on the code: the head that replied to the ping is kept
    and the new node is dropped, but the head is not moved to the tail.
    Bucket 0 holds peers 1 to 20, peer 21 is added and peer 1 replies to
    the ping: the bucket is what it was, with its 20 entries, peer 1 at
    its head and peer 20 at its tail.  The path of a node already in the
    bucket, in the same function, does move the entry to the tail, by
    [ht.MarkNodeAsSeen]; this path returns without that call. *)
Lemma addNode_full_bucket_head_not_moved :
  let s := sample.withBucket0 (sample.routePeer <$> seq 1 20) in
  let w := sample.answering (sample.pong 1) in
  outcome w (sent s) = transport.Reply (sample.pong 1)
  /\ exists s',
      addNode w sample.ctx0 (sample.routePeer 21) s = Returned tt s'
      /\ sample.bucket0 s' = sample.routePeer <$> seq 1 20
      /\ head (sample.bucket0 s') = Some (sample.routePeer 1)
      /\ last (sample.bucket0 s') = Some (sample.routePeer 20)
      /\ sample.bucket0 s' ≠ (sample.routePeer <$> seq 2 19) ++ [sample.routePeer 1].
Proof.
  intros s w. split; [reflexivity|].
  eexists. split; [vm_compute; reflexivity|].
  repeat split; try (vm_compute; reflexivity).
  vm_compute. discriminate.
Qed.

(** ** Bootstrap without seeds *)

(** Claim C10: with an empty [BootstrapNodes] list, [Bootstrap] returns nil
    at once and the state is the one it was called in: nothing was sent
    ([sent] and [trace] unchanged, so no message, no future and no
    iteration), and every table is what it was. *)
Theorem Bootstrap_without_seeds (w : World) (fuel : nat) (s : DHT) :
  BootstrapNodes (options s) = [] ->
  Bootstrap w fuel s = Returned None s.
Proof.
  intros H. unfold Bootstrap, mbind, M_bind, gets. rewrite H. reflexivity.
Qed.

Lemma Bootstrap_without_seeds_witness :
  Bootstrap sample.silent 3 sample.fresh = Returned None sample.fresh.
Proof. apply Bootstrap_without_seeds. reflexivity. Defined.

(** ** The Ping handler *)

(** [addNode] panics before it writes, and always ends. *)
Lemma addNode_panics_in_place w ctx n why s s' :
  addNode w ctx n s = Panicked why s' -> s' = s.
Proof.
  unfold addNode, htFromCtx, panic.
  destruct ctx as [i|]; cbn; [|intros [= _ <-]; reflexivity].
  unfold mbind, M_bind, gets.
  destruct (tables s !! i) as [ht|] eqn:E; cbn; [|intros [= _ <-]; reflexivity].
  destruct (routing.DoesNodeExistInBucket _ _ _); [discriminate|].
  unfold bucketOf, panic.
  destruct (routing.RoutingTable ht !! _) as [b|]; cbn; [|intros [= _ <-]; reflexivity].
  case_bool_decide; [|discriminate].
  destruct b as [|h rest]; [intros [= _ <-]; reflexivity|].
  unfold SendRequest, mbind, M_bind, gets, modify. cbn.
  destruct (sendFails w _ _); cbn; [discriminate|].
  destruct (outcome w _); discriminate.
Qed.

Lemma addNode_ends w ctx n s : exists s', finalState (addNode w ctx n s) = Some s'.
Proof.
  unfold addNode, htFromCtx. destruct ctx as [i|]; cbn; [|eauto].
  unfold mbind, M_bind, gets. destruct (tables s !! i) as [ht|] eqn:E; cbn; [|eauto].
  destruct (routing.DoesNodeExistInBucket _ _ _); [cbn; eauto|].
  unfold bucketOf. destruct (routing.RoutingTable ht !! _) as [b|]; cbn; [|eauto].
  case_bool_decide; [|cbn; eauto].
  destruct b as [|h rest]; [cbn; eauto|].
  unfold SendRequest, mbind, M_bind, gets, modify. cbn.
  destruct (sendFails w _ _); cbn; [eauto|].
  destruct (outcome w _); cbn; eauto.
Qed.

Lemma keepsTables_ret {A} (a : A) : keepsTables (mret a).
Proof. intros s. exists s. split; reflexivity. Qed.

Lemma keepsTables_panic {A} why : keepsTables (@panic A why).
Proof. intros s. exists s. split; reflexivity. Qed.

Lemma keepsTables_gets {A} (f : DHT -> A) : keepsTables (gets f).
Proof. intros s. exists s. split; reflexivity. Qed.

Lemma keepsTables_modify (f : DHT -> DHT) :
  (forall s, tables (f s) = tables s) -> keepsTables (modify f).
Proof. intros Hf s. exists (f s). split; [reflexivity | apply Hf]. Qed.

Lemma keepsTables_bind {A B} (m : M A) (f : A -> M B) :
  keepsTables m -> (forall a, keepsTables (f a)) -> keepsTables (m ≫= f).
Proof.
  intros Hm Hf s. destruct (Hm s) as (s1 & E1 & T1).
  unfold mbind, M_bind. destruct (m s) as [a s1'|why s1'|]; simpl in E1; try discriminate.
  - injection E1 as ->. destruct (Hf a s1) as (s2 & E2 & T2).
    exists s2. split; [exact E2 | congruence].
  - injection E1 as ->. exists s1. split; [reflexivity | exact T1].
Qed.

Create HintDb keepsTables.
#[local] Hint Resolve keepsTables_ret keepsTables_panic keepsTables_gets : keepsTables.
#[local] Hint Extern 2 (keepsTables (modify _)) =>
  apply keepsTables_modify; intros; reflexivity : keepsTables.

Ltac keepsTables_step :=
  match goal with
  | |- keepsTables (_ ≫= _) =>
      apply keepsTables_bind;
      [ | intros ?; repeat match goal with x : (_ * _)%type |- _ => destruct x end;
          cbv beta iota ]
  | |- keepsTables (match ?x with _ => _ end) => destruct x
  | |- keepsTables _ => solve [auto with keepsTables]
  end.

Lemma keepsTables_htFromCtx ctx : keepsTables (htFromCtx ctx).
Proof. unfold htFromCtx. repeat keepsTables_step. Qed.

Lemma keepsTables_getExpirationTime ctx key : keepsTables (getExpirationTime ctx key).
Proof.
  unfold getExpirationTime, Now.
  pose proof (keepsTables_htFromCtx ctx). repeat keepsTables_step.
Qed.

Lemma keepsTables_storeStore key data repl exp pub :
  keepsTables (storeStore key data repl exp pub).
Proof. unfold storeStore. repeat keepsTables_step. Qed.

Lemma keepsTables_storeRetrieve key : keepsTables (storeRetrieve key).
Proof. unfold storeRetrieve. repeat keepsTables_step. Qed.

Lemma keepsTables_SendResponse rid msg : keepsTables (SendResponse rid msg).
Proof. unfold SendResponse. repeat keepsTables_step. Qed.

Lemma keepsTables_rpcInvoke w sender method args :
  keepsTables (rpcInvoke w sender method args).
Proof. unfold rpcInvoke. repeat keepsTables_step. Qed.

#[local] Hint Resolve keepsTables_htFromCtx keepsTables_getExpirationTime
  keepsTables_storeStore keepsTables_storeRetrieve keepsTables_SendResponse
  keepsTables_rpcInvoke : keepsTables.

(** Whatever follows [addNode] and keeps the tables ends with the tables
    [addNode] made. *)
Lemma after_addNode {A} w ctx n (rest : M A) s s1 :
  keepsTables rest ->
  finalState (addNode w ctx n s) = Some s1 ->
  exists s2, finalState ((addNode w ctx n ≫= fun _ => rest) s) = Some s2
             /\ tables s2 = tables s1.
Proof.
  intros Hrest H. unfold mbind, M_bind.
  destruct (addNode w ctx n s) as [[] s1'|why s1'|]; simpl in H; try discriminate;
    injection H as ->.
  - apply Hrest.
  - exists s1. split; reflexivity.
Qed.

(** A handler that fails on [htFromCtx] before [addNode] ends where
    [addNode] itself would have. *)
Lemma addNode_bad_context w ctx n why s s' :
  htFromCtx ctx s = Panicked why s' -> addNode w ctx n s = Panicked why s'.
Proof. intros H. unfold addNode, mbind, M_bind. rewrite H. reflexivity. Qed.

Lemma htFromCtx_Returned ctx s a s' : htFromCtx ctx s = Returned a s' -> s' = s.
Proof.
  unfold htFromCtx, panic. destruct ctx as [i|]; [|discriminate].
  unfold mbind, M_bind, gets. destruct (tables s !! i); [|discriminate].
  intros [= _ <-]. reflexivity.
Qed.

Lemma htFromCtx_not_OutOfFuel ctx s : htFromCtx ctx s ≠ OutOfFuel.
Proof.
  unfold htFromCtx, panic. destruct ctx as [i|]; [|discriminate].
  unfold mbind, M_bind, gets. destruct (tables s !! i); discriminate.
Qed.

(** Claim C9: the Ping handler replies with an empty response that bears
    the request-ID of the inbound message, and that is all it does: the
    state it returns differs from the one it got by that one
    [SendResponse] (no sender added to a table, no call on the store).
    This holds for the handler and for the turn of [handleMessages] that
    picks it.  Every other handler, on a request of its own payload shape,
    ends with the tables that [addNode] of the sender ends with: Ping is
    the only one without the add-sender step. *)
Theorem processPing_only_replies (w : World) (ctx : Context) (msg : message.Message)
        (messageBuilder : Builder) (s : DHT) :
  processPing ctx msg messageBuilder s
    = Returned tt (record (transport.EvSendResponse (message.RequestID msg)
                                                    (messageBuilder message.NoData)) s)
  /\ (forall ht, message.Type_ msg = message.TypePing ->
                 message.IsForMe msg (origin s) = true ->
                 (if bool_decide (node.ID (message.Receiver msg) = [])
                  then SetDefaultNode s else SetNodeByID (node.ID (message.Receiver msg)) s)
                   = Returned (ctx, None) s ->
                 htFromCtx ctx s = Returned (default 0%nat ctx, ht) s ->
        handleMessage w msg s
          = Returned tt
              (record (transport.EvSendResponse
                         (message.RequestID msg)
                         (message.BuildResponse (routing.Origin ht) (message.Sender msg)
                                                message.TypePing message.NoData)) s))
  /\ (forall t s1,
        t ≠ message.TypePing ->
        requestOf t (message.Data msg) ->
        afterAddNode w ctx msg s = Some s1 ->
        exists s2, finalState (handlerOf w t ctx msg messageBuilder s) = Some s2
                   /\ tables s2 = tables s1).
Proof.
  split; [reflexivity|]. split.
  - intros ht Ht Hme Hctx Hht.
    unfold handleMessage, mbind, M_bind, gets. rewrite Hme. simpl.
    destruct (bool_decide (node.ID (message.Receiver msg) = [])); rewrite Hctx, Hht, Ht;
      reflexivity.
  - intros t s1 Ht Hreq Hadd. unfold afterAddNode in Hadd.
    destruct t; try contradiction; simpl in Hreq; simpl;
      destruct (message.Data msg) eqn:Ed; try contradiction.
    + (* Store *)
      unfold processStore. rewrite Ed.
      apply after_addNode; [|exact Hadd]. unfold Now. repeat keepsTables_step.
    + (* FindNode *)
      unfold processFindNode. rewrite Ed. unfold mbind at 1. unfold M_bind at 1.
      destruct (htFromCtx ctx s) as [[i ht] s'|why s'|] eqn:E.
      * apply htFromCtx_Returned in E as ->.
        apply after_addNode; [|exact Hadd]. repeat keepsTables_step.
      * rewrite (addNode_bad_context w _ _ _ _ _ E) in Hadd. injection Hadd as ->.
        exists s1. split; reflexivity.
      * exfalso. eapply htFromCtx_not_OutOfFuel, E.
    + (* FindValue *)
      unfold processFindValue. rewrite Ed. unfold mbind at 1. unfold M_bind at 1.
      destruct (htFromCtx ctx s) as [[i ht] s'|why s'|] eqn:E.
      * apply htFromCtx_Returned in E as ->.
        apply after_addNode; [|exact Hadd]. repeat keepsTables_step.
      * rewrite (addNode_bad_context w _ _ _ _ _ E) in Hadd. injection Hadd as ->.
        exists s1. split; reflexivity.
      * exfalso. eapply htFromCtx_not_OutOfFuel, E.
    + (* RPC *)
      unfold processRPC. rewrite Ed.
      apply after_addNode; [|exact Hadd]. repeat keepsTables_step.
Qed.

(** ** Get and Store *)

(** The three ways through [Get]. *)
Lemma Get_invalid_key w fuel ctx key s :
  length (Decode w key) ≠ routing.MaxContactsInBucket ->
  Get w fuel ctx key s = Returned (None, false, Some "invalid key"%string) s.
Proof. intros H. unfold Get. rewrite bool_decide_eq_true_2 by exact H. reflexivity. Qed.

Lemma Get_from_store w fuel ctx key s v :
  length (Decode w key) = routing.MaxContactsInBucket ->
  store.Retrieve (Decode w key) (store s) = Some v ->
  Get w fuel ctx key s
    = Returned (Some v, true, None) (record (transport.EvRetrieve (Decode w key)) s).
Proof.
  intros H Hv. unfold Get.
  rewrite bool_decide_eq_false_2 by (intros H'; apply H', H).
  unfold storeRetrieve, mbind, M_bind, modify, gets.
  change (store (record (transport.EvRetrieve (Decode w key)) s)) with (store s).
  rewrite Hv. reflexivity.
Qed.

Lemma Get_from_network w fuel ctx key s :
  length (Decode w key) = routing.MaxContactsInBucket ->
  store.Retrieve (Decode w key) (store s) = None ->
  Get w fuel ctx key s
    = getFromNetwork (iterate w fuel ctx routing.IterateFindValue (Decode w key) []
                              (record (transport.EvRetrieve (Decode w key)) s)).
Proof.
  intros H Hv. unfold Get.
  rewrite bool_decide_eq_false_2 by (intros H'; apply H', H).
  unfold storeRetrieve, mbind, M_bind, modify, gets.
  change (store (record (transport.EvRetrieve (Decode w key)) s)) with (store s).
  rewrite Hv. unfold getFromNetwork.
  destruct (iterate w fuel ctx routing.IterateFindValue (Decode w key) [] _)
    as [[[value closest] [e|]] s'|why s'|]; reflexivity.
Qed.

(** Claim C7: [Get] rejects a key whose base58 decoding is not
    [MaxContactsInBucket] = 20 bytes long with the error "invalid key", a
    nil value and [exists = false], in the state it was called in: the
    store was not asked and no iteration was started.  On a decoding of
    that length it asks the store; a value found there is returned with
    [exists = true], and otherwise the outcome is that of the iterative
    FindValue for the decoded key. *)
Theorem Get_checks_key_length (w : World) (fuel : nat) (ctx : Context) (key : string)
        (s : DHT) :
  let keyBytes := Decode w key in
  let asked := record (transport.EvRetrieve keyBytes) s in
  (length keyBytes ≠ routing.MaxContactsInBucket ->
   Get w fuel ctx key s = Returned (None, false, Some "invalid key"%string) s)
  /\ (length keyBytes = routing.MaxContactsInBucket ->
      (forall v, store.Retrieve keyBytes (store s) = Some v ->
                 Get w fuel ctx key s = Returned (Some v, true, None) asked)
      /\ (store.Retrieve keyBytes (store s) = None ->
          Get w fuel ctx key s
            = getFromNetwork (iterate w fuel ctx routing.IterateFindValue keyBytes [] asked))).
Proof.
  intros keyBytes asked. split; [apply Get_invalid_key|].
  intros H. split.
  - intros v Hv. apply Get_from_store; assumption.
  - intros Hv. apply Get_from_network; assumption.
Qed.

Lemma Get_checks_key_length_witness :
  Get sample.silent 3 sample.ctx0 "Cn8eVZg" sample.fresh
    = Returned (None, false, Some "invalid key"%string) sample.fresh.
Proof.
  apply (Get_checks_key_length sample.silent 3 sample.ctx0 "Cn8eVZg" sample.fresh).
  vm_compute. discriminate.
Defined.

(** An iteration on a routing table without nodes returns at once, with
    nothing found and no error, whatever the fuel. *)
Lemma iterate_without_contacts w fuel htIdx ht t target data s :
  tables s !! htIdx = Some ht ->
  routing.RoutingTable ht = replicate routing.KeyBitSize [] ->
  iterate w fuel (Some htIdx) t target data s
    = Returned (None, [], None) (record (transport.EvIterate t target) s).
Proof.
  intros Hht Hempty. set (s' := record (transport.EvIterate t target) s).
  assert (Hctx : htFromCtx (Some htIdx) s' = Returned (htIdx, ht) s').
  { unfold htFromCtx, mbind, M_bind, gets. change (tables s') with (tables s).
    rewrite Hht. reflexivity. }
  unfold iterate.
  rewrite (bind_run _ _ s s' tt) by reflexivity.
  rewrite (bind_run _ _ _ _ _ Hctx). cbv beta iota zeta.
  unfold routing.GetClosestContacts. rewrite Hempty. reflexivity.
Qed.

(** With a valid context [getExpirationTime] returns, in the state it was
    called in. *)
Lemma getExpirationTime_returns htIdx ht key s :
  tables s !! htIdx = Some ht ->
  exists d, getExpirationTime (Some htIdx) key s = Returned d s.
Proof.
  intros Hht.
  assert (Hctx : htFromCtx (Some htIdx) s = Returned (htIdx, ht) s).
  { unfold htFromCtx, mbind, M_bind, gets. rewrite Hht. reflexivity. }
  unfold getExpirationTime. rewrite (bind_run _ _ _ _ _ Hctx). cbv beta iota zeta.
  unfold Now, mbind, M_bind, gets.
  destruct (bool_decide _); eexists; reflexivity.
Qed.

(** On a node that knows nobody [Store] returns the key, whatever the
    fuel. *)
Lemma Store_without_contacts w fuel htIdx ht data s :
  tables s !! htIdx = Some ht ->
  routing.RoutingTable ht = replicate routing.KeyBitSize [] ->
  exists s1, Store w fuel (Some htIdx) data s = Returned (Encode w (NewKey w data), None) s1.
Proof.
  intros Hht Hempty.
  destruct (getExpirationTime_returns htIdx ht (NewKey w data) s Hht) as [d Hd].
  unfold Store. rewrite (bind_run _ _ _ _ _ Hd).
  unfold Now, storeStore, mbind, M_bind, gets, modify, mret, M_ret.
  cbn beta iota zeta.
  match goal with
  | |- context [iterate w fuel (Some htIdx) ?t ?k ?dt ?s0] =>
      rewrite (iterate_without_contacts w fuel htIdx ht t k dt s0 Hht Hempty)
  end.
  eexists. reflexivity.
Qed.

(** [Store] leaves the entry of the key in the store: the iteration that
    follows the local write does not touch the store. *)
Lemma Store_Returned w fuel ctx data id s s1 :
  Store w fuel ctx data s = Returned (id, None) s1 ->
  id = Encode w (NewKey w data)
  /\ store.value <$> store s1 !! NewKey w data = Some data.
Proof.
  unfold Store. intros H.
  apply bind_Returned in H as (expiration & sa & Ha & H).
  unfold Now, storeStore, mbind, M_bind, gets, modify in H. cbn in H.
  match type of H with
  | match iterate w fuel ctx ?t ?k ?d ?s0 with _ => _ end = _ =>
      pose proof (framed_iterate w fuel ctx t k d s0) as Hfr;
      destruct (iterate w fuel ctx t k d s0) as [[[v c] [e|]] s2|why s2|] eqn:Eit;
      try discriminate; injection H as <- <-
  end.
  specialize (Hfr s2 eq_refl). destruct Hfr as [Hst _ _ _ _].
  simpl in Hst. split; [reflexivity|].
  rewrite Hst. unfold store.Store. rewrite lookup_insert_eq. reflexivity.
Qed.

(** The expiration sweep keeps an entry whose deadline has not come. *)
Lemma ExpireKeys_keeps now st key e :
  st !! key = Some e -> now < store.expiration e ->
  store.ExpireKeys now st !! key = Some e.
Proof.
  intros H Hlt. unfold store.ExpireKeys.
  apply map_lookup_filter_Some. split; [exact H | exact Hlt].
Qed.

(** Claim C6: [Get] after [Store].  When [Store data] has returned the key
    [id] (no error), [Get id] on the same node returns [(data, true)] and
    no error, in every later state [s2] in which the entry of the key is
    the one [Store] wrote: nothing overwrote it and no expiration sweep
    deleted it (before the entry's deadline a sweep keeps it, lemma
    [ExpireKeys_keeps]).  The content hash is [MaxContactsInBucket] bytes
    long and base58 decoding undoes the encoding of the key. *)
Theorem Store_then_Get (w : World) (fuel fuel' : nat) (ctx ctx' : Context) (data : bytes)
        (id : string) (s s1 s2 : DHT) :
  length (NewKey w data) = routing.MaxContactsInBucket ->
  Decode w (Encode w (NewKey w data)) = NewKey w data ->
  Store w fuel ctx data s = Returned (id, None) s1 ->
  store s2 !! NewKey w data = store s1 !! NewKey w data ->
  Get w fuel' ctx' id s2
    = Returned (Some data, true, None) (record (transport.EvRetrieve (NewKey w data)) s2).
Proof.
  intros Hlen Hcodec HStore Hkept.
  apply Store_Returned in HStore as [-> Hv].
  rewrite <- Hcodec at 2.
  apply Get_from_store; rewrite Hcodec; [exact Hlen|].
  unfold store.Retrieve. rewrite Hkept. exact Hv.
Qed.

Lemma Store_then_Get_witness :
  let s := sample.withBucket0 [sample.routePeer 1] in
  let data := [104; 101; 108; 108; 111] in
  exists id s1,
    Store sample.silent 5 sample.ctx0 data s = Returned (id, None) s1
    /\ Get sample.silent 5 sample.ctx0 id s1
       = Returned (Some data, true, None)
                  (record (transport.EvRetrieve (sample.NewKey data)) s1).
Proof.
  intros s data. eexists. eexists. split; [vm_compute; reflexivity|].
  eapply (Store_then_Get sample.silent 5 5 sample.ctx0 sample.ctx0 data _ s);
    [vm_compute; reflexivity | vm_compute; reflexivity | vm_compute; reflexivity
    | reflexivity].
Defined.

(** ** RemoteProcedureCall *)

Lemma frame_wellFormed s s' : frame s s' -> wellFormed s -> wellFormed s'.
Proof. intros [_ _ _ _ H] Hs. unfold wellFormed. rewrite H. exact Hs. Qed.

Lemma frame_lookup s s' i ht :
  frame s s' -> tables s !! i = Some ht ->
  exists ht', tables s' !! i = Some ht' /\ shape ht' = shape ht.
Proof.
  intros [_ _ _ _ H] Hi.
  assert (Hl : map shape (tables s') !! i = Some (shape ht)).
  { rewrite H. change (map shape (tables s)) with (shape <$> tables s).
    rewrite list_lookup_fmap, Hi. reflexivity. }
  change (map shape (tables s')) with (shape <$> tables s') in Hl.
  rewrite list_lookup_fmap in Hl.
  destruct (tables s' !! i) as [ht'|]; [|discriminate].
  simpl in Hl. exists ht'. split; [reflexivity | congruence].
Qed.

Lemma wellFormed_lookup s i ht :
  wellFormed s -> tables s !! i = Some ht ->
  length (node.ID (routing.Origin ht)) = routing.MaxContactsInBucket
  /\ length (routing.RoutingTable ht) = routing.KeyBitSize.
Proof.
  intros Hs Hi. unfold wellFormed in Hs.
  change (map shape (tables s)) with (shape <$> tables s) in Hs.
  rewrite Forall_fmap in Hs.
  exact (Forall_lookup_1 _ _ _ _ Hs Hi).
Qed.

(** The differing bit lies within the bits of the first ID. *)
Lemma differingBitFrom_bound id1 : forall j id2 k,
  routing.differingBitFrom j id1 id2 = Some k -> (k < 8 * (j + length id1))%nat.
Proof.
  induction id1 as [|x id1 IH]; intros j id2 k; simpl; [discriminate|].
  destruct id2 as [|y id2]; [discriminate|].
  destruct (Z.lxor x y =? 0).
  - intros H. apply IH in H. lia.
  - intros [= <-]. unfold routing.firstBitOfByte. lia.
Qed.

Lemma GetBucketIndexFromDifferingBit_bound id1 id2 :
  length id1 = routing.MaxContactsInBucket ->
  (routing.GetBucketIndexFromDifferingBit id1 id2 < routing.KeyBitSize)%nat.
Proof.
  intros Hlen. unfold routing.GetBucketIndexFromDifferingBit.
  destruct (routing.differingBitFrom 0 id1 id2) as [k|] eqn:E; simpl.
  - apply differingBitFrom_bound in E. rewrite Hlen in E.
    unfold routing.MaxContactsInBucket, routing.KeyBitSize in *. lia.
  - unfold routing.KeyBitSize. lia.
Qed.

(** On a well-formed state and with a valid context [addNode] returns. *)
Lemma addNode_returns w htIdx ht n s :
  wellFormed s -> tables s !! htIdx = Some ht ->
  exists s', addNode w (Some htIdx) n s = Returned tt s'.
Proof.
  intros Hs Hht. destruct (wellFormed_lookup _ _ _ Hs Hht) as [Hid Hlen].
  unfold addNode, htFromCtx. cbn. unfold mbind, M_bind, gets. rewrite Hht. cbn.
  set (index := routing.GetBucketIndexFromDifferingBit _ _).
  assert (Hindex : (index < length (routing.RoutingTable ht))%nat).
  { rewrite Hlen. apply GetBucketIndexFromDifferingBit_bound, Hid. }
  destruct (routing.DoesNodeExistInBucket ht index _); [eexists; reflexivity|].
  unfold bucketOf. destruct (lookup_lt_is_Some_2 _ _ Hindex) as [bucket ->]. cbn.
  case_bool_decide as Hfull; [|eexists; reflexivity].
  destruct bucket as [|h rest]; [discriminate Hfull|].
  unfold SendRequest, mbind, M_bind, gets, modify. cbn.
  destruct (sendFails w (sent s) _); cbn; [eexists; reflexivity|].
  destruct (outcome w (sent s)); eexists; reflexivity.
Qed.

(** Claim C5: what [RemoteProcedureCall] returns, once [FindNode] has
    answered without error in state [s1].  A target that was not found
    gives the error "targetNode not found".  A target that was found and is
    not the local node is sent the request; if the send succeeds, then a
    response with [success = true] gives [(result, nil)], a response with
    [success = false] gives [(nil, error)] with the error string the
    response carries, [MessageTimeout] without a response cancels the
    future and gives the error "timeout", a different error from
    "targetNode not found", and a closed channel gives its own error. *)
Theorem RemoteProcedureCall_translates (w : World) (fuel htIdx : nat)
        (ht : routing.HashTable) (target method : string) (args : list bytes)
        (tn : option node.Node) (ex : bool) (s s1 : DHT) :
  let ctx : Context := Some htIdx in
  let call := RemoteProcedureCall w fuel ctx target method args s in
  wellFormed s ->
  tables s !! htIdx = Some ht ->
  FindNode w fuel ctx target s = Returned (tn, ex, None) s1 ->
  (ex = false -> call = Returned ([], Some "targetNode not found"%string) s1)
  /\ (forall targetNode,
        ex = true -> tn = Some targetNode ->
        target ≠ Encode w (node.ID (routing.Origin ht)) ->
        let request := message.BuildRequest (routing.Origin ht) targetNode message.TypeRPC
                                            (message.RequestDataRPC method args) in
        let future := sent s1 in
        let s2 := record (transport.EvSendRequest future request true)
                         (setSent (S future) s1) in
        sendFails w future request = false ->
        match outcome w future with
        | transport.Reply rsp =>
            forall success result error,
              message.Data rsp = message.ResponseDataRPC success result error ->
              exists s3,
                call = Returned (if success then (result, None) else ([], Some error)) s3
        | transport.ChannelClosed =>
            call = Returned ([], Some "chanel closed unexpectedly"%string) s2
        | transport.TimedOut =>
            call = Returned ([], Some "timeout"%string) (record (transport.EvCancel future) s2)
            /\ "timeout"%string ≠ "targetNode not found"%string
        end).
Proof.
  intros ctx call Hs Hht HFind.
  assert (Hfr : frame s s1) by (apply (framed_FindNode w fuel ctx target); rewrite HFind; reflexivity).
  destruct (frame_lookup _ _ _ _ Hfr Hht) as (ht1 & Hht1 & Hshape).
  assert (Horigin : routing.Origin ht1 = routing.Origin ht) by (unfold shape in Hshape; congruence).
  pose proof (frame_wellFormed _ _ Hfr Hs) as Hs1.
  assert (Hctx : htFromCtx ctx s1 = Returned (htIdx, ht1) s1).
  { unfold htFromCtx, ctx, mbind, M_bind, gets. rewrite Hht1. reflexivity. }
  unfold call, RemoteProcedureCall.
  rewrite (bind_run _ _ _ _ _ HFind). cbv beta iota.
  rewrite (bind_run _ _ _ _ _ Hctx). cbv beta iota.
  split.
  - intros ->. reflexivity.
  - intros targetNode -> -> Hself Hsend.
    set (request := message.BuildRequest (routing.Origin ht) targetNode message.TypeRPC
                                         (message.RequestDataRPC method args)) in *.
    set (future := sent s1) in *.
    set (s2 := record (transport.EvSendRequest future request true)
                      (setSent (S future) s1)).
    assert (Hself1 : GetOriginID w ctx s1
                     = Returned (Encode w (node.ID (routing.Origin ht))) s1).
    { unfold GetOriginID. rewrite (bind_run _ _ _ _ _ Hctx). cbv beta iota.
      rewrite Horigin. reflexivity. }
    assert (Hsent : SendRequest w request s1 = Returned (Some future, None) s2).
    { unfold SendRequest, mbind, M_bind, gets, modify. fold future.
      rewrite Hsend. reflexivity. }
    cbn [negb]. cbv iota.
    rewrite (bind_run _ _ _ _ _ Hself1). cbv beta iota.
    rewrite bool_decide_eq_false_2 by exact Hself.
    rewrite Horigin. fold request.
    rewrite (bind_run _ _ _ _ _ Hsent). cbv beta iota.
    destruct (outcome w future) as [rsp| |] eqn:Eo.
    + intros success result error Hdata.
      assert (Hs2 : wellFormed s2) by exact Hs1.
      destruct (addNode_returns w htIdx ht1 (routing.NewRouteNode (message.Sender rsp))
                                s2 Hs2 Hht1) as [s3 E3].
      fold ctx in E3. rewrite (bind_run _ _ _ _ _ E3), Hdata.
      exists s3. destruct success; reflexivity.
    + reflexivity.
    + split; [reflexivity | discriminate].
Qed.

Lemma RemoteProcedureCall_translates_witness :
  let s := sample.withBucket0 [sample.routePeer 1] in
  let w := sample.answering (sample.rpcReply 1 true [120; 32; 121] "") in
  exists s3,
    RemoteProcedureCall w 3 sample.ctx0 (base58.Encode (sample.peerID 1)) "s"
                        [[120]; [121]] s
      = Returned ([120; 32; 121], None) s3.
Proof.
  intros s w.
  assert (Hs : wellFormed s).
  { unfold wellFormed. apply (bool_decide_unpack _). vm_compute. reflexivity. }
  assert (Hht : tables s !! 0%nat = Some (sample.table0 [sample.routePeer 1]))
    by reflexivity.
  assert (HFind : FindNode w 3 sample.ctx0 (base58.Encode (sample.peerID 1)) s
                  = Returned (Some (sample.peer 1), true, None) s)
    by (vm_compute; reflexivity).
  refine (proj2 (RemoteProcedureCall_translates
                   w 3 0 (sample.table0 [sample.routePeer 1])
                   (base58.Encode (sample.peerID 1)) "s" [[120]; [121]]
                   (Some (sample.peer 1)) true s s Hs Hht HFind)
                (sample.peer 1) eq_refl eq_refl _ _ true [120; 32; 121] ""%string eq_refl).
  - vm_compute. discriminate.
  - vm_compute. reflexivity.
Defined.

(** ** Where the code departs from the spec *)

(** [routing.GetRandomIDFromBucket] keeps its contract: the ID it makes
    for bucket [i] falls into bucket [i]. *)
Lemma elem_of_byteValues x : 0 <= x < 256 -> x ∈ byteValues.
Proof.
  intros H. unfold byteValues. apply list_elem_of_fmap.
  exists (Z.to_nat x). split; [lia|]. apply elem_of_seq. lia.
Qed.

Lemma forallb_elem_of {A} (f : A -> bool) (l : list A) (x : A) :
  forallb f l = true -> x ∈ l -> f x = true.
Proof.
  intros H Hx. apply (proj1 (forallb_forall f l) H x).
  apply list_elem_of_In, Hx.
Qed.

Lemma differingByte_checked : forallb differsAtForEveryByte (seq 0 8) = true.
Proof. vm_compute. reflexivity. Qed.

Lemma differingByte_differs bit o r :
  (bit < 8)%nat -> 0 <= o < 256 -> 0 <= r < 256 ->
  Z.lxor o (routing.differingByte bit o r) ≠ 0
  /\ routing.firstBitOfByte (Z.lxor o (routing.differingByte bit o r)) = bit.
Proof.
  intros Hbit Ho Hr.
  assert (Hin : bit ∈ seq 0 8) by (apply elem_of_seq; lia).
  pose proof (forallb_elem_of differsAtForEveryByte (seq 0 8) bit
                              differingByte_checked Hin) as H1.
  pose proof (forallb_elem_of (differsAtForEveryRandom bit) byteValues o
                              H1 (elem_of_byteValues o Ho)) as H2.
  pose proof (forallb_elem_of (differsAt bit o) byteValues r
                              H2 (elem_of_byteValues r Hr)) as H3.
  unfold differsAt in H3. cbv zeta in H3. apply andb_true_iff in H3 as [Hne Heq].
  apply negb_true_iff, Z.eqb_neq in Hne. apply bool_decide_eq_true in Heq.
  split; assumption.
Qed.

Lemma differingBitFrom_common_prefix pre : forall j id1 id2,
  routing.differingBitFrom j (pre ++ id1) (pre ++ id2)
  = routing.differingBitFrom (j + length pre) id1 id2.
Proof.
  induction pre as [|x pre IH]; intros j id1 id2; simpl.
  - f_equal. lia.
  - rewrite Z.lxor_nilpotent. simpl. rewrite IH. f_equal. lia.
Qed.

Lemma GetRandomIDFromBucket_falls_into_bucket ht i random :
  isID (node.ID (routing.Origin ht)) -> isID random -> (i < routing.KeyBitSize)%nat ->
  routing.GetBucketIndexFromDifferingBit
    (node.ID (routing.Origin ht)) (routing.GetRandomIDFromBucket ht i random) = i.
Proof.
  intros [Hlen Hbytes] [Hlen' Hbytes'] Hi.
  unfold routing.GetBucketIndexFromDifferingBit, routing.GetRandomIDFromBucket.
  unfold routing.MaxContactsInBucket, routing.KeyBitSize in *.
  pose proof (Nat.div_mod_eq i 8) as Hdm.
  assert (Hbit : (i mod 8 < 8)%nat) by (apply Nat.mod_upper_bound; lia).
  remember (i / 8)%nat as k eqn:Ek. remember (i mod 8)%nat as bit eqn:Ebit.
  remember (node.ID (routing.Origin ht)) as id eqn:Eid.
  assert (Hk : (k < 20)%nat) by lia.
  destruct (lookup_lt_is_Some_2 id k) as [o Ho]; [lia|].
  destruct (lookup_lt_is_Some_2 random k) as [r Hr]; [lia|].
  rewrite Ho, Hr.
  change (default 0 (Some o)) with o. change (default 0 (Some r)) with r.
  rewrite <- (take_drop_middle id k o Ho) at 1.
  rewrite differingBitFrom_common_prefix. cbn [app routing.differingBitFrom].
  assert (Hob : 0 <= o < 256) by exact (Forall_lookup_1 _ _ _ _ Hbytes Ho).
  assert (Hrb : 0 <= r < 256) by exact (Forall_lookup_1 _ _ _ _ Hbytes' Hr).
  destruct (differingByte_differs bit o r Hbit Hob Hrb) as [Hne Hfirst].
  apply Z.eqb_neq in Hne. rewrite Hne, Hfirst.
  change (default 0%nat (Some ?x)) with x.
  rewrite length_take, Nat.min_l by lia. lia.
Qed.

(** The ID that the refresh pass draws, [GetRandomIDFromBucket] of
    [MaxContactsInBucket], falls into bucket 20 whatever the random bytes
    and whatever the bucket the pass is looking at. *)
Lemma refresh_id_falls_into_bucket_20 ht random :
  isID (node.ID (routing.Origin ht)) -> isID random ->
  routing.GetBucketIndexFromDifferingBit
    (node.ID (routing.Origin ht))
    (routing.GetRandomIDFromBucket ht routing.MaxContactsInBucket random) = 20%nat.
Proof.
  intros Hid Hr. apply GetRandomIDFromBucket_falls_into_bucket; try assumption.
  unfold routing.MaxContactsInBucket, routing.KeyBitSize. lia.
Qed.

(** Claim C1 fails on the code: the refresh pass draws the random ID from
    bucket [MaxContactsInBucket] = 20 whatever the idle bucket is.  Here
    bucket 0 is the only idle one: the pass starts one bootstrap
    iteration, for an ID of bucket 20; it resets the refresh clock of
    bucket 20 and leaves bucket 0 as idle as it was. *)
Theorem refresh_draws_from_bucket_20 :
  let s := sample.staleBucket0 in
  RefreshTime (options s) < clock s - routing.GetRefreshTimeForBucket (firstTable s) 0
  /\ exists id s',
      handleStoreTimersTick sample.silent 5 s = Returned tt s'
      /\ iterations (trace s') = [(routing.IterateBootstrap, id)]
      /\ routing.GetBucketIndexFromDifferingBit sample.selfID id = 20%nat
      /\ routing.GetRefreshTimeForBucket (firstTable s') 0
         = routing.GetRefreshTimeForBucket (firstTable s) 0
      /\ routing.GetRefreshTimeForBucket (firstTable s') 20 = clock s.
Proof.
  intros s. split; [vm_compute; reflexivity|].
  eexists. eexists. split; [vm_compute; reflexivity|].
  repeat split; vm_compute; reflexivity.
Qed.

(** The integer part of e^q does not depend on the end of the enclosure
    of e it is computed from. *)
Lemma math_Exp_int64_enclosed :
  forallb (fun q => e_num_lo ^ q / e_den ^ q =? e_num_hi ^ q / e_den ^ q)
          (Z.of_nat <$> seq 0 21) = true.
Proof. vm_compute. reflexivity. Qed.

Lemma e_enclosure_contains_series :
  e_num_lo * factorialZ 30 <= e_den * seriesE 30
  /\ e_den * (seriesE 30 + 1) <= e_num_hi * factorialZ 30.
Proof. split; vm_compute; discriminate. Qed.

(** Claim C3 fails on the code.  With [ExpirationTime] = 2 s and an empty
    routing table the score is 1 and the spec's deadline is 2 s times e^20,
    between 970330390 and 970330392 seconds after now; the code multiplies
    the nanoseconds of [ExpirationTime] by the integer part of e^20 and
    then by [time.Second] again, which overflows: its deadline is some 91
    years before now.  With [ExpirationTime] = 1 ms and a score of 3
    nothing overflows, and the code's duration is 403 (the integer part of
    e^6, 6 being the integer quotient 20/3) times 10^9 times
    [ExpirationTime], where the spec has e^(20/3), about 786, times
    [ExpirationTime]. *)
Theorem getExpirationTime_overflows :
  let key := sample.NewKey [104; 101; 108; 108; 111] in
  let s := sample.expiringAfter (2 * Second) sample.fresh in
  let s3 := sample.expiringAfter 1000000
              (sample.withBucket0 (sample.routePeer <$> seq 1 3)) in
  (getExpirationTime sample.ctx0 key s = Returned (clock s - 2889952900592173056) s
   /\ math_Exp_int64 20 = 485165195
   /\ ~ (2 * Second * 485165195 <= - 2889952900592173056 <= 2 * Second * 485165196))
  /\ (getExpirationTime sample.ctx0 key s3
        = Returned (clock s3 + 403 * Second * 1000000) s3
      /\ math_Exp_int64 (20 / 3) = 403
      /\ ~ (1000000 * 403 <= 403 * Second * 1000000 <= 1000000 * 1097)).
Proof.
  intros key s s3. split; (split; [vm_compute; reflexivity|]);
    (split; [vm_compute; reflexivity | unfold Second; lia]).
Qed.

(** A failed send in the fan-out of an iterative store panics, whatever
    the world, the state and the receivers that follow. *)
Lemma storeFanOut_failed_send_panics w self data i receiver rest s :
  let msg := message.BuildRequest self receiver message.TypeStore
                                  (message.RequestDataStore data) in
  (i < routing.MaxContactsInBucket)%nat ->
  sendFails w (sent s) msg = true ->
  storeFanOut w self data i (receiver :: rest) s
    = Panicked "invalid memory address or nil pointer dereference"
               (record (transport.EvSendRequest (sent s) msg false) (setSent (S (sent s)) s)).
Proof.
  intros msg Hi Hfail. cbn [storeFanOut].
  rewrite bool_decide_eq_false_2 by lia.
  unfold SendRequest, mbind, M_bind, gets, modify. fold msg. rewrite Hfail. reflexivity.
Qed.

(** Claim C4 fails on the code: in the final fan-out of an iterative
    store, the result of [SendRequest] is not looked at and [Cancel] is
    called on the future, which is nil after a failed send.  Here the node
    knows peers 1 and 2 and the Store requests cannot be sent: the first
    Store request fails, the process panics, and no Store request goes to
    the other peer. *)
Theorem store_fan_out_send_failure_panics :
  let s := sample.withBucket0 [sample.routePeer 1; sample.routePeer 2] in
  let data := [104; 101; 108; 108; 111] in
  exists s' receiver,
    iterate sample.storeless 5 sample.ctx0 routing.IterateStore (sample.NewKey data) data s
      = Panicked "invalid memory address or nil pointer dereference" s'
    /\ storeRequests (trace s') = [(receiver, false)].
Proof.
  intros s data. eexists. eexists. split; vm_compute; reflexivity.
Qed.

Lemma processPing_only_replies_witness :
  let ping := message.mkMessage (sample.peer 1) sample.selfNode message.TypePing
                                [7; 7; 7] message.NoData None false in
  let find := message.mkMessage (sample.peer 1) sample.selfNode message.TypeFindNode
                                [8; 8; 8] (message.RequestDataFindNode sample.selfID)
                                None false in
  handleMessage sample.silent ping sample.fresh
    = Returned tt
        (record (transport.EvSendResponse
                   [7; 7; 7]
                   (message.BuildResponse sample.selfNode (sample.peer 1)
                                          message.TypePing message.NoData))
                sample.fresh)
  /\ exists s1 s2,
      afterAddNode sample.silent sample.ctx0 find sample.fresh = Some s1
      /\ finalState (processFindNode sample.silent sample.ctx0 find
                                     (message.BuildResponse sample.selfNode (sample.peer 1)
                                                            message.TypeFindNode)
                                     sample.fresh) = Some s2
      /\ tables s2 = tables s1
      /\ sample.bucket0 s2 = [sample.routePeer 1].
Proof.
  intros ping find. split.
  - refine (proj1 (proj2 (processPing_only_replies
                            sample.silent sample.ctx0 ping
                            (message.BuildResponse sample.selfNode (sample.peer 1)
                                                   message.TypePing)
                            sample.fresh))
                  (routing.NewHashTable sample.selfID "127.0.0.1:40001" 0) _ _ _ _);
      vm_compute; reflexivity.
  - destruct (addNode_ends sample.silent sample.ctx0
                           (routing.NewRouteNode (message.Sender find)) sample.fresh)
      as [s1 E1].
    destruct (proj2 (proj2 (processPing_only_replies
                              sample.silent sample.ctx0 find
                              (message.BuildResponse sample.selfNode (sample.peer 1)
                                                     message.TypeFindNode)
                              sample.fresh))
                    message.TypeFindNode s1 ltac:(discriminate) I E1) as (s2 & E2 & T2).
    exists s1, s2. repeat split; try assumption.
    vm_compute in E2. injection E2 as <-. vm_compute. reflexivity.
Defined.

(** * More of the engine *)

(** ** The ways through addNode *)

(** [addNode] ends, and the state it ends in is one of the eight that
    [addNodeStep] lists. *)
Lemma addNode_addNodeStep w ctx n s :
  exists s', finalState (addNode w ctx n s) = Some s' /\ addNodeStep w n s ctx s'.
Proof.
  unfold addNode, htFromCtx.
  destruct ctx as [htIdx|]; [|eexists; split; [reflexivity|constructor]].
  cbn. unfold mbind, M_bind, gets.
  destruct (tables s !! htIdx) as [ht|] eqn:Eht;
    [|eexists; split; [reflexivity|constructor; assumption]].
  cbn.
  set (index := routing.GetBucketIndexFromDifferingBit _ _).
  destruct (routing.DoesNodeExistInBucket ht index (routing.RouteNodeID n)) eqn:Eex.
  { eexists; split; [reflexivity|]. eapply AddSeen; eassumption. }
  unfold bucketOf.
  destruct (routing.RoutingTable ht !! index) as [bucket|] eqn:Eb;
    [|eexists; split; [reflexivity|eapply AddNoBucket; eassumption]].
  cbn. case_bool_decide as Hfull.
  - destruct bucket as [|h rest]; [discriminate Hfull|].
    unfold SendRequest, mbind, M_bind, gets, modify. cbn.
    destruct (sendFails w (sent s) _) eqn:Esend; cbn.
    + eexists; split; [reflexivity|].
      pose proof (AddSendFailed w n s htIdx ht h rest Eht Eex Eb Hfull Esend) as H.
      unfold pinged in H. rewrite Esend in H. exact H.
    + destruct (outcome w (sent s)) eqn:Eo; cbn; (eexists; split; [reflexivity|]).
      * assert (Hne : outcome w (sent s) ≠ transport.TimedOut) by congruence.
        pose proof (AddAnswered w n s htIdx ht h rest Eht Eex Eb Hfull Esend Hne) as H.
        unfold pinged in H. rewrite Esend in H. exact H.
      * assert (Hne : outcome w (sent s) ≠ transport.TimedOut) by congruence.
        pose proof (AddAnswered w n s htIdx ht h rest Eht Eex Eb Hfull Esend Hne) as H.
        unfold pinged in H. rewrite Esend in H. exact H.
      * pose proof (AddTimedOut w n s htIdx ht h rest Eht Eex Eb Hfull Esend Eo) as H.
        unfold pinged in H. rewrite Esend in H. exact H.
  - eexists; split; [reflexivity|]. eapply AddAppend; eassumption.
Qed.

Lemma addNode_inv w ctx n s s' :
  finalState (addNode w ctx n s) = Some s' -> addNodeStep w n s ctx s'.
Proof.
  intros H. destruct (addNode_addNodeStep w ctx n s) as (s1 & E & Hstep).
  congruence.
Qed.

Lemma TotalNodes_insert (l : list (list routing.RouteNode)) i b b' :
  l !! i = Some b ->
  (foldr (fun b acc => length b + acc) 0 (<[i := b']> l) + length b
   = foldr (fun b acc => length b + acc) 0 l + length b')%nat.
Proof.
  revert i. induction l as [|x l IH]; intros [|i]; simpl; try discriminate.
  - intros [= ->]. lia.
  - intros H. specialize (IH i H). lia.
Qed.

Lemma lookup_alter_eq {A} (f : A -> A) (l : list A) i x :
  l !! i = Some x -> alter f i l !! i = Some (f x).
Proof. intros H. rewrite list_lookup_alter_eq, H. reflexivity. Qed.

Lemma lookup_alter_other {A} (f : A -> A) (l : list A) i j :
  i ≠ j -> alter f i l !! j = l !! j.
Proof. intros H. apply list_lookup_alter_ne. exact H. Qed.

(** The entry that [moveToTail] moves ends up last. *)
Lemma moveToTail_last id b :
  existsb (fun r => bytes_eqb (routing.RouteNodeID r) id) b = true ->
  exists r, last (routing.moveToTail id b) = Some r /\ routing.RouteNodeID r = id.
Proof.
  induction b as [|x b IH]; simpl; [discriminate|].
  destruct (bytes_eqb (routing.RouteNodeID x) id) eqn:E; simpl.
  - intros _. exists x. split; [apply last_snoc|].
    unfold bytes_eqb in E. apply bool_decide_eq_true in E. exact E.
  - intros H. destruct (IH H) as (r & Hr & Hid). exists r. split; [|exact Hid].
    destruct (routing.moveToTail id b) eqn:Em; [discriminate Hr|].
    exact Hr.
Qed.

(** An entry that is already last, in a bucket without a second entry of
    its ID, stays where it is. *)
Lemma moveToTail_of_last b n :
  routing.RouteNodeID n ∉ routing.RouteNodeID <$> b ->
  routing.moveToTail (routing.RouteNodeID n) (b ++ [n]) = b ++ [n].
Proof.
  induction b as [|x b IH]; simpl; intros H.
  - unfold bytes_eqb. rewrite bool_decide_eq_true_2 by reflexivity. reflexivity.
  - apply not_elem_of_cons in H as [H1 H2].
    unfold bytes_eqb at 1. rewrite bool_decide_eq_false_2 by congruence.
    f_equal. apply IH, H2.
Qed.

Lemma DoesNodeExistInBucket_true_tail ht i b n :
  routing.RoutingTable ht !! i = Some (b ++ [n]) ->
  routing.DoesNodeExistInBucket ht i (routing.RouteNodeID n) = true.
Proof.
  intros H. unfold routing.DoesNodeExistInBucket, routing.bucketAt. rewrite H. simpl.
  rewrite existsb_app. simpl. unfold bytes_eqb at 2.
  rewrite bool_decide_eq_true_2 by reflexivity. rewrite orb_true_r. reflexivity.
Qed.

(** What [addNode] sends: nothing, or one ping, to the head of the full
    bucket of a node it does not know. *)
Theorem addNode_pings_only_full_buckets (w : World) (ctx : Context)
        (n : routing.RouteNode) (s : DHT) :
  exists s',
    finalState (addNode w ctx n s) = Some s'
    /\ ((trace s' = trace s /\ sent s' = sent s)
        \/ exists htIdx ht h rest ok,
            ctx = Some htIdx /\ tables s !! htIdx = Some ht
            /\ routing.RoutingTable ht
                 !! routing.GetBucketIndexFromDifferingBit
                      (node.ID (routing.Origin ht)) (routing.RouteNodeID n)
               = Some (h :: rest)
            /\ length (h :: rest) = routing.MaxContactsInBucket
            /\ routing.DoesNodeExistInBucket
                 ht (routing.GetBucketIndexFromDifferingBit
                       (node.ID (routing.Origin ht)) (routing.RouteNodeID n))
                 (routing.RouteNodeID n) = false
            /\ trace s' = trace s ++ [transport.EvSendRequest
                                       (sent s)
                                       (message.NewPingMessage (routing.Origin ht)
                                                               (routing.Node h)) ok]
            /\ sent s' = S (sent s)).
Proof.
  destruct (addNode_addNodeStep w ctx n s) as (s' & E & Hstep).
  exists s'. split; [exact E|].
  destruct Hstep; try (left; split; reflexivity);
    right; exists htIdx, ht, h, rest; eexists; repeat split; try eassumption; reflexivity.
Qed.

(** [addNode] writes one bucket: the other tables, and in the table of the
    context the origin, the refresh clocks and every other bucket, are what
    they were; so are the store, the options, the origin and the clock. *)
Theorem addNode_writes_one_bucket (w : World) (htIdx : nat) (ht : routing.HashTable)
        (n : routing.RouteNode) (s : DHT) :
  tables s !! htIdx = Some ht ->
  exists s' ht',
    finalState (addNode w (Some htIdx) n s) = Some s'
    /\ tables s' !! htIdx = Some ht'
    /\ (forall j, j ≠ htIdx -> tables s' !! j = tables s !! j)
    /\ routing.Origin ht' = routing.Origin ht
    /\ routing.refreshTimes ht' = routing.refreshTimes ht
    /\ (forall k, k ≠ routing.GetBucketIndexFromDifferingBit
                       (node.ID (routing.Origin ht)) (routing.RouteNodeID n) ->
                  routing.RoutingTable ht' !! k = routing.RoutingTable ht !! k)
    /\ store s' = store s /\ options s' = options s /\ origin s' = origin s
    /\ clock s' = clock s.
Proof.
  intros Hht.
  destruct (addNode_addNodeStep w (Some htIdx) n s) as (s' & E & Hstep).
  exists s'.
  inversion Hstep; subst; try congruence;
    try (exists ht; repeat split; (assumption || reflexivity));
    match goal with
    | H : tables s !! htIdx = Some ?ht0 |- _ =>
        assert (ht0 = ht) by congruence; subst ht0
    end.
  all: eexists; split; [exact E|]; split; [apply lookup_alter_eq, Hht|];
    split; [intros j Hj; apply lookup_alter_other; intros ->; apply Hj; reflexivity|];
    repeat split; try reflexivity;
    intros k Hk; simpl; apply list_lookup_insert_ne; intros Heq; apply Hk; symmetry; exact Heq.
Qed.

Lemma addNode_writes_one_bucket_witness :
  let s := sample.withBucket0 [sample.routePeer 1] in
  exists s' ht',
    finalState (addNode sample.silent sample.ctx0 (sample.routePeer 2) s) = Some s'
    /\ tables s' !! 0%nat = Some ht'
    /\ routing.RoutingTable ht' !! 1%nat = Some []
    /\ store s' = store s /\ clock s' = clock s.
Proof.
  intros s.
  destruct (addNode_writes_one_bucket sample.silent 0 (sample.table0 [sample.routePeer 1])
              (sample.routePeer 2) s eq_refl)
    as (s' & ht' & E & Hht & _ & _ & _ & Hk & Hst & _ & _ & Hcl).
  exists s', ht'. split; [exact E|]. split; [exact Hht|].
  split; [|split; assumption].
  rewrite (Hk 1%nat); [reflexivity|]. vm_compute. discriminate.
Defined.

Lemma TotalNodes_setBucket ht i b b' :
  routing.RoutingTable ht !! i = Some b ->
  (routing.TotalNodes (setBucket i b' ht) + length b
   = routing.TotalNodes ht + length b')%nat.
Proof. intros H. unfold routing.TotalNodes. simpl. apply TotalNodes_insert, H. Qed.

Lemma TotalNodes_MarkNodeAsSeen ht id :
  routing.TotalNodes (routing.MarkNodeAsSeen ht id) = routing.TotalNodes ht.
Proof.
  unfold routing.MarkNodeAsSeen, routing.bucketAt.
  set (index := routing.GetBucketIndexFromDifferingBit _ _).
  destruct (routing.RoutingTable ht !! index) as [b|] eqn:E.
  - pose proof (TotalNodes_insert (routing.RoutingTable ht) index b
                                  (routing.moveToTail id b) E) as H.
    rewrite (Permutation_length (moveToTail_Permutation id b)) in H.
    unfold routing.TotalNodes. simpl. lia.
  - unfold routing.TotalNodes. simpl.
    rewrite list_insert_ge; [reflexivity|]. apply lookup_ge_None_1, E.
Qed.

(** The count [NumNodes] gives grows by one when [addNode] puts a node it
    does not know into a bucket that has room, and is otherwise what it
    was. *)
Theorem addNode_NumNodes (w : World) (htIdx : nat) (ht : routing.HashTable)
        (n : routing.RouteNode) (s : DHT) :
  tables s !! htIdx = Some ht ->
  let index := routing.GetBucketIndexFromDifferingBit
                 (node.ID (routing.Origin ht)) (routing.RouteNodeID n) in
  let grows :=
    negb (routing.DoesNodeExistInBucket ht index (routing.RouteNodeID n))
    && hasRoom ht index in
  exists s',
    finalState (addNode w (Some htIdx) n s) = Some s'
    /\ NumNodes (Some htIdx) s = Returned (routing.TotalNodes ht) s
    /\ NumNodes (Some htIdx) s'
       = Returned (if grows then S (routing.TotalNodes ht) else routing.TotalNodes ht) s'.
Proof.
  intros Hht. cbv zeta.
  assert (HNum : forall s0 ht0, tables s0 !! htIdx = Some ht0 ->
                   NumNodes (Some htIdx) s0 = Returned (routing.TotalNodes ht0) s0).
  { intros s0 ht0 H0. unfold NumNodes, htFromCtx, mbind, M_bind, gets.
    rewrite H0. reflexivity. }
  destruct (addNode_addNodeStep w (Some htIdx) n s) as (s' & E & Hstep).
  exists s'. split; [exact E|]. split; [apply HNum, Hht|].
  inversion Hstep; subst; try congruence;
    repeat match goal with x := _ |- _ => subst x end;
    match goal with
    | H : tables _ !! htIdx = Some ?ht0 |- _ =>
        assert (ht0 = ht) by congruence; subst ht0
    end; unfold hasRoom;
    repeat match goal with
      | H : routing.DoesNodeExistInBucket _ _ _ = _ |- _ => rewrite H; clear H
      | H : routing.RoutingTable ht !! _ = _ |- _ => rewrite H
      end; cbn [negb andb].
  - (* seen *)
    erewrite HNum by (unfold withBucket, pinged; cbn; apply lookup_alter_eq; exact Hht).
    rewrite TotalNodes_MarkNodeAsSeen. reflexivity.
  - (* no bucket *)
    erewrite HNum by (unfold pinged; cbn; exact Hht). reflexivity.
  - (* append *)
    erewrite HNum by (unfold withBucket, pinged; cbn; apply lookup_alter_eq; exact Hht).
    rewrite bool_decide_eq_true_2 by assumption.
    pose proof (TotalNodes_setBucket ht _ bucket (bucket ++ [n]) ltac:(eassumption)) as H.
    rewrite length_app in H. simpl in H. f_equal. lia.
  - (* send failed *)
    erewrite HNum by (unfold withBucket, pinged; cbn; apply lookup_alter_eq; exact Hht).
    rewrite bool_decide_eq_false_2 by (intros Hne; apply Hne; assumption).
    pose proof (TotalNodes_setBucket ht _ (h :: rest) (rest ++ [n]) ltac:(eassumption)) as H.
    rewrite length_app in H. simpl in H. f_equal. lia.
  - (* timed out *)
    erewrite HNum by (unfold withBucket, pinged; cbn; apply lookup_alter_eq; exact Hht).
    rewrite bool_decide_eq_false_2 by (intros Hne; apply Hne; assumption).
    pose proof (TotalNodes_setBucket ht _ (h :: rest) (rest ++ [n]) ltac:(eassumption)) as H.
    rewrite length_app in H. simpl in H. f_equal. lia.
  - (* answered *)
    erewrite HNum by (unfold pinged; cbn; exact Hht).
    rewrite bool_decide_eq_false_2 by (intros Hne; apply Hne; assumption).
    reflexivity.
Qed.

Lemma addNode_NumNodes_witness :
  let s := sample.withBucket0 [sample.routePeer 1] in
  exists s',
    finalState (addNode sample.silent sample.ctx0 (sample.routePeer 2) s) = Some s'
    /\ NumNodes sample.ctx0 s = Returned 1%nat s
    /\ NumNodes sample.ctx0 s' = Returned 2%nat s'.
Proof.
  intros s.
  destruct (addNode_NumNodes sample.silent 0 (sample.table0 [sample.routePeer 1])
              (sample.routePeer 2) s eq_refl) as (s' & E & H0 & H1).
  exists s'. split; [exact E|]. split; [exact H0 | exact H1].
Defined.

(** [moveToTail] on a bucket without a second entry of the ID: the entry is
    last, and no other entry has its ID. *)
Lemma moveToTail_split id b :
  NoDup (routing.RouteNodeID <$> b) ->
  existsb (fun r => bytes_eqb (routing.RouteNodeID r) id) b = true ->
  exists b' r, routing.moveToTail id b = b' ++ [r] /\ routing.RouteNodeID r = id
               /\ (id ∉ routing.RouteNodeID <$> b') /\ r ∈ b.
Proof.
  induction b as [|x b IH]; simpl; [discriminate|].
  intros Hnd. apply NoDup_cons in Hnd as [Hx Hnd].
  destruct (bytes_eqb (routing.RouteNodeID x) id) eqn:E; simpl.
  - intros _. unfold bytes_eqb in E. apply bool_decide_eq_true in E. subst id.
    exists b, x. repeat split; [exact Hx | apply list_elem_of_here].
  - intros H. destruct (IH Hnd H) as (b' & r & Hm & Hid & Hnin & Hin).
    exists (x :: b'), r. rewrite Hm. repeat split; [exact Hid| |apply list_elem_of_further, Hin].
    rewrite fmap_cons. apply not_elem_of_cons. split; [|exact Hnin].
    unfold bytes_eqb in E. apply bool_decide_eq_false in E. congruence.
Qed.

(** The same with an entry that only shares the ID. *)
Lemma moveToTail_of_last_id b r id :
  routing.RouteNodeID r = id ->
  id ∉ routing.RouteNodeID <$> b ->
  routing.moveToTail id (b ++ [r]) = b ++ [r].
Proof.
  intros Hid. induction b as [|x b IH]; simpl; intros H.
  - unfold bytes_eqb. rewrite bool_decide_eq_true_2 by exact Hid. reflexivity.
  - apply not_elem_of_cons in H as [H1 H2].
    unfold bytes_eqb at 1. rewrite bool_decide_eq_false_2 by congruence.
    f_equal. apply IH, H2.
Qed.

Lemma existsb_tail_id b r id :
  routing.RouteNodeID r = id ->
  existsb (fun x => bytes_eqb (routing.RouteNodeID x) id) (b ++ [r]) = true.
Proof.
  intros Hid. rewrite existsb_app. simpl. unfold bytes_eqb at 2.
  rewrite bool_decide_eq_true_2 by exact Hid. rewrite orb_true_r. reflexivity.
Qed.

Lemma setTables_same s : setTables (tables s) s = s.
Proof. destruct s. reflexivity. Qed.

(** A node whose entry is the last of its bucket, and the only one of its
    ID there: [addNode] returns at once and changes nothing. *)
Lemma addNode_of_last w htIdx ht n b r s :
  tables s !! htIdx = Some ht ->
  routing.RoutingTable ht
    !! routing.GetBucketIndexFromDifferingBit
         (node.ID (routing.Origin ht)) (routing.RouteNodeID n) = Some (b ++ [r]) ->
  routing.RouteNodeID r = routing.RouteNodeID n ->
  routing.RouteNodeID n ∉ routing.RouteNodeID <$> b ->
  addNode w (Some htIdx) n s = Returned tt s.
Proof.
  intros Hht Hb Hid Hnin. unfold addNode, htFromCtx.
  cbn. unfold mbind, M_bind, gets. rewrite Hht. cbn.
  unfold routing.DoesNodeExistInBucket, routing.bucketAt. rewrite Hb. simpl.
  rewrite (existsb_tail_id b r _ Hid).
  unfold updateTable, modify. f_equal.
  assert (Hal : alter (fun ht => routing.MarkNodeAsSeen ht (routing.RouteNodeID n))
                      htIdx (tables s) = tables s).
  { apply list_eq. intros j. destruct (decide (htIdx = j)) as [<-|Hne].
    - rewrite (lookup_alter_eq _ _ _ _ Hht), Hht. f_equal.
      unfold routing.MarkNodeAsSeen, routing.bucketAt. rewrite Hb. simpl.
      rewrite (moveToTail_of_last_id b r _ Hid Hnin).
      rewrite list_insert_id by exact Hb. destruct ht; reflexivity.
    - apply lookup_alter_other. exact Hne. }
  rewrite Hal. apply setTables_same.
Qed.

(** Where [addNode] leaves the node: an entry with its ID is the last of
    its bucket, the most recently seen place; unless the bucket was full
    of other nodes and the ping of its head was sent and did not time out,
    and then the table is what it was.  When the bucket did not have the
    ID, the last entry is the node as it was handed to [addNode].  When it
    had, the entry is the one [ht.MarkNodeAsSeen] moved there, of which
    only the ID is stated. *)
Theorem addNode_puts_node_last (w : World) (htIdx : nat) (ht : routing.HashTable)
        (n : routing.RouteNode) (bucket : list routing.RouteNode) (s : DHT) :
  tables s !! htIdx = Some ht ->
  routing.RoutingTable ht
    !! routing.GetBucketIndexFromDifferingBit
         (node.ID (routing.Origin ht)) (routing.RouteNodeID n) = Some bucket ->
  exists s' ht',
    finalState (addNode w (Some htIdx) n s) = Some s'
    /\ tables s' !! htIdx = Some ht'
    /\ ((exists r,
           last (routing.bucketAt ht' (routing.GetBucketIndexFromDifferingBit
                                         (node.ID (routing.Origin ht))
                                         (routing.RouteNodeID n))) = Some r
           /\ routing.RouteNodeID r = routing.RouteNodeID n
           /\ (routing.RouteNodeID n ∉ routing.RouteNodeID <$> bucket -> r = n))
        \/ (ht' = ht
            /\ length bucket = routing.MaxContactsInBucket
            /\ (routing.RouteNodeID n ∉ routing.RouteNodeID <$> bucket)
            /\ outcome w (sent s) ≠ transport.TimedOut)).
Proof.
  intros Hht Hb.
  destruct (addNode_addNodeStep w (Some htIdx) n s) as (s' & E & Hstep).
  exists s'.
  inversion Hstep; subst; try congruence;
    repeat match goal with x := _ |- _ => subst x end;
    match goal with
    | H : tables _ !! htIdx = Some ?ht0 |- _ =>
        assert (ht0 = ht) by congruence; subst ht0
    end.
  - (* seen *)
    eexists. split; [exact E|]. split; [apply lookup_alter_eq, Hht|]. left.
    match goal with H : routing.DoesNodeExistInBucket _ _ _ = true |- _ =>
      unfold routing.DoesNodeExistInBucket, routing.bucketAt in H;
      rewrite Hb in H; simpl in H;
      destruct (moveToTail_last _ _ H) as (r & Hr & Hid) end.
    exists r. unfold routing.bucketAt, routing.MarkNodeAsSeen. simpl.
    rewrite list_lookup_insert_eq by (eapply lookup_lt_Some; exact Hb).
    unfold routing.bucketAt. rewrite Hb. simpl.
    split; [exact Hr|]. split; [exact Hid|]. intros Hnin. exfalso.
    match goal with H : existsb _ bucket = true |- _ =>
      apply existsb_exists in H as (x & Hx & Hxid) end.
    apply Hnin. unfold bytes_eqb in Hxid. apply bool_decide_eq_true in Hxid.
    rewrite <- Hxid. apply list_elem_of_fmap. exists x.
    split; [reflexivity | apply list_elem_of_In, Hx].
  - (* no bucket *) congruence.
  - (* append *)
    eexists. split; [exact E|]. split; [apply lookup_alter_eq, Hht|]. left.
    exists n. unfold routing.bucketAt. simpl.
    rewrite list_lookup_insert_eq by (eapply lookup_lt_Some; exact Hb). simpl.
    split; [apply last_snoc|]. split; reflexivity.
  - (* send failed *)
    eexists. split; [exact E|]. split; [apply lookup_alter_eq, Hht|]. left.
    exists n. unfold routing.bucketAt. simpl.
    rewrite list_lookup_insert_eq by (eapply lookup_lt_Some; exact Hb). simpl.
    split; [apply last_snoc|]. split; reflexivity.
  - (* timed out *)
    eexists. split; [exact E|]. split; [apply lookup_alter_eq, Hht|]. left.
    exists n. unfold routing.bucketAt. simpl.
    rewrite list_lookup_insert_eq by (eapply lookup_lt_Some; exact Hb). simpl.
    split; [apply last_snoc|]. split; reflexivity.
  - (* answered *)
    exists ht. split; [exact E|]. split; [exact Hht|]. right.
    split; [reflexivity|].
    assert (bucket = h :: rest) by congruence. subst bucket.
    split; [assumption|]. split; [|assumption].
    match goal with H : routing.DoesNodeExistInBucket _ _ _ = false |- _ =>
      apply DoesNodeExistInBucket_false in H; unfold routing.bucketAt in H;
      rewrite Hb in H; exact H end.
Qed.

Lemma addNode_puts_node_last_witness :
  let s := sample.withBucket0 (sample.routePeer <$> seq 1 20) in
  exists s' ht' r,
    finalState (addNode sample.silent sample.ctx0 (sample.routePeer 21) s) = Some s'
    /\ tables s' !! 0%nat = Some ht'
    /\ last (routing.bucketAt ht' 0) = Some r
    /\ routing.RouteNodeID r = sample.peerID 21.
Proof.
  intros s.
  destruct (addNode_puts_node_last sample.silent 0
              (sample.table0 (sample.routePeer <$> seq 1 20))
              (sample.routePeer 21) (sample.routePeer <$> seq 1 20) s eq_refl eq_refl)
    as (s' & ht' & E & Hht & [(r & Hlast & Hid & _)|(_ & _ & _ & Hout)]).
  - exists s', ht', r. split; [exact E|]. split; [exact Hht|].
    split; [exact Hlast | exact Hid].
  - exfalso. apply Hout. reflexivity.
Defined.

(** Adding a node once more, right after [addNode] has left it in the
    table: the second call returns by the path of a known node.  It sends
    nothing, no ping and no other message, it leaves the store alone, and
    it leaves the IDs of every bucket in the order they were in: the entry
    [ht.MarkNodeAsSeen] moves to the tail is at the tail already.  What
    [MarkNodeAsSeen] writes into the entry itself is not stated. *)
Theorem addNode_again_keeps_the_order (w w' : World) (htIdx : nat)
        (ht : routing.HashTable) (n : routing.RouteNode) (s : DHT) :
  bucketsOK s ->
  tables s !! htIdx = Some ht ->
  exists s1 ht1,
    finalState (addNode w (Some htIdx) n s) = Some s1
    /\ tables s1 !! htIdx = Some ht1
    /\ (routing.DoesNodeExistInBucket
          ht1 (routing.GetBucketIndexFromDifferingBit
                 (node.ID (routing.Origin ht)) (routing.RouteNodeID n))
          (routing.RouteNodeID n) = true ->
        exists s2,
          addNode w' (Some htIdx) n s1 = Returned tt s2
          /\ trace s2 = trace s1 /\ sent s2 = sent s1
          /\ store s2 = store s1
          /\ bucketIDs s2 = bucketIDs s1).
Proof.
  intros Hok Hht.
  destruct (addNode_addNodeStep w (Some htIdx) n s) as (s' & E & Hstep).
  exists s'.
  inversion Hstep; subst; try congruence;
    repeat match goal with x := _ |- _ => subst x end;
    match goal with
    | H : tables _ !! htIdx = Some ?ht0 |- _ =>
        assert (ht0 = ht) by congruence; subst ht0
    end.
  - (* seen *)
    eexists. split; [exact E|]. split; [apply lookup_alter_eq, Hht|]. intros _.
    refine (ex_intro _ _ (conj _ (conj eq_refl (conj eq_refl (conj eq_refl eq_refl))))).
    match goal with H : routing.DoesNodeExistInBucket _ _ _ = true |- _ =>
      rename H into Hex end.
    unfold routing.DoesNodeExistInBucket, routing.bucketAt in Hex.
    destruct (routing.RoutingTable ht !! _) as [bucket|] eqn:Hb; [|discriminate Hex].
    simpl in Hex.
    assert (Hnd : NoDup (routing.RouteNodeID <$> bucket)).
    { apply (Forall_lookup_1 _ _ _ _ Hok) in Hht.
      apply (Forall_lookup_1 _ _ _ _ Hht) in Hb. apply Hb. }
    destruct (moveToTail_split _ _ Hnd Hex) as (b' & r & Hm & Hid & Hnin & _).
    eapply (addNode_of_last w' htIdx _ n b' r).
    + apply lookup_alter_eq, Hht.
    + unfold routing.MarkNodeAsSeen, routing.bucketAt. simpl. rewrite Hb. simpl.
      rewrite list_lookup_insert_eq by (eapply lookup_lt_Some; exact Hb).
      f_equal. exact Hm.
    + exact Hid.
    + exact Hnin.
  - (* no bucket *)
    exists ht. split; [exact E|]. split; [exact Hht|]. congruence.
  - (* append *)
    eexists. split; [exact E|]. split; [apply lookup_alter_eq, Hht|]. intros _.
    refine (ex_intro _ _ (conj _ (conj eq_refl (conj eq_refl (conj eq_refl eq_refl))))).
    eapply (addNode_of_last w' htIdx _ n bucket n).
    + apply lookup_alter_eq, Hht.
    + simpl. apply list_lookup_insert_eq. eapply lookup_lt_Some; eassumption.
    + reflexivity.
    + match goal with H : routing.DoesNodeExistInBucket _ _ _ = false,
                      Hb : routing.RoutingTable ht !! _ = Some _ |- _ =>
        apply DoesNodeExistInBucket_false in H; unfold routing.bucketAt in H;
        rewrite Hb in H; exact H end.
  - (* send failed *)
    eexists. split; [exact E|]. split; [apply lookup_alter_eq, Hht|]. intros _.
    refine (ex_intro _ _ (conj _ (conj eq_refl (conj eq_refl (conj eq_refl eq_refl))))).
    eapply (addNode_of_last w' htIdx _ n rest n).
    + apply lookup_alter_eq, Hht.
    + simpl. apply list_lookup_insert_eq. eapply lookup_lt_Some; eassumption.
    + reflexivity.
    + match goal with H : routing.DoesNodeExistInBucket _ _ _ = false,
                      Hb : routing.RoutingTable ht !! _ = Some _ |- _ =>
        apply DoesNodeExistInBucket_false in H; unfold routing.bucketAt in H;
        rewrite Hb in H; simpl in H; apply not_elem_of_cons in H as [_ H]; exact H end.
  - (* timed out *)
    eexists. split; [exact E|]. split; [apply lookup_alter_eq, Hht|]. intros _.
    refine (ex_intro _ _ (conj _ (conj eq_refl (conj eq_refl (conj eq_refl eq_refl))))).
    eapply (addNode_of_last w' htIdx _ n rest n).
    + apply lookup_alter_eq, Hht.
    + simpl. apply list_lookup_insert_eq. eapply lookup_lt_Some; eassumption.
    + reflexivity.
    + match goal with H : routing.DoesNodeExistInBucket _ _ _ = false,
                      Hb : routing.RoutingTable ht !! _ = Some _ |- _ =>
        apply DoesNodeExistInBucket_false in H; unfold routing.bucketAt in H;
        rewrite Hb in H; simpl in H; apply not_elem_of_cons in H as [_ H]; exact H end.
  - (* answered *)
    exists ht. split; [exact E|]. split; [exact Hht|]. congruence.
Qed.

Lemma addNode_again_keeps_the_order_witness :
  let s := sample.withBucket0 (sample.routePeer <$> seq 1 20) in
  exists s1 s2,
    finalState (addNode sample.silent sample.ctx0 (sample.routePeer 21) s) = Some s1
    /\ addNode (sample.answering (sample.pong 2)) sample.ctx0 (sample.routePeer 21) s1
       = Returned tt s2
    /\ trace s2 = trace s1 /\ sent s2 = sent s1 /\ store s2 = store s1
    /\ bucketIDs s2 = bucketIDs s1.
Proof.
  intros s.
  destruct (addNode_again_keeps_the_order
              sample.silent (sample.answering (sample.pong 2)) 0
              (sample.table0 (sample.routePeer <$> seq 1 20)) (sample.routePeer 21) s)
    as (s1 & ht1 & E & Hht & Hagain).
  - apply (bool_decide_unpack _). vm_compute. reflexivity.
  - reflexivity.
  - destruct Hagain as (s2 & Hrun & Hrest).
    + vm_compute in E. injection E as Hs. rewrite <- Hs in Hht.
      injection Hht as <-. vm_compute. reflexivity.
    + exists s1, s2. split; [exact E|]. split; [exact Hrun | exact Hrest].
Defined.

(** ** The bucket invariants through the engine *)

Lemma preserves_ret {A} P (a : A) : preserves P (mret a).
Proof. intros s s' H [= <-]. exact H. Qed.

Lemma preserves_panic {A} P why : preserves P (@panic A why).
Proof. intros s s' H [= <-]. exact H. Qed.

Lemma preserves_outOfFuel {A} P : preserves P (@outOfFuel A).
Proof. intros s s' H [=]. Qed.

Lemma preserves_gets {A} P (f : DHT -> A) : preserves P (gets f).
Proof. intros s s' H [= <-]. exact H. Qed.

Lemma preserves_bind {A B} P (m : M A) (f : A -> M B) :
  preserves P m -> (forall a, preserves P (f a)) -> preserves P (m ≫= f).
Proof.
  intros Hm Hf s s' HP H.
  destruct (bind_final _ _ _ _ H) as [(a & s1 & E1 & E2)|[why E]].
  - eapply Hf; [|exact E2]. eapply Hm; [exact HP|]. rewrite E1. reflexivity.
  - eapply Hm; [exact HP|]. rewrite E. reflexivity.
Qed.

Lemma preserves_modify P (f : DHT -> DHT) :
  (forall s, P s -> P (f s)) -> preserves P (modify f).
Proof. intros Hf s s' H [= <-]. apply Hf, H. Qed.

Lemma buckets_ResetRefreshTimeForBucket (k i : nat) (now : Z)
      (ts : list routing.HashTable) :
  routing.RoutingTable
    <$> alter (fun ht => routing.ResetRefreshTimeForBucket ht i now) k ts
  = routing.RoutingTable <$> ts.
Proof.
  apply list_eq. intros j. rewrite !list_lookup_fmap.
  destruct (decide (k = j)) as [<-|Hne].
  - destruct (ts !! k) as [ht|] eqn:E.
    + rewrite (lookup_alter_eq _ _ _ _ E). reflexivity.
    + rewrite (lookup_ge_None_2 (alter _ k ts) k); [reflexivity|].
      rewrite length_alter. apply lookup_ge_None_1, E.
  - rewrite lookup_alter_other by exact Hne. reflexivity.
Qed.

Create HintDb preserves.
#[local] Hint Resolve preserves_ret preserves_panic preserves_outOfFuel preserves_gets
  : preserves.

(** One step through the syntax of a monadic program. *)
Ltac preserves_step :=
  match goal with
  | |- preserves _ (_ ≫= _) =>
      apply preserves_bind;
      [ | intros ?; repeat match goal with x : (_ * _)%type |- _ => destruct x end;
          cbv beta iota zeta ]
  | |- preserves _ (match ?x with _ => _ end) => destruct x
  | |- preserves _ _ => solve [auto with preserves]
  end.

Ltac preserves_auto := repeat preserves_step.

(** What follows holds of every invariant of the buckets that [addNode]
    keeps: the engine writes into a bucket through [addNode] and nowhere
    else. *)
Section BucketInvariant.

Variable Inv : DHT -> Prop.
Hypothesis HInv : bucketInvariant Inv.

Lemma preserves_addNode w ctx n : preserves Inv (addNode w ctx n).
Proof. apply (inv_addNode Inv HInv). Qed.

Lemma preserves_resetRefreshTime k i now :
  preserves Inv (updateTable k (fun ht => routing.ResetRefreshTimeForBucket ht i now)).
Proof.
  apply preserves_modify. intros s H. eapply (inv_buckets Inv HInv); [|exact H].
  simpl. apply buckets_ResetRefreshTimeForBucket.
Qed.

#[local] Hint Resolve preserves_addNode preserves_resetRefreshTime : preserves.
#[local] Hint Extern 2 (preserves Inv (modify _)) =>
  apply preserves_modify; intros ? ?;
  eapply (inv_buckets Inv HInv); [|eassumption]; reflexivity : preserves.

Lemma preserves_htFromCtx ctx : preserves Inv (htFromCtx ctx).
Proof. unfold htFromCtx. preserves_auto. Qed.

Lemma preserves_SendRequest w msg : preserves Inv (SendRequest w msg).
Proof. unfold SendRequest. preserves_auto. Qed.

Lemma preserves_SendResponse rid msg : preserves Inv (SendResponse rid msg).
Proof. unfold SendResponse. preserves_auto. Qed.

Lemma preserves_Cancel f : preserves Inv (Cancel f).
Proof. unfold Cancel. preserves_auto. Qed.

Lemma preserves_SetNodeByID id : preserves Inv (SetNodeByID id).
Proof. unfold SetNodeByID. preserves_auto. Qed.

Lemma preserves_SetDefaultNode : preserves Inv SetDefaultNode.
Proof. unfold SetDefaultNode. preserves_auto. Qed.

#[local] Hint Resolve preserves_htFromCtx preserves_SendRequest preserves_SendResponse
  preserves_Cancel preserves_SetNodeByID preserves_SetDefaultNode : preserves.

Lemma preserves_getExpirationTime ctx key : preserves Inv (getExpirationTime ctx key).
Proof. unfold getExpirationTime, Now. preserves_auto. Qed.

Lemma preserves_storeStore key data repl exp pub :
  preserves Inv (storeStore key data repl exp pub).
Proof. unfold storeStore. preserves_auto. Qed.

Lemma preserves_storeRetrieve key : preserves Inv (storeRetrieve key).
Proof. unfold storeRetrieve. preserves_auto. Qed.

Lemma preserves_rpcInvoke w sender method args :
  preserves Inv (rpcInvoke w sender method args).
Proof. unfold rpcInvoke. preserves_auto. Qed.

Lemma preserves_randomIDFromBucket w ht bucket :
  preserves Inv (randomIDFromBucket w ht bucket).
Proof. unfold randomIDFromBucket. preserves_auto. Qed.

#[local] Hint Resolve preserves_getExpirationTime preserves_storeStore preserves_storeRetrieve
  preserves_rpcInvoke preserves_randomIDFromBucket : preserves.

Lemma preserves_sendQueries w t target self queryRest receivers :
  forall i contacted remove futures,
    preserves Inv
      (sendQueries w t target self queryRest i receivers contacted remove futures).
Proof. induction receivers as [|r rest IH]; intros; simpl; preserves_auto. Qed.

Lemma preserves_awaitFutures w ctx futures :
  preserves Inv (awaitFutures w ctx futures).
Proof. induction futures as [|f rest IH]; simpl; preserves_auto. Qed.

Lemma preserves_processResults t target results :
  forall routeSet, preserves Inv (processResults t target results routeSet).
Proof. induction results as [|r rest IH]; intros; simpl; preserves_auto. Qed.

Lemma preserves_storeFanOut w self data receivers :
  forall i, preserves Inv (storeFanOut w self data i receivers).
Proof. induction receivers as [|r rest IH]; intros; simpl; preserves_auto. Qed.

#[local] Hint Resolve preserves_sendQueries preserves_awaitFutures
  preserves_processResults preserves_storeFanOut : preserves.

Lemma preserves_iterateLoop w fuel ctx t target data self :
  forall routeSet contacted queryRest closestNode remove,
    preserves Inv
      (iterateLoop w fuel ctx t target data self routeSet contacted queryRest
                   closestNode remove).
Proof. induction fuel as [|fuel IH]; intros; simpl; preserves_auto. Qed.
#[local] Hint Resolve preserves_iterateLoop : preserves.

Lemma preserves_iterate w fuel ctx t target data :
  preserves Inv (iterate w fuel ctx t target data).
Proof. unfold iterate, Now. preserves_auto. Qed.
#[local] Hint Resolve preserves_iterate : preserves.

Lemma preserves_FindNode w fuel ctx key : preserves Inv (FindNode w fuel ctx key).
Proof. unfold FindNode, findNodeIterating. preserves_auto. Qed.

Lemma preserves_Get w fuel ctx key : preserves Inv (Get w fuel ctx key).
Proof. unfold Get. preserves_auto. Qed.

Lemma preserves_Store w fuel ctx data : preserves Inv (Store w fuel ctx data).
Proof. unfold Store, Now. preserves_auto. Qed.

Lemma preserves_NumNodes ctx : preserves Inv (NumNodes ctx).
Proof. unfold NumNodes. preserves_auto. Qed.

Lemma preserves_GetOriginID w ctx : preserves Inv (GetOriginID w ctx).
Proof. unfold GetOriginID. preserves_auto. Qed.

#[local] Hint Resolve preserves_FindNode preserves_Get preserves_Store
  preserves_NumNodes preserves_GetOriginID : preserves.

Lemma preserves_RemoteProcedureCall w fuel ctx target method args :
  preserves Inv (RemoteProcedureCall w fuel ctx target method args).
Proof. unfold RemoteProcedureCall. preserves_auto. Qed.

Lemma preserves_bootstrapSeeds w ctx self seeds :
  forall futures, preserves Inv (bootstrapSeeds w ctx self seeds futures).
Proof. induction seeds as [|bn rest IH]; intros; simpl; preserves_auto. Qed.

Lemma preserves_awaitSeeds w futures : preserves Inv (awaitSeeds w futures).
Proof. induction futures as [|f rest IH]; simpl; preserves_auto. Qed.

#[local] Hint Resolve preserves_bootstrapSeeds preserves_awaitSeeds : preserves.

Lemma preserves_seedTables w seeds idxs :
  forall futures, preserves Inv (seedTables w seeds idxs futures).
Proof. induction idxs as [|k rest IH]; intros; simpl; preserves_auto. Qed.

Lemma preserves_rangeTables {A} (body : nat -> routing.HashTable -> M (option A)) idxs :
  (forall k ht, preserves Inv (body k ht)) ->
  preserves Inv (rangeTables body idxs).
Proof. intros Hbody. induction idxs as [|k rest IH]; simpl; preserves_auto. Qed.

Lemma preserves_bootstrapTable w fuel ht : preserves Inv (bootstrapTable w fuel ht).
Proof. unfold bootstrapTable. preserves_auto. Qed.

Lemma preserves_tableIndices : preserves Inv tableIndices.
Proof. unfold tableIndices. preserves_auto. Qed.

#[local] Hint Resolve preserves_seedTables preserves_bootstrapTable
  preserves_tableIndices : preserves.

Lemma preserves_Bootstrap w fuel : preserves Inv (Bootstrap w fuel).
Proof.
  unfold Bootstrap. preserves_auto.
  apply preserves_rangeTables. intros. apply preserves_bootstrapTable.
Qed.

Lemma preserves_handlerOf w t ctx msg b : preserves Inv (handlerOf w t ctx msg b).
Proof.
  destruct t; simpl;
    unfold processFindNode, processFindValue, processStore, processPing, processRPC, Now;
    preserves_auto.
Qed.
#[local] Hint Resolve preserves_handlerOf : preserves.

Lemma preserves_handleMessage w msg : preserves Inv (handleMessage w msg).
Proof. unfold handleMessage. preserves_auto. Qed.

End BucketInvariant.

(** The two invariants: the bound with the distinct IDs, and the bound
    alone. *)
Lemma addNodeStep_bucketsOK w n s ctx s' :
  addNodeStep w n s ctx s' -> bucketsOK s -> bucketsOK s'.
Proof.
  intros Hstep Hok.
  destruct Hstep; try exact Hok;
    try (unfold bucketsOK, pinged; simpl; exact Hok).
  - apply bucketsOK_alter; [exact Hok|]. intros ht0. apply tableOK_MarkNodeAsSeen.
  - assert (Hb : bucketOK (bucket ++ [n])).
    { apply bucketOK_append; [| assumption |].
      - pose proof (Forall_lookup_1 _ _ _ _ Hok H) as Ht.
        exact (Forall_lookup_1 _ _ _ _ Ht H1).
      - apply DoesNodeExistInBucket_false in H0. unfold routing.bucketAt in H0.
        fold index in H0. rewrite H1 in H0. exact H0. }
    unfold withBucket. unfold bucketsOK. simpl. apply Forall_alter; [exact Hok|].
    intros ht0 _ Ht0. apply tableOK_setBucket; assumption.
  - assert (Hb : bucketOK (rest ++ [n])).
    { pose proof (Forall_lookup_1 _ _ _ _ Hok H) as Ht.
      pose proof (Forall_lookup_1 _ _ _ _ Ht H1) as Hbk.
      apply DoesNodeExistInBucket_false in H0. unfold routing.bucketAt in H0.
      fold index in H0. rewrite H1 in H0. simpl in H0.
      destruct (bucketOK_replace_head (h :: rest) n Hbk H0) as [_ Hr]. exact Hr. }
    unfold withBucket. unfold bucketsOK. simpl. apply Forall_alter; [exact Hok|].
    intros ht0 _ Ht0. apply tableOK_setBucket; assumption.
  - assert (Hb : bucketOK (rest ++ [n])).
    { pose proof (Forall_lookup_1 _ _ _ _ Hok H) as Ht.
      pose proof (Forall_lookup_1 _ _ _ _ Ht H1) as Hbk.
      apply DoesNodeExistInBucket_false in H0. unfold routing.bucketAt in H0.
      fold index in H0. rewrite H1 in H0. simpl in H0.
      destruct (bucketOK_replace_head (h :: rest) n Hbk H0) as [_ Hr]. exact Hr. }
    unfold withBucket. unfold bucketsOK. simpl. apply Forall_alter; [exact Hok|].
    intros ht0 _ Ht0. apply tableOK_setBucket; assumption.
Qed.

Lemma bucketsOK_bucketInvariant : bucketInvariant bucketsOK.
Proof.
  split.
  - intros s s' E H.
    change (Forall (Forall bucketOK ∘ routing.RoutingTable) (tables s)) in H.
    change (Forall (Forall bucketOK ∘ routing.RoutingTable) (tables s')).
    rewrite <- Forall_fmap in H. rewrite <- Forall_fmap, E. exact H.
  - intros w ctx n s s' Hok H. eapply addNodeStep_bucketsOK; [|exact Hok].
    apply addNode_inv. exact H.
Qed.

Lemma tableCapped_setBucket i b ht :
  tableCapped ht -> (length b ≤ routing.MaxContactsInBucket)%nat ->
  tableCapped (setBucket i b ht).
Proof.
  unfold tableCapped, setBucket. simpl. intros Ht Hb.
  apply Forall_insert; assumption.
Qed.

Lemma tableCapped_MarkNodeAsSeen ht id :
  tableCapped ht -> tableCapped (routing.MarkNodeAsSeen ht id).
Proof.
  unfold tableCapped, routing.MarkNodeAsSeen. simpl. intros Ht.
  apply Forall_insert; [exact Ht|].
  rewrite (Permutation_length (moveToTail_Permutation _ _)).
  unfold routing.bucketAt.
  destruct (routing.RoutingTable ht !! _) as [b|] eqn:E; simpl; [|lia].
  exact (Forall_lookup_1 _ _ _ _ Ht E).
Qed.

(** The bound is kept by each write of [addNode] on its own: the proof
    reads the length of the bucket the write starts from, and never the
    answer of the membership test that went before. *)
Lemma addNodeStep_bucketsCapped w n s ctx s' :
  addNodeStep w n s ctx s' -> bucketsCapped s -> bucketsCapped s'.
Proof.
  intros Hstep Hok.
  destruct Hstep; try exact Hok;
    try (unfold bucketsCapped, pinged; simpl; exact Hok).
  - unfold bucketsCapped. simpl. apply Forall_alter; [exact Hok|].
    intros ht0 _. apply tableCapped_MarkNodeAsSeen.
  - pose proof (Forall_lookup_1 _ _ _ _ (Forall_lookup_1 _ _ _ _ Hok H) H1) as Hb.
    simpl in Hb.
    unfold withBucket, bucketsCapped. simpl. apply Forall_alter; [exact Hok|].
    intros ht0 _ Ht0. apply tableCapped_setBucket; [exact Ht0|].
    rewrite length_app. simpl. lia.
  - unfold withBucket, bucketsCapped. simpl. apply Forall_alter; [exact Hok|].
    intros ht0 _ Ht0. apply tableCapped_setBucket; [exact Ht0|].
    rewrite length_app. simpl in *. lia.
  - unfold withBucket, bucketsCapped. simpl. apply Forall_alter; [exact Hok|].
    intros ht0 _ Ht0. apply tableCapped_setBucket; [exact Ht0|].
    rewrite length_app. simpl in *. lia.
Qed.

Lemma bucketsCapped_bucketInvariant : bucketInvariant bucketsCapped.
Proof.
  split.
  - intros s s' E H.
    change (Forall (Forall (fun b => (length b ≤ routing.MaxContactsInBucket)%nat)
                      ∘ routing.RoutingTable) (tables s)) in H.
    change (Forall (Forall (fun b => (length b ≤ routing.MaxContactsInBucket)%nat)
                      ∘ routing.RoutingTable) (tables s')).
    rewrite <- Forall_fmap in H. rewrite <- Forall_fmap, E. exact H.
  - intros w ctx n s s' Hok H. eapply addNodeStep_bucketsCapped; [|exact Hok].
    apply addNode_inv. exact H.
Qed.

(** An iterative search and the operations of the driver interface keep
    the bound of the buckets: in whatever state [iterate], [Store], [Get],
    [FindNode], [RemoteProcedureCall] or [Bootstrap] ends, by returning or
    by a panic, every bucket of every table holds at most
    [MaxContactsInBucket] entries, if that was so when it began.  The
    senders of all the replies of all the rounds go through [addNode],
    whose every write is to a bucket it has just measured; in Go the
    measure and the write are both under the lock of the table, so the
    bound does not depend on the order in which the goroutines of a round
    run.  That the IDs of a bucket stay distinct is not stated of these
    operations: the membership test of [addNode] comes before the lock. *)
Theorem operations_keep_buckets_capped (w : World) (fuel : nat) (ctx : Context) :
  (forall t target data, preserves bucketsCapped (iterate w fuel ctx t target data))
  /\ (forall data, preserves bucketsCapped (Store w fuel ctx data))
  /\ (forall key, preserves bucketsCapped (Get w fuel ctx key))
  /\ (forall key, preserves bucketsCapped (FindNode w fuel ctx key))
  /\ (forall target method args,
         preserves bucketsCapped (RemoteProcedureCall w fuel ctx target method args))
  /\ preserves bucketsCapped (Bootstrap w fuel).
Proof.
  pose proof bucketsCapped_bucketInvariant as HI.
  split; [intros; apply preserves_iterate, HI|].
  split; [intros; apply preserves_Store, HI|].
  split; [intros; apply preserves_Get, HI|].
  split; [intros; apply preserves_FindNode, HI|].
  split; [intros; apply preserves_RemoteProcedureCall, HI|].
  apply preserves_Bootstrap, HI.
Qed.

Lemma operations_keep_buckets_capped_witness :
  let s := sample.withBucket0 (sample.routePeer <$> seq 1 20) in
  let w := sample.answering
             (message.BuildResponse (sample.peer 21) sample.selfNode message.TypeFindNode
                                    (message.ResponseDataFindNode [sample.peer 22])) in
  bucketsCapped s /\
  exists s', finalState (iterate w 4 sample.ctx0 routing.IterateFindNode
                                 (sample.peerID 30) [] s) = Some s'
             /\ bucketsCapped s'.
Proof.
  intros s w.
  assert (H : bucketsCapped s) by (apply (bool_decide_unpack _); vm_compute; reflexivity).
  split; [exact H|]. eexists. split; [vm_compute; reflexivity|].
  eapply (proj1 (operations_keep_buckets_capped w 4 sample.ctx0)
                routing.IterateFindNode (sample.peerID 30) [] s);
    [exact H | vm_compute; reflexivity].
Defined.

(** One turn of the message loop keeps the bucket invariant, in whatever
    state it ends and whatever the message: the sender of a FindNode,
    FindValue, Store or RPC request goes through [addNode], once, and
    nothing else of the turn writes into a bucket.  From a state whose
    buckets hold at most [MaxContactsInBucket] entries with distinct IDs,
    the turn ends in such a state. *)
Theorem handleMessage_preserves_bucketsOK (w : World) (msg : message.Message) :
  preserves bucketsOK (handleMessage w msg).
Proof. apply preserves_handleMessage, bucketsOK_bucketInvariant. Qed.

Lemma handleMessage_preserves_bucketsOK_witness :
  let s := sample.withBucket0 (sample.routePeer <$> seq 1 20) in
  let msg := message.BuildRequest (sample.peer 21) sample.selfNode message.TypeFindNode
                                  (message.RequestDataFindNode (sample.peerID 3)) in
  bucketsOK s /\
  exists s', finalState (handleMessage sample.silent msg s) = Some s' /\ bucketsOK s'.
Proof.
  intros s msg.
  assert (H : bucketsOK s) by (apply (bool_decide_unpack _); vm_compute; reflexivity).
  split; [exact H|].
  eexists. split; [vm_compute; reflexivity|].
  eapply (handleMessage_preserves_bucketsOK sample.silent msg s);
    [exact H | vm_compute; reflexivity].
Defined.

(** ** What the operations leave alone *)

Lemma framed_storeRetrieve key : framed (storeRetrieve key).
Proof. unfold storeRetrieve. framed_auto. Qed.

Lemma framed_rpcInvoke w sender method args : framed (rpcInvoke w sender method args).
Proof. unfold rpcInvoke. framed_auto. Qed.

Lemma framed_SetNodeByID id : framed (SetNodeByID id).
Proof. unfold SetNodeByID. framed_auto. Qed.

Lemma framed_SetDefaultNode : framed SetDefaultNode.
Proof. unfold SetDefaultNode. framed_auto. Qed.

Lemma framed_NumNodes ctx : framed (NumNodes ctx).
Proof. unfold NumNodes. framed_auto. Qed.

Lemma framed_GetOriginID w ctx : framed (GetOriginID w ctx).
Proof. unfold GetOriginID. framed_auto. Qed.

Lemma framed_randomIDFromBucket w ht bucket : framed (randomIDFromBucket w ht bucket).
Proof. unfold randomIDFromBucket. framed_auto. Qed.

Lemma framed_tableIndices : framed tableIndices.
Proof. unfold tableIndices. framed_auto. Qed.

#[local] Hint Resolve framed_storeRetrieve framed_rpcInvoke framed_SetNodeByID
  framed_SetDefaultNode framed_NumNodes framed_GetOriginID framed_randomIDFromBucket
  framed_tableIndices framed_FindNode : framed.

Lemma framed_Get w fuel ctx key : framed (Get w fuel ctx key).
Proof. unfold Get. framed_auto. Qed.

Lemma framed_RemoteProcedureCall w fuel ctx target method args :
  framed (RemoteProcedureCall w fuel ctx target method args).
Proof. unfold RemoteProcedureCall. framed_auto. Qed.

Lemma framed_bootstrapSeeds w ctx self seeds :
  forall futures, framed (bootstrapSeeds w ctx self seeds futures).
Proof. induction seeds as [|bn rest IH]; intros; simpl; framed_auto. Qed.

Lemma framed_awaitSeeds w futures : framed (awaitSeeds w futures).
Proof. induction futures as [|f rest IH]; simpl; framed_auto. Qed.

#[local] Hint Resolve framed_bootstrapSeeds framed_awaitSeeds : framed.

Lemma framed_seedTables w seeds idxs :
  forall futures, framed (seedTables w seeds idxs futures).
Proof. induction idxs as [|k rest IH]; intros; simpl; framed_auto. Qed.

Lemma framed_rangeTables {A} (body : nat -> routing.HashTable -> M (option A)) idxs :
  (forall k ht, framed (body k ht)) -> framed (rangeTables body idxs).
Proof. intros Hbody. induction idxs as [|k rest IH]; simpl; framed_auto. Qed.

Lemma framed_bootstrapTable w fuel ht : framed (bootstrapTable w fuel ht).
Proof. unfold bootstrapTable. framed_auto. Qed.

#[local] Hint Resolve framed_seedTables framed_bootstrapTable : framed.

Lemma framed_Bootstrap w fuel : framed (Bootstrap w fuel).
Proof.
  unfold Bootstrap. framed_auto.
  apply framed_rangeTables. intros. apply framed_bootstrapTable.
Qed.

Lemma framed_handleMessage w msg :
  message.Type_ msg ≠ message.TypeStore -> framed (handleMessage w msg).
Proof.
  intros Ht. unfold handleMessage. framed_auto.
  destruct (message.Type_ msg); try congruence; simpl;
    unfold processFindNode, processFindValue, processPing, processRPC; framed_auto.
Qed.

Lemma framed_refreshBuckets w fuel ctx k buckets :
  framed (refreshBuckets w fuel ctx k buckets).
Proof. induction buckets as [|i rest IH]; simpl; unfold Now; framed_auto. Qed.

Lemma framed_replicateKeys w fuel ctx keys : framed (replicateKeys w fuel ctx keys).
Proof. induction keys as [|key rest IH]; simpl; framed_auto. Qed.

#[local] Hint Resolve framed_refreshBuckets framed_replicateKeys : framed.

(** The lookups write neither the store nor the options, the origin or
    the clock, and keep every table's origin and number of buckets:
    [iterate], [Get], [FindNode], [RemoteProcedureCall], [Bootstrap], and
    the handling of every inbound message but a Store request. *)
Theorem lookups_leave_the_store (w : World) (fuel : nat) (ctx : Context) :
  (forall t target data, framed (iterate w fuel ctx t target data))
  /\ (forall key, framed (Get w fuel ctx key))
  /\ (forall key, framed (FindNode w fuel ctx key))
  /\ (forall target method args,
         framed (RemoteProcedureCall w fuel ctx target method args))
  /\ framed (Bootstrap w fuel)
  /\ (forall msg, message.Type_ msg ≠ message.TypeStore -> framed (handleMessage w msg)).
Proof.
  split; [intros; apply framed_iterate|].
  split; [intros; apply framed_Get|].
  split; [intros; apply framed_FindNode|].
  split; [intros; apply framed_RemoteProcedureCall|].
  split; [apply framed_Bootstrap|].
  intros msg Ht. apply framed_handleMessage. exact Ht.
Qed.

Lemma lookups_leave_the_store_witness :
  let s := sample.withBucket0 [sample.routePeer 1] in
  let msg := message.BuildRequest (sample.peer 2) sample.selfNode message.TypeFindValue
                                  (message.RequestDataFindValue (sample.peerID 3)) in
  exists s', finalState (handleMessage sample.silent msg s) = Some s'
             /\ frame s s' /\ tables s' ≠ tables s.
Proof.
  intros s msg. eexists. split; [vm_compute; reflexivity|]. split.
  - eapply (proj2 (proj2 (proj2 (proj2 (proj2
              (lookups_leave_the_store sample.silent 3 sample.ctx0))))) msg);
      [vm_compute; discriminate | vm_compute; reflexivity].
  - vm_compute. discriminate.
Defined.

(** [Store] writes one entry into the local store, under the content hash
    of the data and with the publisher mark, before it iterates; whatever
    the iteration does, that is the one change of the store, and the
    options, the origin and the clock are what they were. *)
Theorem Store_writes_one_entry (w : World) (fuel htIdx : nat) (ht : routing.HashTable)
        (data : bytes) (s s' : DHT) :
  tables s !! htIdx = Some ht ->
  finalState (Store w fuel (Some htIdx) data s) = Some s' ->
  exists expiration,
    getExpirationTime (Some htIdx) (NewKey w data) s = Returned expiration s
    /\ store s'
       = <[NewKey w data := store.mkEntry data (clock s + ReplicateTime (options s))
                                          expiration true]> (store s)
    /\ options s' = options s /\ origin s' = origin s /\ clock s' = clock s
    /\ map shape (tables s') = map shape (tables s).
Proof.
  intros Hht H.
  destruct (getExpirationTime_returns htIdx ht (NewKey w data) s Hht) as [d Hd].
  exists d. split; [exact Hd|].
  unfold Store in H. rewrite (bind_run _ _ _ _ _ Hd) in H.
  unfold Now, storeStore, mbind, M_bind, gets, modify, mret, M_ret in H.
  cbn beta iota zeta in H.
  match type of H with
  | context [iterate w fuel (Some htIdx) ?t ?k ?dt ?s0] =>
      pose proof (framed_iterate w fuel (Some htIdx) t k dt s0 s') as Hfr;
      destruct (iterate w fuel (Some htIdx) t k dt s0) as [[[v c] [e|]] s2|why s2|] eqn:Eit;
      simpl in H; try discriminate; injection H as ->;
      destruct (Hfr eq_refl) as [Hst Hop Hor Hcl Hsh]
  end; repeat split; assumption.
Qed.

Lemma Store_writes_one_entry_witness :
  let s := sample.withBucket0 [sample.routePeer 1] in
  let data := [104; 105] in
  exists s' expiration,
    finalState (Store sample.silent 5 sample.ctx0 data s) = Some s'
    /\ store s' = {[ sample.NewKey data := store.mkEntry data (Second * 3600) expiration true ]}.
Proof.
  intros s data.
  destruct (finalState (Store sample.silent 5 sample.ctx0 data s)) as [s'|] eqn:E;
    [|vm_compute in E; discriminate E].
  destruct (Store_writes_one_entry sample.silent 5 0 (sample.table0 [sample.routePeer 1])
              data s s' eq_refl E) as (e & _ & H & _).
  exists s', e. split; [reflexivity | exact H].
Defined.

Lemma responsesOf_app a b : responsesOf (a ++ b) = responsesOf a ++ responsesOf b.
Proof. apply omap_app. Qed.

Lemma not_ready_to_replicate now st key e :
  st !! key = Some e -> store.publisher e = false ->
  key ∉ store.GetKeysReadyToReplicate now st.
Proof.
  intros He Hp Hin. unfold store.GetKeysReadyToReplicate in Hin.
  apply list_elem_of_fmap in Hin as ([k e'] & -> & Hin).
  apply elem_of_map_to_list in Hin.
  apply map_lookup_filter_Some in Hin as [Hl [_ Hpub]]. simpl in *.
  congruence.
Qed.

(** On a well-formed node and with a valid context [addNode] returns, in
    a state that is well-formed, has the table of the context with the
    origin it had, and has no response more in its trace. *)
Lemma addNode_run w htIdx ht n s :
  wellFormed s -> tables s !! htIdx = Some ht ->
  exists s1 ht1,
    addNode w (Some htIdx) n s = Returned tt s1
    /\ frame s s1 /\ wellFormed s1
    /\ tables s1 !! htIdx = Some ht1 /\ routing.Origin ht1 = routing.Origin ht
    /\ responsesOf (trace s1) = responsesOf (trace s).
Proof.
  intros Hs Hht.
  destruct (addNode_returns w htIdx ht n s Hs Hht) as [s1 Hadd].
  assert (Hfr : frame s s1).
  { apply (framed_addNode w (Some htIdx) n s s1). rewrite Hadd. reflexivity. }
  destruct (frame_lookup _ _ _ _ Hfr Hht) as (ht1 & Hht1 & Hshape).
  exists s1, ht1. split; [exact Hadd|]. split; [exact Hfr|].
  split; [exact (frame_wellFormed _ _ Hfr Hs)|]. split; [exact Hht1|].
  split; [unfold shape in Hshape; congruence|].
  destruct (addNode_addNodeStep w (Some htIdx) n s) as (s1' & E & Hstep).
  rewrite Hadd in E. injection E as <-.
  destruct Hstep; try reflexivity;
    unfold withBucket, pinged; simpl;
    rewrite responsesOf_app; simpl; apply app_nil_r.
Qed.

(** The run of the handler of an inbound Store request. *)
Lemma processStore_run w htIdx ht msg messageBuilder data s :
  wellFormed s ->
  tables s !! htIdx = Some ht ->
  message.Data msg = message.RequestDataStore data ->
  exists s1 s' expiration,
    addNode w (Some htIdx) (routing.NewRouteNode (message.Sender msg)) s = Returned tt s1
    /\ processStore w (Some htIdx) msg messageBuilder s = Returned tt s'
    /\ s' = record (transport.EvStore (NewKey w data))
                   (setStore (<[NewKey w data :=
                                  store.mkEntry data (clock s + ReplicateTime (options s))
                                                expiration false]> (store s)) s1).
Proof.
  intros Hs Hht Hdata.
  destruct (addNode_run w htIdx ht (routing.NewRouteNode (message.Sender msg)) s Hs Hht)
    as (s1 & ht1 & Hadd & Hfr & _ & Hht1 & _ & _).
  destruct (getExpirationTime_returns htIdx ht1 (NewKey w data) s1 Hht1) as [d Hd].
  destruct Hfr as [Hst Hop _ Hcl _].
  exists s1. eexists. exists d. split; [exact Hadd|].
  unfold processStore. rewrite Hdata.
  rewrite (bind_run _ _ _ _ _ Hadd). rewrite (bind_run _ _ _ _ _ Hd).
  unfold Now, storeStore, mbind, M_bind, gets, modify, mret, M_ret.
  cbn beta iota zeta. unfold store.Store. rewrite Hst, Hop, Hcl.
  split; reflexivity.
Qed.

(** The handler of an inbound Store request, on a well-formed node: it
    returns, having written the data into the local store under its content
    hash with the publisher mark off, so that the replication of this node
    never lists the key; it sends no response. *)
Theorem processStore_stores_unpublished (w : World) (htIdx : nat)
        (ht : routing.HashTable) (msg : message.Message) (messageBuilder : Builder)
        (data : bytes) (s : DHT) :
  wellFormed s ->
  tables s !! htIdx = Some ht ->
  message.Data msg = message.RequestDataStore data ->
  exists s' expiration,
    processStore w (Some htIdx) msg messageBuilder s = Returned tt s'
    /\ store s'
       = <[NewKey w data := store.mkEntry data (clock s + ReplicateTime (options s))
                                          expiration false]> (store s)
    /\ (forall now, NewKey w data ∉ store.GetKeysReadyToReplicate now (store s'))
    /\ responsesOf (trace s') = responsesOf (trace s).
Proof.
  intros Hs Hht Hdata.
  destruct (processStore_run w htIdx ht msg messageBuilder data s Hs Hht Hdata)
    as (s1 & s' & d & Hadd & E & ->).
  destruct (addNode_run w htIdx ht (routing.NewRouteNode (message.Sender msg)) s Hs Hht)
    as (s1' & ht1 & Hadd' & _ & _ & _ & _ & Htr).
  rewrite Hadd in Hadd'. injection Hadd' as <-.
  eexists. exists d. split; [exact E|]. split; [reflexivity|]. split.
  - intros now. eapply not_ready_to_replicate; [apply lookup_insert_eq | reflexivity].
  - simpl. rewrite responsesOf_app. simpl. rewrite app_nil_r. exact Htr.
Qed.

Lemma processStore_stores_unpublished_witness :
  let s := sample.withBucket0 [sample.routePeer 1] in
  let msg := message.BuildRequest (sample.peer 2) sample.selfNode message.TypeStore
                                  (message.RequestDataStore [104; 105]) in
  exists s', processStore sample.silent sample.ctx0 msg
                          (message.BuildResponse sample.selfNode (sample.peer 2)
                                                 message.TypeStore) s
             = Returned tt s'
             /\ sample.NewKey [104; 105] ∉ store.GetKeysReadyToReplicate (Second * 7200) (store s').
Proof.
  intros s msg.
  destruct (processStore_stores_unpublished
              sample.silent 0 (sample.table0 [sample.routePeer 1]) msg
              (message.BuildResponse sample.selfNode (sample.peer 2) message.TypeStore)
              [104; 105] s) as (s' & e & E & _ & H & _).
  - unfold wellFormed. apply (bool_decide_unpack _). vm_compute. reflexivity.
  - reflexivity.
  - reflexivity.
  - exists s'. split; [exact E | apply H].
Defined.

Lemma bind_cases {A B} (m : M A) (f : A -> M B) (s : DHT) (o : Outcome B) :
  (m ≫= f) s = o ->
  (exists a s1, m s = Returned a s1 /\ f a s1 = o)
  \/ (exists why s1, m s = Panicked why s1 /\ o = Panicked why s1)
  \/ (m s = OutOfFuel /\ o = OutOfFuel).
Proof.
  unfold mbind, M_bind. destruct (m s) as [a s1|why s1|]; intros <-.
  - left. exists a, s1. split; reflexivity.
  - right. left. exists why, s1. split; reflexivity.
  - right. right. split; reflexivity.
Qed.

(** One step of the inversion of a run: the first action returned, or the
    run ended with it. *)
Ltac bind_inv H :=
  let a := fresh "a" in
  let s1 := fresh "s" in
  let E := fresh "E" in
  apply bind_cases in H as [(a & s1 & E & H)|[(? & ? & E & H)|[E H]]];
  [ | first [discriminate E | discriminate H | idtac]
    | first [discriminate E | discriminate H | idtac] ].

(** One tick of the timers only takes entries out of the store.  The
    refresh and the replication write nothing into it, and the sweep at
    the end only removes: an entry the store holds after a tick that
    returns, it held when the tick began, with the same value and
    deadlines, and its deadline had not come when the tick began.  A tick
    that ends in a panic has not swept, and leaves the store as it was.
    Which of the entries whose deadline comes while the tick runs are
    removed depends on the time the tick takes, and is not stated. *)
Theorem handleStoreTimersTick_only_removes (w : World) (fuel : nat) (s : DHT) :
  match handleStoreTimersTick w fuel s with
  | Returned _ s' =>
      forall key e, store s' !! key = Some e ->
                    store s !! key = Some e /\ clock s < store.expiration e
  | Panicked _ s' => store s' = store s
  | OutOfFuel => True
  end.
Proof.
  destruct (handleStoreTimersTick w fuel s) as [u s'|why s'|] eqn:H; [| |exact I];
    unfold handleStoreTimersTick, Now in H;
    bind_inv H; injection E as <- <-;
    bind_inv H; injection E as <- <-;
    bind_inv H; injection E as <- <-;
    bind_inv H; injection E as <- <-.
  - bind_inv H.
    injection H as <- <-.
      match type of E with
      | rangeTables ?body ?idxs ?s0 = Returned _ ?s2 =>
          assert (Hfr : framed (rangeTables body idxs))
            by (apply framed_rangeTables; intros; framed_auto);
          specialize (Hfr s0 s2); rewrite E in Hfr; specialize (Hfr eq_refl)
      end.
      destruct Hfr as [Hst _ _ Hcl _]. simpl in Hst, Hcl. simpl.
      rewrite Hst, Hcl.
      intros key e He. apply map_lookup_filter_Some in He as [He1 He2].
      split; [exact He1 | exact He2].
  - bind_inv H.
    + discriminate H.
    + injection H as <- <-.
      match type of E with
      | rangeTables ?body ?idxs ?s0 = Panicked _ ?s2 =>
          assert (Hfr : framed (rangeTables body idxs))
            by (apply framed_rangeTables; intros; framed_auto);
          specialize (Hfr s0 s2); rewrite E in Hfr; specialize (Hfr eq_refl)
      end.
      destruct Hfr as [Hst _ _ _ _]. exact Hst.
Qed.

(** ** What the engine sends *)

Lemma emits_ret {A} P (a : A) : emits P (mret a).
Proof. intros s s' [= <-]. exists []. rewrite app_nil_r. split; [reflexivity|constructor]. Qed.

Lemma emits_panic {A} P why : emits P (@panic A why).
Proof. intros s s' [= <-]. exists []. rewrite app_nil_r. split; [reflexivity|constructor]. Qed.

Lemma emits_outOfFuel {A} P : emits P (@outOfFuel A).
Proof. intros s s' [=]. Qed.

Lemma emits_gets {A} P (f : DHT -> A) : emits P (gets f).
Proof. intros s s' [= <-]. exists []. rewrite app_nil_r. split; [reflexivity|constructor]. Qed.

Lemma emits_bind {A B} P (m : M A) (f : A -> M B) :
  emits P m -> (forall a, emits P (f a)) -> emits P (m ≫= f).
Proof.
  intros Hm Hf s s' H.
  destruct (bind_final _ _ _ _ H) as [(a & s1 & E1 & E2)|[why E]].
  - destruct (Hm s s1) as (d1 & T1 & F1); [rewrite E1; reflexivity|].
    destruct (Hf a s1 s' E2) as (d2 & T2 & F2).
    exists (d1 ++ d2). split; [rewrite T2, T1, app_assoc; reflexivity|].
    apply Forall_app. split; assumption.
  - apply Hm. rewrite E. reflexivity.
Qed.

Lemma emits_silent P (f : DHT -> DHT) :
  (forall s, trace (f s) = trace s) -> emits P (modify f).
Proof.
  intros Hf s s' [= <-]. exists []. rewrite app_nil_r. split; [apply Hf|constructor].
Qed.

Lemma emits_record P e : P e -> emits P (modify (record e)).
Proof.
  intros He s s' [= <-]. exists [e]. split; [reflexivity|].
  constructor; [exact He|constructor].
Qed.

Lemma emits_weaken {A} (P Q : transport.Event -> Prop) (m : M A) :
  (forall e, P e -> Q e) -> emits P m -> emits Q m.
Proof.
  intros HPQ Hm s s' H. destruct (Hm s s' H) as (d & T & F).
  exists d. split; [exact T|]. eapply Forall_impl; eassumption.
Qed.

Lemma emits_SendRequest w P msg :
  (forall f ok, P (transport.EvSendRequest f msg ok)) -> emits P (SendRequest w msg).
Proof.
  intros HP s s' H. unfold SendRequest, mbind, M_bind, gets, modify in H.
  exists [transport.EvSendRequest (sent s) msg (negb (sendFails w (sent s) msg))].
  split; [|constructor; [apply HP|constructor]].
  destruct (sendFails w (sent s) msg); injection H as <-; reflexivity.
Qed.

Lemma emits_addNode w P ctx n :
  (forall f m ok, message.Type_ m = message.TypePing -> P (transport.EvSendRequest f m ok)) ->
  emits P (addNode w ctx n).
Proof.
  intros HP s s' H. apply addNode_inv in H.
  destruct H;
    try (exists []; rewrite app_nil_r; split; [reflexivity|constructor]);
    (eexists; split; [reflexivity|]; constructor; [apply HP; reflexivity|constructor]).
Qed.

Create HintDb emits.
#[local] Hint Resolve emits_ret emits_panic emits_outOfFuel emits_gets : emits.
#[local] Hint Extern 2 (emits _ (modify (record _))) =>
  apply emits_record; simpl; auto : emits.
#[local] Hint Extern 3 (emits _ (modify _)) =>
  apply emits_silent; intros; reflexivity : emits.
#[local] Hint Extern 2 (emits _ (updateTable _ _)) =>
  apply emits_silent; intros; reflexivity : emits.

Ltac emits_step :=
  match goal with
  | |- emits _ (_ ≫= _) =>
      apply emits_bind;
      [ | intros ?; repeat match goal with x : (_ * _)%type |- _ => destruct x end;
          cbv beta iota zeta ]
  | |- emits _ (match ?x with _ => _ end) => destruct x
  | |- emits _ _ => solve [auto with emits]
  end.

Ltac emits_auto := repeat emits_step.

Lemma emits_htFromCtx P ctx : emits P (htFromCtx ctx).
Proof. unfold htFromCtx. emits_auto. Qed.

Lemma emits_SetNodeByID P id : emits P (SetNodeByID id).
Proof. unfold SetNodeByID. emits_auto. Qed.

Lemma emits_SetDefaultNode P : emits P SetDefaultNode.
Proof. unfold SetDefaultNode. emits_auto. Qed.

Lemma emits_tableIndices P : emits P tableIndices.
Proof. unfold tableIndices. emits_auto. Qed.

#[local] Hint Resolve emits_htFromCtx emits_SetNodeByID emits_SetDefaultNode
  emits_tableIndices : emits.

Lemma emits_getExpirationTime P ctx key : emits P (getExpirationTime ctx key).
Proof. unfold getExpirationTime, Now. emits_auto. Qed.

Lemma emits_NumNodes P ctx : emits P (NumNodes ctx).
Proof. unfold NumNodes. emits_auto. Qed.

Lemma emits_GetOriginID w P ctx : emits P (GetOriginID w ctx).
Proof. unfold GetOriginID. emits_auto. Qed.

Lemma emits_randomIDFromBucket w P ht bucket : emits P (randomIDFromBucket w ht bucket).
Proof. unfold randomIDFromBucket. emits_auto. Qed.

#[local] Hint Resolve emits_getExpirationTime emits_NumNodes emits_GetOriginID
  emits_randomIDFromBucket : emits.

(** *** Requests by type *)

Lemma onlyRequests_mono a b e :
  a ⊆ b -> onlyRequests a e -> onlyRequests b e.
Proof. intros Hab. destruct e; simpl; auto. Qed.

Lemma emits_onlyRequests_addNode w allowed ctx n :
  message.TypePing ∈ allowed -> emits (onlyRequests allowed) (addNode w ctx n).
Proof. intros H. apply emits_addNode. intros f m ok Hm. simpl. rewrite Hm. exact H. Qed.

Lemma emits_onlyRequests_SendRequest w allowed msg :
  message.Type_ msg ∈ allowed -> emits (onlyRequests allowed) (SendRequest w msg).
Proof. intros H. apply emits_SendRequest. intros f ok. exact H. Qed.

Lemma emits_onlyRequests_Cancel allowed f : emits (onlyRequests allowed) (Cancel f).
Proof. unfold Cancel. emits_auto. Qed.

(** Membership in, and inclusion of, lists that are written out. *)
Ltac list_elem :=
  solve [repeat first [apply list_elem_of_here | apply list_elem_of_further]].

Ltac list_subset :=
  let x := fresh "x" in
  let Hx := fresh "Hx" in
  intros x Hx;
  repeat (apply elem_of_cons in Hx as [->|Hx]; [list_elem|]);
  apply elem_of_nil in Hx; destruct Hx.

Lemma queryType_requestTypes t : queryType t ∈ requestTypes t.
Proof. destruct t; simpl; list_elem. Qed.

Lemma Ping_requestTypes t : message.TypePing ∈ requestTypes t.
Proof. destruct t; simpl; list_elem. Qed.

Lemma requestFor_type t self receiver target :
  message.Type_ (requestFor t self receiver target) = queryType t.
Proof. destruct t; reflexivity. Qed.

#[local] Hint Resolve emits_onlyRequests_Cancel : emits.
#[local] Hint Extern 1 (emits (onlyRequests _) (addNode _ _ _)) =>
  apply emits_onlyRequests_addNode;
  first [apply Ping_requestTypes | list_elem] : emits.
#[local] Hint Extern 1 (emits (onlyRequests _) (SendRequest _ _)) =>
  apply emits_onlyRequests_SendRequest;
  first [rewrite requestFor_type; apply queryType_requestTypes | simpl; list_elem] : emits.

Lemma emits_sendQueries w t target self queryRest receivers :
  forall i contacted remove futures,
    emits (onlyRequests (requestTypes t))
          (sendQueries w t target self queryRest i receivers contacted remove futures).
Proof. induction receivers as [|r rest IH]; intros; simpl; emits_auto. Qed.

Lemma emits_awaitFutures w t ctx futures :
  emits (onlyRequests (requestTypes t)) (awaitFutures w ctx futures).
Proof. induction futures as [|f rest IH]; simpl; emits_auto. Qed.

Lemma emits_processResults P t target results :
  forall routeSet, emits P (processResults t target results routeSet).
Proof. induction results as [|r rest IH]; intros; simpl; emits_auto. Qed.

Lemma emits_storeFanOut w self data receivers :
  forall i, emits (onlyRequests (requestTypes routing.IterateStore))
                  (storeFanOut w self data i receivers).
Proof. induction receivers as [|r rest IH]; intros; simpl; emits_auto. Qed.

#[local] Hint Resolve emits_sendQueries emits_awaitFutures emits_processResults
  emits_storeFanOut : emits.

Lemma emits_iterateLoop w fuel ctx t target data self :
  forall routeSet contacted queryRest closestNode remove,
    emits (onlyRequests (requestTypes t))
          (iterateLoop w fuel ctx t target data self routeSet contacted queryRest
                       closestNode remove).
Proof. induction fuel as [|fuel IH]; intros; simpl; emits_auto. Qed.
#[local] Hint Resolve emits_iterateLoop : emits.

Lemma emits_iterate w fuel ctx t target data :
  emits (onlyRequests (requestTypes t)) (iterate w fuel ctx t target data).
Proof. unfold iterate, Now. emits_auto. Qed.

Lemma emits_storeRetrieve key : emits (onlyRequests []) (storeRetrieve key).
Proof. unfold storeRetrieve. emits_auto. Qed.

Lemma emits_storeStore_event P key data repl exp pub :
  P (transport.EvStore key) -> emits P (storeStore key data repl exp pub).
Proof.
  intros HP. unfold storeStore. emits_auto.
  intros s s' [= <-]. exists [transport.EvStore key]. split; [reflexivity|].
  constructor; [exact HP|constructor].
Qed.

Lemma emits_storeStore key data repl exp pub :
  emits (onlyRequests []) (storeStore key data repl exp pub).
Proof. apply emits_storeStore_event. exact I. Qed.

Lemma emits_rpcInvoke w sender method args :
  emits (onlyRequests []) (rpcInvoke w sender method args).
Proof. unfold rpcInvoke. emits_auto. Qed.

Lemma emits_onlyRequests_mono {A} a b (m : M A) :
  a ⊆ b -> emits (onlyRequests a) m -> emits (onlyRequests b) m.
Proof. intros Hab. apply emits_weaken. intros e. apply onlyRequests_mono, Hab. Qed.

#[local] Hint Extern 1 (emits (onlyRequests _) (storeRetrieve _)) =>
  eapply emits_onlyRequests_mono; [|apply emits_storeRetrieve]; list_subset : emits.
#[local] Hint Extern 1 (emits (onlyRequests _) (storeStore _ _ _ _ _)) =>
  eapply emits_onlyRequests_mono; [|apply emits_storeStore]; list_subset : emits.
#[local] Hint Extern 1 (emits (onlyRequests _) (rpcInvoke _ _ _ _)) =>
  eapply emits_onlyRequests_mono; [|apply emits_rpcInvoke]; list_subset : emits.
#[local] Hint Extern 1 (emits (onlyRequests _) (iterate _ _ _ ?t _ _)) =>
  eapply emits_onlyRequests_mono; [|apply emits_iterate]; simpl; list_subset : emits.

Lemma emits_Get w fuel ctx key :
  emits (onlyRequests [message.TypePing; message.TypeFindValue]) (Get w fuel ctx key).
Proof. unfold Get. emits_auto. Qed.

Lemma emits_FindNode w fuel ctx key :
  emits (onlyRequests [message.TypePing; message.TypeFindNode]) (FindNode w fuel ctx key).
Proof. unfold FindNode, findNodeIterating. emits_auto. Qed.

Lemma emits_Store w fuel ctx data :
  emits (onlyRequests [message.TypePing; message.TypeFindNode; message.TypeStore])
        (Store w fuel ctx data).
Proof. unfold Store, Now. emits_auto. Qed.

#[local] Hint Extern 1 (emits (onlyRequests _) (FindNode _ _ _ _)) =>
  eapply emits_onlyRequests_mono; [|apply emits_FindNode]; list_subset : emits.

Lemma emits_RemoteProcedureCall w fuel ctx target method args :
  emits (onlyRequests [message.TypePing; message.TypeFindNode; message.TypeRPC])
        (RemoteProcedureCall w fuel ctx target method args).
Proof. unfold RemoteProcedureCall. emits_auto. Qed.

Lemma emits_bootstrapSeeds w ctx self seeds :
  forall futures,
    emits (onlyRequests [message.TypePing; message.TypeFindNode])
          (bootstrapSeeds w ctx self seeds futures).
Proof. induction seeds as [|bn rest IH]; intros; simpl; emits_auto. Qed.

Lemma emits_awaitSeeds w futures :
  emits (onlyRequests [message.TypePing; message.TypeFindNode]) (awaitSeeds w futures).
Proof. induction futures as [|f rest IH]; simpl; emits_auto. Qed.

#[local] Hint Resolve emits_bootstrapSeeds emits_awaitSeeds : emits.

Lemma emits_seedTables w seeds idxs :
  forall futures,
    emits (onlyRequests [message.TypePing; message.TypeFindNode])
          (seedTables w seeds idxs futures).
Proof. induction idxs as [|k rest IH]; intros; simpl; emits_auto. Qed.

Lemma emits_rangeTables {A} P (body : nat -> routing.HashTable -> M (option A)) idxs :
  (forall k ht, emits P (body k ht)) -> emits P (rangeTables body idxs).
Proof. intros Hbody. induction idxs as [|k rest IH]; simpl; emits_auto. Qed.

Lemma emits_bootstrapTable w fuel ht :
  emits (onlyRequests [message.TypePing; message.TypeFindNode]) (bootstrapTable w fuel ht).
Proof. unfold bootstrapTable. emits_auto. Qed.

#[local] Hint Resolve emits_seedTables emits_bootstrapTable : emits.

Lemma emits_Bootstrap w fuel :
  emits (onlyRequests [message.TypePing; message.TypeFindNode]) (Bootstrap w fuel).
Proof.
  unfold Bootstrap. emits_auto.
  apply emits_rangeTables. intros. apply emits_bootstrapTable.
Qed.

(** What the operations of the driver interface send, in whatever state
    they end: no response, and no request but pings and FindValue queries
    for [Get], FindNode queries for [FindNode] and [Bootstrap], FindNode
    queries and Store requests for [Store], FindNode queries and the RPC
    request for [RemoteProcedureCall]. *)
Theorem operations_send_their_own_requests (w : World) (fuel : nat) (ctx : Context) :
  (forall key,
      emits (onlyRequests [message.TypePing; message.TypeFindValue]) (Get w fuel ctx key))
  /\ (forall key,
         emits (onlyRequests [message.TypePing; message.TypeFindNode])
               (FindNode w fuel ctx key))
  /\ (forall data,
         emits (onlyRequests [message.TypePing; message.TypeFindNode; message.TypeStore])
               (Store w fuel ctx data))
  /\ (forall target method args,
         emits (onlyRequests [message.TypePing; message.TypeFindNode; message.TypeRPC])
               (RemoteProcedureCall w fuel ctx target method args))
  /\ emits (onlyRequests [message.TypePing; message.TypeFindNode]) (Bootstrap w fuel).
Proof.
  split; [intros; apply emits_Get|].
  split; [intros; apply emits_FindNode|].
  split; [intros; apply emits_Store|].
  split; [intros; apply emits_RemoteProcedureCall|].
  apply emits_Bootstrap.
Qed.

Lemma operations_send_their_own_requests_witness :
  let s := sample.withBucket0 [sample.routePeer 1] in
  exists s' d,
    finalState (Get sample.silent 4 sample.ctx0 (base58.Encode (sample.peerID 7)) s) = Some s'
    /\ trace s' = trace s ++ d
    /\ Forall (onlyRequests [message.TypePing; message.TypeFindValue]) d
    /\ d ≠ [].
Proof.
  intros s.
  destruct (finalState (Get sample.silent 4 sample.ctx0 (base58.Encode (sample.peerID 7)) s))
    as [s'|] eqn:E; [|vm_compute in E; discriminate E].
  destruct (proj1 (operations_send_their_own_requests sample.silent 4 sample.ctx0)
                  (base58.Encode (sample.peerID 7)) s s' E) as (d & T & F).
  exists s', d. split; [reflexivity|]. split; [exact T|]. split; [exact F|].
  intros ->. vm_compute in E. injection E as <-. vm_compute in T. discriminate T.
Defined.

(** What the handling of an inbound message leaves in the trace, in
    whatever state it ends: a response goes to the sender of the message,
    under the request-ID and with the type of the message, and never
    answers a Store request; the only request is the ping of [addNode];
    the store is written for a Store request only, read for a FindValue
    request only, and the registry of remote procedures is called for an
    RPC request only, with the sender of the message; no iteration is
    started. *)
Theorem handleMessage_answers_the_sender (w : World) (msg : message.Message) (s s' : DHT) :
  finalState (handleMessage w msg s) = Some s' ->
  exists d, trace s' = trace s ++ d /\ Forall (handlerEvent msg) d.
Proof.
  revert s s'. change (emits (handlerEvent msg) (handleMessage w msg)).
  pose proof (emits_addNode w (handlerEvent msg)) as Hadd.
  unfold handleMessage. emits_auto.
  destruct (message.Type_ msg) eqn:Et; simpl;
    unfold processFindNode, processFindValue, processStore, processPing, processRPC,
           storeRetrieve, rpcInvoke, SendResponse, Now;
    emits_auto;
    try (apply Hadd; intros; assumption);
    try (apply emits_storeStore_event; exact Et);
    try (apply emits_record; simpl; rewrite ?Et; repeat split; congruence).
Qed.

Lemma handleMessage_answers_the_sender_witness :
  let s := sample.withBucket0 (sample.routePeer <$> seq 1 20) in
  let msg := message.mkMessage (sample.peer 21) sample.selfNode message.TypeFindValue
                               [7; 7] (message.RequestDataFindValue (sample.peerID 3))
                               None false in
  exists s' d, finalState (handleMessage sample.silent msg s) = Some s'
               /\ trace s' = trace s ++ d /\ Forall (handlerEvent msg) d
               /\ length d = 3%nat.
Proof.
  intros s msg.
  destruct (finalState (handleMessage sample.silent msg s)) as [s'|] eqn:E;
    [|vm_compute in E; discriminate E].
  destruct (handleMessage_answers_the_sender sample.silent msg s s' E) as (d & T & F).
  exists s', d. split; [reflexivity|]. split; [exact T|]. split; [exact F|].
  vm_compute in E. injection E as <-. simpl in T.
  apply (f_equal length) in T. simpl in T. lia.
Defined.

(** ** What the engine returns *)

Lemma returns_ret {A} (Q : A -> Prop) a : Q a -> returns Q (mret a).
Proof. intros H s a' s' [= <- _]. exact H. Qed.

Lemma returns_panic {A} (Q : A -> Prop) why : returns Q (panic why).
Proof. intros s a s' [=]. Qed.

Lemma returns_outOfFuel {A} (Q : A -> Prop) : returns Q outOfFuel.
Proof. intros s a s' [=]. Qed.

Lemma returns_bind {A B} (R : A -> Prop) (Q : B -> Prop) (m : M A) (f : A -> M B) :
  returns R m -> (forall a, R a -> returns Q (f a)) -> returns Q (m ≫= f).
Proof.
  intros Hm Hf s b s' H. apply bind_Returned in H as (a & s1 & E1 & E2).
  eapply Hf; [eapply Hm; exact E1 | exact E2].
Qed.

Lemma returns_any {A} (m : M A) : returns (fun _ => True) m.
Proof. intros s a s' _. exact I. Qed.

Lemma returns_processResults t target results :
  forall routeSet,
    returns (fun r => match r with
                      | Done value closest => iterateResult t (value, closest, None)
                      | Continue _ => True
                      end)
            (processResults t target results routeSet).
Proof.
  induction results as [|r rest IH]; intros routeSet; simpl.
  - apply returns_ret. exact I.
  - destruct (message.Error r); [apply IH|].
    destruct t; destruct (message.Data r); try apply returns_panic;
      try (case_bool_decide; [apply returns_ret; split; [reflexivity|];
                              intros [v Hv]; discriminate Hv
                             | apply IH]).
    destruct Value; [|apply IH].
    apply returns_ret. split; [reflexivity|]. intros _. split; reflexivity.
Qed.

Lemma iterateResult_nothing t closest : iterateResult t (None, closest, None).
Proof. split; [reflexivity|]. intros [v Hv]. discriminate Hv. Qed.

Lemma returns_iterateLoop w fuel ctx t target data self :
  forall routeSet contacted queryRest closestNode remove,
    returns (iterateResult t)
            (iterateLoop w fuel ctx t target data self routeSet contacted queryRest
                         closestNode remove).
Proof.
  induction fuel as [|fuel IH]; intros; simpl; [apply returns_outOfFuel|].
  eapply returns_bind; [apply returns_any|]. intros [[c r] f] _.
  eapply returns_bind; [apply returns_any|]. intros results _.
  eapply returns_bind.
  { instantiate (1 := fun r => match r with
                               | Done value closest => iterateResult t (value, closest, None)
                               | Continue _ => True
                               end).
    case_bool_decide; [apply returns_processResults | apply returns_ret; exact I]. }
  intros [rs|value closest] Hr; [|apply returns_ret; exact Hr].
  destruct (negb queryRest && bool_decide (routing.Len rs = 0%nat));
    [apply returns_ret, iterateResult_nothing|].
  destruct (routing.FirstNode (routing.Sort rs)); [|apply returns_panic].
  destruct (bytes_eqb _ _ || queryRest); [|apply IH].
  destruct t.
  - eapply returns_bind; [apply returns_any|]. intros _ _.
    apply returns_ret, iterateResult_nothing.
  - destruct (negb queryRest); [apply IH | apply returns_ret, iterateResult_nothing].
  - apply returns_ret, iterateResult_nothing.
  - apply returns_ret, iterateResult_nothing.
Qed.

Lemma returns_iterate w fuel ctx t target data :
  returns (iterateResult t) (iterate w fuel ctx t target data).
Proof.
  unfold iterate.
  eapply returns_bind; [apply returns_any|]. intros _ _.
  eapply returns_bind; [apply returns_any|]. intros [htIdx ht] _. cbv beta iota zeta.
  case_bool_decide; [apply returns_ret, iterateResult_nothing|].
  destruct (routing.FirstNode _); [|apply returns_panic].
  eapply returns_bind; [apply returns_any|]. intros _ _.
  apply returns_iterateLoop.
Qed.

(** [iterate] never returns an error: its third result is always nil.
    It returns a value for a FindValue only, and then without nodes. *)
Theorem iterate_returns_no_error (w : World) (fuel : nat) (ctx : Context)
        (t : routing.IterateType) (target data : bytes) (s s' : DHT)
        (value : option bytes) (closest : list node.Node) (err : option string) :
  iterate w fuel ctx t target data s = Returned (value, closest, err) s' ->
  err = None /\ (is_Some value -> t = routing.IterateFindValue /\ closest = []).
Proof. intros H. exact (returns_iterate w fuel ctx t target data s _ s' H). Qed.

Lemma iterate_returns_no_error_witness :
  let s := sample.withBucket0 [sample.routePeer 1] in
  let w := sample.answering
             (message.BuildResponse (sample.peer 1) sample.selfNode message.TypeFindValue
                                    (message.ResponseDataFindValue [sample.peer 2]
                                                                   (Some [42]))) in
  exists s', iterate w 4 sample.ctx0 routing.IterateFindValue (sample.peerID 9) [] s
             = Returned (Some [42], [], None) s'.
Proof.
  intros s w.
  destruct (iterate w 4 sample.ctx0 routing.IterateFindValue (sample.peerID 9) [] s)
    as [[[v c] e] s'| |] eqn:E; [|vm_compute in E; discriminate E..].
  destruct (iterate_returns_no_error w 4 sample.ctx0 routing.IterateFindValue
              (sample.peerID 9) [] s s' v c e E) as [-> Hv].
  assert (Hval : v = Some [42]) by (vm_compute in E; congruence).
  subst v. destruct (Hv (ex_intro _ _ eq_refl)) as [_ ->].
  exists s'. reflexivity.
Defined.

(** What [Get] returns.  A value that is returned comes with [exists]
    true; [exists] is true only with a value or for a key the store of the
    node holds (what the store hands back for a key it holds is returned
    as it is); and the only error is that of a key of the wrong length,
    which comes with no value, with [exists] false, and leaves the node as
    it was. *)
Theorem Get_returns (w : World) (fuel : nat) (ctx : Context) (key : string)
        (s s' : DHT) (value : option bytes) (exists_ : bool) (err : option string) :
  Get w fuel ctx key s = Returned (value, exists_, err) s' ->
  (is_Some value -> exists_ = true)
  /\ (exists_ = true -> is_Some value \/ is_Some (store s !! Decode w key))
  /\ (err = None
      \/ (err = Some "invalid key"%string /\ value = None /\ exists_ = false /\ s' = s
          /\ length (Decode w key) ≠ routing.MaxContactsInBucket)).
Proof.
  unfold Get. case_bool_decide as Hlen.
  - unfold mret, M_ret; intros [= <- <- <- <-].
    split; [intros [? [=]]|]. split; [intros [=]|].
    right. split_and!; [reflexivity..|exact Hlen].
  - intros H. bind_inv H. destruct a as [v|].
    + unfold mret, M_ret in H; injection H as <- <- <- <-.
      split; [reflexivity|]. split; [|left; reflexivity].
      intros _. left. eexists. reflexivity.
    + bind_inv H. destruct a as [[v c] e].
      destruct (returns_iterate _ _ _ _ _ _ _ _ _ E0) as [He _]. simpl in He. subst e.
      unfold mret, M_ret in H; injection H as <- <- <- <-.
      split; [intros Hv; apply bool_decide_eq_true_2, Hv|].
      split; [|left; reflexivity].
      intros Hx. left. apply bool_decide_eq_true_1 in Hx. exact Hx.
Qed.

Lemma Get_returns_witness :
  let s := sample.withBucket0 [sample.routePeer 1] in
  let w := sample.answering
             (message.BuildResponse (sample.peer 1) sample.selfNode message.TypeFindValue
                                    (message.ResponseDataFindValue [] (Some [42]))) in
  exists s', Get w 4 sample.ctx0 (base58.Encode (sample.peerID 9)) s
             = Returned (Some [42], true, None) s'.
Proof.
  intros s w.
  destruct (Get w 4 sample.ctx0 (base58.Encode (sample.peerID 9)) s)
    as [[[v x] e] s'| |] eqn:E; [|vm_compute in E; discriminate E..].
  destruct (Get_returns w 4 sample.ctx0 (base58.Encode (sample.peerID 9)) s s' v x e E)
    as (Hx & _ & He).
  assert (Hval : v = Some [42] /\ e = None) by (vm_compute in E; split; congruence).
  destruct Hval as [-> ->]. rewrite (Hx (ex_intro _ _ eq_refl)). exists s'. reflexivity.
Defined.

(** What [FindNode] returns: [exists] tells whether a node is returned, a
    node that is returned bears the ID the key decodes to, and the only
    error is that of a key of the wrong length, which leaves the node as it
    was. *)
Theorem FindNode_returns (w : World) (fuel : nat) (ctx : Context) (key : string)
        (s s' : DHT) (found : option node.Node) (exists_ : bool) (err : option string) :
  FindNode w fuel ctx key s = Returned (found, exists_, err) s' ->
  exists_ = bool_decide (is_Some found)
  /\ (forall n, found = Some n ->
                node.ID n = Decode w key
                /\ length (node.ID n) = routing.MaxContactsInBucket)
  /\ (err = None
      \/ (err = Some "invalid key"%string /\ found = None /\ s' = s
          /\ length (Decode w key) ≠ routing.MaxContactsInBucket)).
Proof.
  assert (Heqb : forall a b, bytes_eqb a b = true -> a = b).
  { intros a b H. unfold bytes_eqb in H. apply bool_decide_eq_true in H. exact H. }
  assert (Hiter : forall s0,
             findNodeIterating w fuel ctx (Decode w key) s0 = Returned (found, exists_, err) s' ->
             exists_ = bool_decide (is_Some found)
             /\ (forall n, found = Some n -> node.ID n = Decode w key) /\ err = None).
  { intros s0 H. unfold findNodeIterating in H. bind_inv H. destruct a as [[v c] e].
    destruct (returns_iterate _ _ _ _ _ _ _ _ _ E) as [He _]. simpl in He. subst e.
    destruct c as [|c0 c].
    - unfold mret, M_ret in H; injection H as <- <- <- <-. repeat split. intros n [=].
    - destruct (bytes_eqb (node.ID c0) (Decode w key)) eqn:Eq.
      + unfold mret, M_ret in H; injection H as <- <- <- <-. repeat split. intros n [= <-]. apply Heqb, Eq.
      + unfold mret, M_ret in H; injection H as <- <- <- <-. repeat split. intros n [=]. }
  unfold FindNode.
  destruct (decide (length (Decode w key) ≠ routing.MaxContactsInBucket)) as [Hlen|Hlen];
    [rewrite bool_decide_eq_true_2 by exact Hlen
    |rewrite bool_decide_eq_false_2 by exact Hlen].
  - unfold mret, M_ret; intros [= <- <- <- <-]. split; [reflexivity|]. split; [intros n [=]|].
    right. repeat split. exact Hlen.
  - assert (Hlen' : length (Decode w key) = routing.MaxContactsInBucket)
      by (destruct (decide (length (Decode w key) = routing.MaxContactsInBucket));
          [assumption | contradiction]).
    intros H. bind_inv H. destruct a as [htIdx ht]. cbv beta iota zeta in H.
    destruct (bytes_eqb (node.ID (routing.Origin ht)) (Decode w key)) eqn:Eo.
    + unfold mret, M_ret in H; injection H as <- <- <- <-. split; [reflexivity|]. split; [|left; reflexivity].
      intros n [= <-]. apply Heqb in Eo. rewrite Eo. split; [reflexivity | exact Hlen'].
    + destruct (routing.FirstNode _) as [first|].
      * destruct (bytes_eqb (node.ID first) (Decode w key)) eqn:Ef.
        -- unfold mret, M_ret in H; injection H as <- <- <- <-. split; [reflexivity|]. split; [|left; reflexivity].
           intros n [= <-]. apply Heqb in Ef. rewrite Ef. split; [reflexivity | exact Hlen'].
        -- destruct (Hiter _ H) as (Hx & Hn & He). split; [exact Hx|].
           split; [|left; exact He].
           intros n Hfound. rewrite (Hn n Hfound). split; [reflexivity | exact Hlen'].
      * destruct (Hiter _ H) as (Hx & Hn & He). split; [exact Hx|].
        split; [|left; exact He].
        intros n Hfound. rewrite (Hn n Hfound). split; [reflexivity | exact Hlen'].
Qed.

Lemma FindNode_returns_witness :
  let s := sample.withBucket0 [sample.routePeer 1] in
  let w := sample.answering
             (message.BuildResponse (sample.peer 1) sample.selfNode message.TypeFindNode
                                    (message.ResponseDataFindNode [sample.peer 9])) in
  exists found exists_ err s',
    FindNode w 4 sample.ctx0 (base58.Encode (sample.peerID 9)) s
      = Returned (found, exists_, err) s'
    /\ found = Some (sample.peer 9)
    /\ exists_ = bool_decide (is_Some found)
    /\ (forall n, found = Some n ->
                  node.ID n = base58.Decode (base58.Encode (sample.peerID 9))
                  /\ length (node.ID n) = routing.MaxContactsInBucket).
Proof.
  intros s w.
  destruct (FindNode w 4 sample.ctx0 (base58.Encode (sample.peerID 9)) s)
    as [[[v x] e] s'| |] eqn:E; [|vm_compute in E; discriminate E..].
  destruct (FindNode_returns w 4 sample.ctx0 (base58.Encode (sample.peerID 9)) s s' v x e E)
    as (Hx & Hn & _).
  exists v, x, e, s'. split; [reflexivity|]. split; [|split; assumption].
  vm_compute in E. injection E as Hv _ _ _. rewrite <- Hv. reflexivity.
Defined.

(** A remote procedure call to the node's own ID is served by the local
    registry, with the node's own origin as the sender; nothing is sent and
    no lookup is started.  The target is the base58 encoding of the ID,
    which is what [GetOriginID] gives. *)
Theorem RemoteProcedureCall_to_self (w : World) (fuel htIdx : nat)
        (ht : routing.HashTable) (method : string) (args : list bytes) (s : DHT) :
  tables s !! htIdx = Some ht ->
  length (node.ID (routing.Origin ht)) = routing.MaxContactsInBucket ->
  Decode w (Encode w (node.ID (routing.Origin ht))) = node.ID (routing.Origin ht) ->
  GetOriginID w (Some htIdx) s = Returned (Encode w (node.ID (routing.Origin ht))) s
  /\ RemoteProcedureCall w fuel (Some htIdx) (Encode w (node.ID (routing.Origin ht)))
                         method args s
     = Returned (Invoke w (routing.Origin ht) method args)
                (record (transport.EvInvoke (routing.Origin ht) method args) s).
Proof.
  intros Hht Hlen Hcodec.
  assert (Hctx : htFromCtx (Some htIdx) s = Returned (htIdx, ht) s).
  { unfold htFromCtx, mbind, M_bind, gets. rewrite Hht. reflexivity. }
  assert (Hself : GetOriginID w (Some htIdx) s
                  = Returned (Encode w (node.ID (routing.Origin ht))) s).
  { unfold GetOriginID. rewrite (bind_run _ _ _ _ _ Hctx). reflexivity. }
  split; [exact Hself|].
  assert (HFind : FindNode w fuel (Some htIdx) (Encode w (node.ID (routing.Origin ht))) s
                  = Returned (Some (routing.Origin ht), true, None) s).
  { unfold FindNode. rewrite Hcodec.
    rewrite bool_decide_eq_false_2 by (intros H; apply H, Hlen).
    rewrite (bind_run _ _ _ _ _ Hctx). cbv beta iota.
    unfold bytes_eqb. rewrite bool_decide_eq_true_2 by reflexivity. reflexivity. }
  unfold RemoteProcedureCall.
  rewrite (bind_run _ _ _ _ _ HFind). cbv beta iota.
  rewrite (bind_run _ _ _ _ _ Hctx). cbv beta iota.
  cbn [negb]. cbv iota.
  rewrite (bind_run _ _ _ _ _ Hself). cbv beta iota.
  rewrite bool_decide_eq_true_2 by reflexivity.
  reflexivity.
Qed.

Lemma RemoteProcedureCall_to_self_witness :
  let s := sample.withBucket0 [sample.routePeer 1] in
  RemoteProcedureCall sample.silent 3 sample.ctx0 (base58.Encode sample.selfID) "s" [[120]] s
  = Returned ([], None) (record (transport.EvInvoke sample.selfNode "s" [[120]]) s).
Proof.
  intros s.
  refine (proj2 (RemoteProcedureCall_to_self sample.silent 3 0
                   (sample.table0 [sample.routePeer 1]) "s" [[120]] s eq_refl eq_refl _)).
  vm_compute. reflexivity.
Defined.

(** ** No node is queried twice *)

Lemma queried_app a b : queried (a ++ b) = queried a ++ queried b.
Proof. apply omap_app. Qed.

Lemma queried_quiet allowed d :
  message.TypeFindNode ∉ allowed -> message.TypeFindValue ∉ allowed ->
  Forall (onlyRequests allowed) d -> queried d = [].
Proof.
  intros Hn Hv. induction 1 as [|e d He _ IH]; [reflexivity|].
  change (queried (e :: d)) with (queried ([e] ++ d)). rewrite queried_app, IH, app_nil_r.
  destruct e; try reflexivity. simpl in *.
  rewrite bool_decide_eq_false_2; [reflexivity|].
  intros [H|H]; rewrite H in He; contradiction.
Qed.

Lemma queriesOnce_quiet {A : Type} allowed contacted (m : M A) :
  message.TypeFindNode ∉ allowed -> message.TypeFindValue ∉ allowed ->
  emits (onlyRequests allowed) m -> queriesOnce contacted m.
Proof.
  intros Hn Hv Hm s s' H. destruct (Hm s s' H) as (d & T & F).
  exists d. split; [exact T|]. rewrite (queried_quiet allowed d Hn Hv F).
  split; [constructor|]. intros id Hid. apply elem_of_nil in Hid. destruct Hid.
Qed.

Lemma queriesOnce_ret {A : Type} contacted (a : A) : queriesOnce contacted (mret a).
Proof.
  apply (queriesOnce_quiet []); [apply not_elem_of_nil..|apply emits_ret].
Qed.

Lemma queriesOnce_panic {A : Type} contacted why : queriesOnce contacted (@panic A why).
Proof.
  apply (queriesOnce_quiet []); [apply not_elem_of_nil..|apply emits_panic].
Qed.

Lemma queriesOnce_bind_quiet {A B : Type} allowed contacted (m : M A) (f : A -> M B) :
  message.TypeFindNode ∉ allowed -> message.TypeFindValue ∉ allowed ->
  emits (onlyRequests allowed) m ->
  (forall a, queriesOnce contacted (f a)) ->
  queriesOnce contacted (m ≫= f).
Proof.
  intros Hn Hv Hm Hf s s' H.
  destruct (bind_final _ _ _ _ H) as [(a & s1 & E1 & E2)|[why E]].
  - destruct (Hm s s1) as (d1 & T1 & F1); [rewrite E1; reflexivity|].
    destruct (Hf a s1 s' E2) as (d2 & T2 & N2 & C2).
    exists (d1 ++ d2). split; [rewrite T2, T1, app_assoc; reflexivity|].
    rewrite queried_app, (queried_quiet allowed d1 Hn Hv F1). simpl.
    split; assumption.
  - apply (queriesOnce_quiet allowed contacted m Hn Hv Hm). rewrite E. reflexivity.
Qed.

Lemma bind_assoc_run {A B C : Type} (m : M A) (f : A -> M B) (k : B -> M C) s :
  ((m ≫= f) ≫= k) s = (m ≫= fun a => f a ≫= k) s.
Proof. unfold mbind, M_bind. destruct (m s); reflexivity. Qed.

Lemma queried_requestFor t self receiver target f ok :
  queried [transport.EvSendRequest f (requestFor t self receiver target) ok]
  = [node.ID receiver].
Proof.
  unfold queried. simpl. rewrite requestFor_type.
  rewrite bool_decide_eq_true_2; [destruct t; reflexivity|].
  destruct t; simpl; auto.
Qed.

(** The sends of a round, followed by whatever keeps away from the nodes
    the round has marked. *)
Lemma queriesOnce_sendQueries {B : Type} (w : World) (t : routing.IterateType)
      (target : bytes) (self : node.Node) (queryRest : bool) (receivers : list node.Node)
      (k : gset bytes * list node.Node * list transport.Future -> M B) :
  forall i contacted remove futures,
    (forall c' r f, contacted ⊆ c' -> queriesOnce c' (k (c', r, f))) ->
    queriesOnce contacted
      (sendQueries w t target self queryRest i receivers contacted remove futures ≫= k).
Proof.
  induction receivers as [|receiver rest IH]; intros i contacted remove futures Hk; simpl.
  - apply (Hk contacted remove futures). reflexivity.
  - destruct (bool_decide (routing.ParallelCalls ≤ i)%nat && negb queryRest).
    { apply (Hk contacted remove futures). reflexivity. }
    case_bool_decide as Hc; [apply IH, Hk|].
    intros s s' H. rewrite bind_assoc_run in H.
    set (msg := requestFor t self receiver target) in *.
    set (contacted' := {[ node.ID receiver ]} ∪ contacted) in *.
    assert (Hsub : contacted ⊆ contacted') by (apply union_subseteq_r).
    assert (Hin : node.ID receiver ∈ contacted')
      by (apply elem_of_union_l, elem_of_singleton; reflexivity).
    assert (Hrest : forall remove' futures',
               queriesOnce contacted'
                 (sendQueries w t target self queryRest (S i) rest contacted'
                              remove' futures' ≫= k)).
    { intros remove' futures'. apply IH. intros c' r f Hc'. apply Hk.
      etrans; eassumption. }
    set (s1 := record (transport.EvSendRequest (sent s) msg (negb (sendFails w (sent s) msg)))
                      (setSent (S (sent s)) s)).
    assert (Hsent : SendRequest w msg s
                    = Returned (if sendFails w (sent s) msg
                                then (None, Some "send failed"%string)
                                else (Some (sent s), None)) s1).
    { unfold SendRequest, mbind, M_bind, gets, modify.
      destruct (sendFails w (sent s) msg); reflexivity. }
    rewrite (bind_run _ _ _ _ _ Hsent) in H.
    assert (T1 : trace s1 = trace s ++ [transport.EvSendRequest
                                          (sent s) msg (negb (sendFails w (sent s) msg))])
      by reflexivity.
    assert (Hgo : exists remove' futures',
               finalState ((sendQueries w t target self queryRest (S i) rest contacted'
                                        remove' futures' ≫= k) s1) = Some s').
    { destruct (sendFails w (sent s) msg); eexists; eexists; exact H. }
    destruct Hgo as (remove' & futures' & Hgo).
    destruct (Hrest remove' futures' s1 s' Hgo) as (d & T & N & C).
    eexists. split; [rewrite T, T1, <- app_assoc; reflexivity|].
    rewrite queried_app. unfold msg. rewrite queried_requestFor. simpl.
    split.
    + apply NoDup_cons. split; [|exact N]. intros Hid. apply (C _ Hid), Hin.
    + intros id Hid. apply elem_of_cons in Hid as [->|Hid]; [exact Hc|].
      intros Hcon. apply (C id Hid), Hsub, Hcon.
Qed.

Lemma emits_awaitFutures_pings w ctx futures :
  emits (onlyRequests [message.TypePing]) (awaitFutures w ctx futures).
Proof. induction futures as [|f rest IH]; simpl; emits_auto. Qed.

Lemma emits_storeFanOut_stores w self data receivers :
  forall i, emits (onlyRequests [message.TypeStore]) (storeFanOut w self data i receivers).
Proof. induction receivers as [|r rest IH]; intros; simpl; emits_auto. Qed.

Lemma Ping_not_query :
  (message.TypeFindNode ∉ [message.TypePing])
  /\ (message.TypeFindValue ∉ [message.TypePing]).
Proof. split; intros H; apply list_elem_of_singleton in H; discriminate H. Qed.

Lemma Store_not_query :
  (message.TypeFindNode ∉ [message.TypeStore])
  /\ (message.TypeFindValue ∉ [message.TypeStore]).
Proof. split; intros H; apply list_elem_of_singleton in H; discriminate H. Qed.

Lemma queriesOnce_iterateLoop w fuel ctx t target data self :
  forall routeSet contacted queryRest closestNode remove,
    queriesOnce contacted
      (iterateLoop w fuel ctx t target data self routeSet contacted queryRest
                   closestNode remove).
Proof.
  induction fuel as [|fuel IH]; intros; simpl.
  { intros s s' [=]. }
  apply queriesOnce_sendQueries. intros c' r f Hsub. cbv beta iota zeta.
  apply (queriesOnce_bind_quiet [message.TypePing]);
    [apply Ping_not_query | apply Ping_not_query | apply emits_awaitFutures_pings|].
  intros results.
  apply (queriesOnce_bind_quiet []); [apply not_elem_of_nil | apply not_elem_of_nil | |].
  { case_bool_decide; [apply emits_processResults | apply emits_ret]. }
  intros [rs|value closest]; [|apply queriesOnce_ret].
  destruct (negb queryRest && bool_decide (routing.Len rs = 0%nat)); [apply queriesOnce_ret|].
  destruct (routing.FirstNode (routing.Sort rs)); [|apply queriesOnce_panic].
  destruct (bytes_eqb _ _ || queryRest); [|apply IH].
  destruct t.
  - apply (queriesOnce_bind_quiet [message.TypeStore]);
      [apply Store_not_query | apply Store_not_query | apply emits_storeFanOut_stores|].
    intros _. apply queriesOnce_ret.
  - destruct (negb queryRest); [apply IH | apply queriesOnce_ret].
  - apply queriesOnce_ret.
  - apply queriesOnce_ret.
Qed.

(** [iterate] contacts no node twice: the receivers of the FindNode and
    FindValue queries it hands to the transport, over all its rounds and
    whether or not the send succeeded, have pairwise distinct IDs. *)
Theorem iterate_queries_no_node_twice (w : World) (fuel : nat) (ctx : Context)
        (t : routing.IterateType) (target data : bytes) (s s' : DHT) :
  finalState (iterate w fuel ctx t target data s) = Some s' ->
  exists d, trace s' = trace s ++ d /\ NoDup (queried d).
Proof.
  intros H.
  assert (Hq : queriesOnce ∅ (iterate w fuel ctx t target data)).
  { unfold iterate.
    apply (queriesOnce_bind_quiet []); [apply not_elem_of_nil..| |].
    { apply emits_record. exact I. }
    intros _.
    apply (queriesOnce_bind_quiet []); [apply not_elem_of_nil..|apply emits_htFromCtx|].
    intros [htIdx ht]. cbv beta iota zeta.
    case_bool_decide; [apply queriesOnce_ret|].
    destruct (routing.FirstNode _); [|apply queriesOnce_panic].
    apply (queriesOnce_bind_quiet []); [apply not_elem_of_nil..| |].
    { unfold Now. case_bool_decide; emits_auto. }
    intros _. apply queriesOnce_iterateLoop. }
  destruct (Hq s s' H) as (d & T & N & _). exists d. split; assumption.
Qed.

Lemma iterate_queries_no_node_twice_witness :
  let s := sample.withBucket0 (sample.routePeer <$> seq 1 5) in
  let w := sample.answering
             (message.BuildResponse (sample.peer 1) sample.selfNode message.TypeFindNode
                                    (message.ResponseDataFindNode
                                       [sample.peer 2; sample.peer 6; sample.peer 1])) in
  exists s' d,
    finalState (iterate w 6 sample.ctx0 routing.IterateBootstrap (sample.peerID 40) [] s)
      = Some s'
    /\ trace s' = trace s ++ d /\ NoDup (queried d) /\ length (queried d) = 4%nat.
Proof.
  intros s w.
  destruct (finalState (iterate w 6 sample.ctx0 routing.IterateBootstrap
                                (sample.peerID 40) [] s)) as [s'|] eqn:E;
    [|vm_compute in E; discriminate E].
  destruct (iterate_queries_no_node_twice w 6 sample.ctx0 routing.IterateBootstrap
              (sample.peerID 40) [] s s' E) as (d & T & N).
  exists s', d. split; [reflexivity|]. split; [exact T|]. split; [exact N|].
  vm_compute in E. injection E as <-. simpl in T. subst d. reflexivity.
Defined.

(** ** The size of a round *)

Lemma sendQueries_returns (w : World) (t : routing.IterateType) (target : bytes)
      (self : node.Node) (queryRest : bool) (receivers : list node.Node) :
  forall (i : nat) (contacted : gset bytes) (remove : list node.Node)
         (futures : list transport.Future) (s : DHT),
  exists c' r' f' s',
    sendQueries w t target self queryRest i receivers contacted remove futures s
      = Returned (c', r', f') s'
    /\ (sent s ≤ sent s')%nat
    /\ (queryRest = false -> sent s' - sent s ≤ routing.ParallelCalls - i)%nat
    /\ (sent s' - sent s ≤ length receivers)%nat
    /\ (length f' + length r' = length futures + length remove + (sent s' - sent s))%nat
    /\ contacted ⊆ c'
    /\ tables s' = tables s /\ store s' = store s.
Proof.
  induction receivers as [|receiver rest IH]; intros i contacted remove futures s; simpl.
  - exists contacted, remove, futures, s. split_and!; try reflexivity; simpl; lia.
  - destruct (bool_decide (routing.ParallelCalls ≤ i)%nat && negb queryRest) eqn:Estop.
    { exists contacted, remove, futures, s. split_and!; try reflexivity; simpl; lia. }
    destruct (decide (node.ID receiver ∈ contacted)) as [Hc|Hc];
      [rewrite bool_decide_eq_true_2 by exact Hc
      |rewrite bool_decide_eq_false_2 by exact Hc].
    { destruct (IH (S i) contacted remove futures s)
        as (c' & r' & f' & s' & E & H1 & H2 & H3 & H4 & H5 & H6 & H7).
      exists c', r', f', s'. split_and!; try assumption; try lia.
      all: intros Hq; specialize (H2 Hq); lia. }
    set (msg := requestFor t self receiver target).
    set (s1 := record (transport.EvSendRequest (sent s) msg (negb (sendFails w (sent s) msg)))
                      (setSent (S (sent s)) s)).
    assert (Hsent : SendRequest w msg s
                    = Returned (if sendFails w (sent s) msg
                                then (None, Some "send failed"%string)
                                else (Some (sent s), None)) s1).
    { unfold SendRequest, mbind, M_bind, gets, modify.
      destruct (sendFails w (sent s) msg); reflexivity. }
    rewrite (bind_run _ _ _ _ _ Hsent).
    assert (Hi : queryRest = false -> (i < routing.ParallelCalls)%nat).
    { intros ->. rewrite andb_true_r in Estop. apply bool_decide_eq_false in Estop. lia. }
    destruct (sendFails w (sent s) msg).
    + destruct (IH (S i) ({[node.ID receiver]} ∪ contacted)
                   (remove ++ [message.Receiver msg]) futures s1)
        as (c' & r' & f' & s' & E & H1 & H2 & H3 & H4 & H5 & H6 & H7).
      exists c', r', f', s'. simpl in *. rewrite length_app in H4. simpl in H4.
      split_and!; try assumption; try lia.
      all: try (intros Hq; specialize (H2 Hq); specialize (Hi Hq);
                unfold routing.ParallelCalls in *; lia).
      all: etrans; [apply union_subseteq_r|exact H5].
    + destruct (IH (S i) ({[node.ID receiver]} ∪ contacted) remove
                   (futures ++ [sent s]) s1)
        as (c' & r' & f' & s' & E & H1 & H2 & H3 & H4 & H5 & H6 & H7).
      exists c', r', f', s'. simpl in *. rewrite length_app in H4. simpl in H4.
      split_and!; try assumption; try lia.
      all: try (intros Hq; specialize (H2 Hq); specialize (Hi Hq);
                unfold routing.ParallelCalls in *; lia).
      all: etrans; [apply union_subseteq_r|exact H5].
Qed.

(** The sends of a round that does not query the rest: the loop returns,
    having handed at most [ParallelCalls] requests to the transport; each
    of them gave a future or put its receiver on the removal list; the
    nodes marked as contacted stay marked; no table and no store entry was
    touched. *)
Theorem sendQueries_sends_at_most_alpha (w : World) (t : routing.IterateType)
        (target : bytes) (self : node.Node) (receivers : list node.Node)
        (contacted : gset bytes) (remove : list node.Node) (s : DHT) :
  exists c' r' f' s',
    sendQueries w t target self false 0 receivers contacted remove [] s
      = Returned (c', r', f') s'
    /\ (sent s ≤ sent s' ≤ sent s + routing.ParallelCalls)%nat
    /\ (length f' + length r' = length remove + (sent s' - sent s))%nat
    /\ contacted ⊆ c'
    /\ tables s' = tables s /\ store s' = store s.
Proof.
  destruct (sendQueries_returns w t target self false receivers 0 contacted remove [] s)
    as (c' & r' & f' & s' & E & H1 & H2 & H3 & H4 & H5 & H6 & H7).
  exists c', r', f', s'. specialize (H2 eq_refl). simpl in H4.
  split_and!; try assumption; lia.
Qed.

(** ** The fan-out of an iterative store *)

Lemma storeRequests_app a b : storeRequests (a ++ b) = storeRequests a ++ storeRequests b.
Proof. apply omap_app. Qed.

Lemma cancellations_app a b : cancellations (a ++ b) = cancellations a ++ cancellations b.
Proof. apply omap_app. Qed.

Lemma storeFanOut_returns (w : World) (self : node.Node) (data : bytes)
      (receivers : list node.Node) :
  (forall f m, sendFails w f m = false) ->
  forall (i : nat) (s : DHT),
  exists s',
    storeFanOut w self data i receivers s = Returned tt s'
    /\ storeRequests (trace s')
       = storeRequests (trace s)
           ++ map (fun r => (r, true)) (take (routing.MaxContactsInBucket - i) receivers)
    /\ cancellations (trace s')
       = cancellations (trace s)
           ++ seq (sent s) (length (take (routing.MaxContactsInBucket - i) receivers))
    /\ sent s' = (sent s + length (take (routing.MaxContactsInBucket - i) receivers))%nat
    /\ tables s' = tables s /\ store s' = store s.
Proof.
  intros Hsend. induction receivers as [|receiver rest IH]; intros i s; simpl.
  - exists s. rewrite take_nil. simpl. rewrite !app_nil_r, Nat.add_0_r.
    repeat split; reflexivity.
  - destruct (decide (routing.MaxContactsInBucket ≤ i)%nat) as [Hi|Hi].
    + rewrite bool_decide_eq_true_2 by exact Hi.
      replace (routing.MaxContactsInBucket - i)%nat with 0%nat by lia.
      exists s. simpl. rewrite !app_nil_r, Nat.add_0_r. repeat split; reflexivity.
    + rewrite bool_decide_eq_false_2 by exact Hi.
      set (msg := message.BuildRequest self receiver message.TypeStore
                                       (message.RequestDataStore data)).
      set (s1 := record (transport.EvCancel (sent s))
                        (record (transport.EvSendRequest (sent s) msg true)
                                (setSent (S (sent s)) s))).
      destruct (IH (S i) s1) as (s' & E & Hreq & Hcan & Hsent & Htab & Hst).
      exists s'. split.
      { unfold SendRequest, Cancel, mbind, M_bind, gets, modify.
        rewrite Hsend. exact E. }
      replace (routing.MaxContactsInBucket - i)%nat
        with (S (routing.MaxContactsInBucket - S i)) by lia.
      simpl. rewrite Hreq, Hcan, Hsent. unfold s1. simpl.
      rewrite !storeRequests_app, !cancellations_app. simpl.
      rewrite !app_nil_r, <- !app_assoc. simpl.
      repeat split; try assumption; try reflexivity. lia.
Qed.

(** The last step of an iterative store, when the transport accepts the
    requests: a Store request goes to each of the first
    [MaxContactsInBucket] nodes of the route set, in that order, and to no
    other; every future is cancelled as soon as it is obtained, so that no
    acknowledgement is waited for; the tables and the store are left
    alone. *)
Theorem storeFanOut_sends_to_the_closest (w : World) (self : node.Node) (data : bytes)
        (receivers : list node.Node) (s : DHT) :
  (forall f m, sendFails w f m = false) ->
  exists s',
    storeFanOut w self data 0 receivers s = Returned tt s'
    /\ storeRequests (trace s')
       = storeRequests (trace s)
           ++ map (fun r => (r, true)) (take routing.MaxContactsInBucket receivers)
    /\ cancellations (trace s')
       = cancellations (trace s)
           ++ seq (sent s) (length receivers `min` routing.MaxContactsInBucket)
    /\ sent s' = (sent s + length receivers `min` routing.MaxContactsInBucket)%nat
    /\ tables s' = tables s /\ store s' = store s.
Proof.
  intros Hsend.
  destruct (storeFanOut_returns w self data receivers Hsend 0 s)
    as (s' & E & Hreq & Hcan & Hsent & Htab & Hst).
  rewrite Nat.sub_0_r, length_take in *.
  rewrite (Nat.min_comm (length receivers)).
  exists s'. repeat split; assumption.
Qed.

Lemma storeFanOut_sends_to_the_closest_witness :
  let receivers := sample.peer <$> seq 1 25 in
  exists s',
    storeFanOut sample.silent sample.selfNode [1; 2] 0 receivers sample.fresh
      = Returned tt s'
    /\ storeRequests (trace s') = map (fun r => (r, true)) (sample.peer <$> seq 1 20)
    /\ cancellations (trace s') = seq 0 20
    /\ sent s' = 20%nat.
Proof.
  intros receivers.
  destruct (storeFanOut_sends_to_the_closest sample.silent sample.selfNode [1; 2]
              receivers sample.fresh (fun _ _ => eq_refl))
    as (s' & E & Hreq & Hcan & Hsent & _).
  exists s'. repeat split; assumption.
Defined.

(** ** The handlers on a well-formed node *)

Lemma htFromCtx_run htIdx ht s :
  tables s !! htIdx = Some ht -> htFromCtx (Some htIdx) s = Returned (htIdx, ht) s.
Proof. intros H. unfold htFromCtx, mbind, M_bind, gets. rewrite H. reflexivity. Qed.

Lemma processFindNode_run w htIdx ht msg messageBuilder target s :
  wellFormed s ->
  tables s !! htIdx = Some ht ->
  message.Data msg = message.RequestDataFindNode target ->
  exists s1 ht1,
    addNode w (Some htIdx) (routing.NewRouteNode (message.Sender msg)) s = Returned tt s1
    /\ tables s1 !! htIdx = Some ht1
    /\ processFindNode w (Some htIdx) msg messageBuilder s
       = Returned tt
           (record (transport.EvSendResponse
                      (message.RequestID msg)
                      (messageBuilder
                         (message.ResponseDataFindNode
                            (routing.Nodes
                               (routing.GetClosestContacts
                                  ht1 routing.MaxContactsInBucket target
                                  [message.Sender msg])))))
                   s1).
Proof.
  intros Hs Hht Hdata.
  destruct (addNode_run w htIdx ht (routing.NewRouteNode (message.Sender msg)) s Hs Hht)
    as (s1 & ht1 & Hadd & _ & _ & Hht1 & _ & _).
  exists s1, ht1. split; [exact Hadd|]. split; [exact Hht1|].
  unfold processFindNode.
  rewrite (bind_run _ _ _ _ _ (htFromCtx_run _ _ _ Hht)). cbv beta iota. rewrite Hdata.
  rewrite (bind_run _ _ _ _ _ Hadd).
  rewrite (bind_run _ _ _ _ _ (htFromCtx_run _ _ _ Hht1)). reflexivity.
Qed.

Lemma processFindValue_run w htIdx ht msg messageBuilder target s :
  wellFormed s ->
  tables s !! htIdx = Some ht ->
  message.Data msg = message.RequestDataFindValue target ->
  exists s1 ht1,
    addNode w (Some htIdx) (routing.NewRouteNode (message.Sender msg)) s = Returned tt s1
    /\ tables s1 !! htIdx = Some ht1
    /\ processFindValue w (Some htIdx) msg messageBuilder s
       = Returned tt
           (record (transport.EvSendResponse
                      (message.RequestID msg)
                      (messageBuilder
                         match store.Retrieve target (store s) with
                         | Some v => message.ResponseDataFindValue [] (Some v)
                         | None =>
                             message.ResponseDataFindValue
                               (routing.Nodes
                                  (routing.GetClosestContacts
                                     ht1 routing.MaxContactsInBucket target
                                     [message.Sender msg]))
                               None
                         end))
                   (record (transport.EvRetrieve target) s1)).
Proof.
  intros Hs Hht Hdata.
  destruct (addNode_run w htIdx ht (routing.NewRouteNode (message.Sender msg)) s Hs Hht)
    as (s1 & ht1 & Hadd & [Hst _ _ _ _] & _ & Hht1 & _ & _).
  exists s1, ht1. split; [exact Hadd|]. split; [exact Hht1|].
  unfold processFindValue.
  rewrite (bind_run _ _ _ _ _ (htFromCtx_run _ _ _ Hht)). cbv beta iota. rewrite Hdata.
  rewrite (bind_run _ _ _ _ _ Hadd).
  assert (Hret : storeRetrieve target s1
                 = Returned (store.Retrieve target (store s1))
                            (record (transport.EvRetrieve target) s1)) by reflexivity.
  rewrite (bind_run _ _ _ _ _ Hret).
  rewrite (bind_run _ _ _ _ _ (htFromCtx_run htIdx ht1
                                 (record (transport.EvRetrieve target) s1) Hht1)).
  cbv beta iota. rewrite Hst. reflexivity.
Qed.

Lemma processRPC_run w htIdx ht msg messageBuilder method args s :
  wellFormed s ->
  tables s !! htIdx = Some ht ->
  message.Data msg = message.RequestDataRPC method args ->
  exists s1,
    addNode w (Some htIdx) (routing.NewRouteNode (message.Sender msg)) s = Returned tt s1
    /\ processRPC w (Some htIdx) msg messageBuilder s
       = Returned tt
           (record (transport.EvSendResponse
                      (message.RequestID msg)
                      (messageBuilder
                         match Invoke w (message.Sender msg) method args with
                         | (result, None) => message.ResponseDataRPC true result ""
                         | (result, Some e) => message.ResponseDataRPC false result e
                         end))
                   (record (transport.EvInvoke (message.Sender msg) method args) s1)).
Proof.
  intros Hs Hht Hdata.
  destruct (addNode_run w htIdx ht (routing.NewRouteNode (message.Sender msg)) s Hs Hht)
    as (s1 & ht1 & Hadd & _ & _ & _ & _ & _).
  exists s1. split; [exact Hadd|].
  unfold processRPC. rewrite Hdata.
  rewrite (bind_run _ _ _ _ _ Hadd).
  unfold rpcInvoke, SendResponse, mbind, M_bind, modify, mret, M_ret.
  destruct (Invoke w (message.Sender msg) method args) as [result [e|]]; reflexivity.
Qed.

(** On a well-formed node and a request whose payload is that of its
    type, every handler returns, and has then sent exactly one response,
    under the request-ID of the message; but the Store handler, which sends
    none. *)
Theorem handlers_respond_once (w : World) (htIdx : nat) (ht : routing.HashTable)
        (msg : message.Message) (messageBuilder : Builder) (s : DHT) :
  wellFormed s ->
  tables s !! htIdx = Some ht ->
  requestOf (message.Type_ msg) (message.Data msg) ->
  exists s',
    handlerOf w (message.Type_ msg) (Some htIdx) msg messageBuilder s = Returned tt s'
    /\ wellFormed s'
    /\ if bool_decide (message.Type_ msg = message.TypeStore)
       then responsesOf (trace s') = responsesOf (trace s)
       else exists d, responsesOf (trace s')
                      = responsesOf (trace s) ++ [(message.RequestID msg, messageBuilder d)].
Proof.
  intros Hs Hht Hreq.
  destruct (addNode_run w htIdx ht (routing.NewRouteNode (message.Sender msg)) s Hs Hht)
    as (s1 & ht1 & Hadd & Hfr & Hs1 & Hht1 & _ & Htr).
  destruct (message.Type_ msg) eqn:Et; destruct (message.Data msg) eqn:Ed;
    try contradiction; simpl handlerOf; simpl bool_decide; cbv iota.
  all: try (eexists; split; [reflexivity|]; split; [exact Hs|];
            eexists; unfold processPing, SendResponse; simpl;
            rewrite responsesOf_app; reflexivity).
  - destruct (processStore_run w htIdx ht msg messageBuilder Data s Hs Hht Ed)
      as (s1' & s' & d & Hadd' & E & ->).
    rewrite Hadd in Hadd'. injection Hadd' as <-.
    eexists. split; [exact E|]. split; [exact Hs1|].
    simpl. rewrite responsesOf_app. simpl. rewrite app_nil_r. exact Htr.
  - destruct (processFindNode_run w htIdx ht msg messageBuilder Target s Hs Hht Ed)
      as (s1' & ht1' & Hadd' & _ & E).
    rewrite Hadd in Hadd'. injection Hadd' as <-.
    eexists. split; [exact E|]. split; [exact Hs1|].
    eexists. simpl. rewrite responsesOf_app, Htr. reflexivity.
  - destruct (processFindValue_run w htIdx ht msg messageBuilder Target s Hs Hht Ed)
      as (s1' & ht1' & Hadd' & _ & E).
    rewrite Hadd in Hadd'. injection Hadd' as <-.
    eexists. split; [exact E|]. split; [exact Hs1|].
    eexists. simpl. rewrite !responsesOf_app, Htr. simpl. rewrite app_nil_r. reflexivity.
  - destruct (processRPC_run w htIdx ht msg messageBuilder Method Args s Hs Hht Ed)
      as (s1' & Hadd' & E).
    rewrite Hadd in Hadd'. injection Hadd' as <-.
    eexists. split; [exact E|]. split; [exact Hs1|].
    eexists. simpl. rewrite !responsesOf_app, Htr. simpl. rewrite app_nil_r. reflexivity.
Qed.

Lemma handlers_respond_once_witness :
  let s := sample.withBucket0 (sample.routePeer <$> seq 1 20) in
  let msg := message.mkMessage (sample.peer 21) sample.selfNode message.TypeRPC
                               [7; 7] (message.RequestDataRPC "s" [[120]]) None false in
  let builder := message.BuildResponse sample.selfNode (sample.peer 21) message.TypeRPC in
  exists s' d,
    processRPC sample.silent sample.ctx0 msg builder s = Returned tt s'
    /\ responsesOf (trace s') = [([7; 7], builder d)].
Proof.
  intros s msg builder.
  destruct (handlers_respond_once sample.silent 0 (sample.table0 (sample.routePeer <$> seq 1 20))
              msg builder s) as (s' & E & _ & d & H).
  - unfold wellFormed. apply (bool_decide_unpack _). vm_compute. reflexivity.
  - reflexivity.
  - exact I.
  - exists s', d. split; [exact E | exact H].
Defined.



(** *** The nodes a FindNode response names *)

Lemma insertByDistance_Permutation key r l :
  routing.insertByDistance key r l ≡ₚ r :: l.
Proof.
  induction l as [|x l IH]; simpl; [reflexivity|].
  destruct (_ <=? _); [reflexivity|].
  rewrite IH. apply Permutation_swap.
Qed.

Lemma sortByDistance_Permutation key l : routing.sortByDistance key l ≡ₚ l.
Proof.
  induction l as [|x l IH]; simpl; [reflexivity|].
  rewrite insertByDistance_Permutation. f_equiv. exact IH.
Qed.

Lemma elem_of_concat {A} (x : A) (ls : list (list A)) :
  x ∈ concat ls -> exists l, l ∈ ls /\ x ∈ l.
Proof.
  induction ls as [|l ls IH]; simpl; intros H.
  - apply elem_of_nil in H. destruct H.
  - apply elem_of_app in H as [H|H].
    + exists l. split; [apply list_elem_of_here | exact H].
    + destruct (IH H) as (l' & Hl & Hx). exists l'.
      split; [apply list_elem_of_further, Hl | exact Hx].
Qed.

Lemma GetClosestContacts_spec ht n key exclude :
  let closest := routing.nodes (routing.GetClosestContacts ht n key exclude) in
  (length closest ≤ n)%nat
  /\ forall r, r ∈ closest ->
               (routing.RouteNodeID r ∉ map node.ID exclude)
               /\ exists bucket, bucket ∈ routing.RoutingTable ht /\ r ∈ bucket.
Proof.
  simpl. split; [rewrite length_take; lia|].
  intros r Hr. apply elem_of_take in Hr as (i & Hr & _).
  apply list_elem_of_lookup_2 in Hr. rewrite sortByDistance_Permutation in Hr.
  apply list_elem_of_filter in Hr as [Hex Hr].
  split; [exact Hex|].
  apply elem_of_concat in Hr as (bucket & Hb & Hr). exists bucket. split; assumption.
Qed.

(** The response to a FindNode request, on a well-formed node: the
    handler returns, and the nodes its response names are at most
    [MaxContactsInBucket], none of them has the ID of the sender of the
    request, and each of them is in the routing table as [addNode] of the
    sender left it. *)
Theorem processFindNode_names_known_nodes (w : World) (htIdx : nat)
        (ht : routing.HashTable) (msg : message.Message) (messageBuilder : Builder)
        (target : bytes) (s : DHT) :
  wellFormed s ->
  tables s !! htIdx = Some ht ->
  message.Data msg = message.RequestDataFindNode target ->
  exists s1 ht1 closest,
    addNode w (Some htIdx) (routing.NewRouteNode (message.Sender msg)) s = Returned tt s1
    /\ tables s1 !! htIdx = Some ht1
    /\ processFindNode w (Some htIdx) msg messageBuilder s
       = Returned tt (record (transport.EvSendResponse
                                (message.RequestID msg)
                                (messageBuilder (message.ResponseDataFindNode closest)))
                             s1)
    /\ (length closest ≤ routing.MaxContactsInBucket)%nat
    /\ forall n, n ∈ closest ->
                 node.ID n ≠ node.ID (message.Sender msg)
                 /\ exists bucket, bucket ∈ routing.RoutingTable ht1
                                   /\ routing.NewRouteNode n ∈ bucket.
Proof.
  intros Hs Hht Hdata.
  destruct (processFindNode_run w htIdx ht msg messageBuilder target s Hs Hht Hdata)
    as (s1 & ht1 & Hadd & Hht1 & E).
  exists s1, ht1. eexists. split; [exact Hadd|]. split; [exact Hht1|].
  split; [exact E|].
  destruct (GetClosestContacts_spec ht1 routing.MaxContactsInBucket target
                                    [message.Sender msg]) as [Hlen Hall].
  split.
  - unfold routing.Nodes. rewrite length_map. exact Hlen.
  - intros n Hn. unfold routing.Nodes in Hn.
    apply list_elem_of_fmap in Hn as (r & -> & Hr).
    destruct (Hall r Hr) as [Hex Hb]. split.
    + intros Heq. apply Hex. simpl. apply list_elem_of_singleton. exact Heq.
    + destruct r. exact Hb.
Qed.

Lemma processFindNode_names_known_nodes_witness :
  let s := sample.withBucket0 (sample.routePeer <$> seq 1 20) in
  let msg := message.mkMessage (sample.peer 5) sample.selfNode message.TypeFindNode
                               [9] (message.RequestDataFindNode (sample.peerID 7))
                               None false in
  let builder := message.BuildResponse sample.selfNode (sample.peer 5)
                                       message.TypeFindNode in
  exists s' closest,
    processFindNode sample.silent sample.ctx0 msg builder s = Returned tt s'
    /\ last (trace s')
       = Some (transport.EvSendResponse [9] (builder (message.ResponseDataFindNode closest)))
    /\ (length closest ≤ routing.MaxContactsInBucket)%nat
    /\ sample.peer 5 ∉ closest.
Proof.
  intros s msg builder.
  destruct (processFindNode_names_known_nodes
              sample.silent 0 (sample.table0 (sample.routePeer <$> seq 1 20))
              msg builder (sample.peerID 7) s) as (s1 & ht1 & closest & _ & _ & E & Hlen & Hall).
  - unfold wellFormed. apply (bool_decide_unpack _). vm_compute. reflexivity.
  - reflexivity.
  - reflexivity.
  - eexists. exists closest. split; [exact E|]. split; [apply last_snoc|].
    split; [exact Hlen|]. intros Hin. destruct (Hall _ Hin) as [Hne _].
    apply Hne. reflexivity.
Defined.

(** ** A remote procedure call, end to end *)

(** [RemoteProcedureCall] on a reply: the target was found, is another
    node, the request was sent and the response arrived. *)
Lemma RemoteProcedureCall_reply w fuel htIdx ht target method args tn s s1 rsp
      success result error :
  wellFormed s ->
  tables s !! htIdx = Some ht ->
  FindNode w fuel (Some htIdx) target s = Returned (Some tn, true, None) s1 ->
  target ≠ Encode w (node.ID (routing.Origin ht)) ->
  sendFails w (sent s1)
            (message.BuildRequest (routing.Origin ht) tn message.TypeRPC
                                  (message.RequestDataRPC method args)) = false ->
  outcome w (sent s1) = transport.Reply rsp ->
  message.Data rsp = message.ResponseDataRPC success result error ->
  exists s3,
    RemoteProcedureCall w fuel (Some htIdx) target method args s
    = Returned (if success then (result, None) else ([], Some error)) s3.
Proof.
  intros Hs Hht HFind Hself Hsend Hout Hdata.
  assert (Hfr : frame s s1).
  { apply (framed_FindNode w fuel (Some htIdx) target). rewrite HFind. reflexivity. }
  destruct (frame_lookup _ _ _ _ Hfr Hht) as (ht1 & Hht1 & Hshape).
  assert (Horigin : routing.Origin ht1 = routing.Origin ht)
    by (unfold shape in Hshape; congruence).
  pose proof (frame_wellFormed _ _ Hfr Hs) as Hs1.
  pose proof (htFromCtx_run _ _ _ Hht1) as Hctx.
  unfold RemoteProcedureCall.
  rewrite (bind_run _ _ _ _ _ HFind). cbv beta iota.
  rewrite (bind_run _ _ _ _ _ Hctx). cbv beta iota.
  set (request := message.BuildRequest (routing.Origin ht) tn message.TypeRPC
                                       (message.RequestDataRPC method args)) in *.
  set (s2 := record (transport.EvSendRequest (sent s1) request true)
                    (setSent (S (sent s1)) s1)).
  assert (Hself1 : GetOriginID w (Some htIdx) s1
                   = Returned (Encode w (node.ID (routing.Origin ht))) s1).
  { unfold GetOriginID. rewrite (bind_run _ _ _ _ _ Hctx). cbv beta iota.
    rewrite Horigin. reflexivity. }
  assert (Hsent : SendRequest w request s1 = Returned (Some (sent s1), None) s2).
  { unfold SendRequest, mbind, M_bind, gets, modify. rewrite Hsend. reflexivity. }
  cbn [negb]. cbv iota.
  rewrite (bind_run _ _ _ _ _ Hself1). cbv beta iota.
  rewrite bool_decide_eq_false_2 by exact Hself.
  rewrite Horigin. fold request.
  rewrite (bind_run _ _ _ _ _ Hsent). cbv beta iota.
  rewrite Hout.
  assert (Hs2 : wellFormed s2) by exact Hs1.
  destruct (addNode_returns w htIdx ht1 (routing.NewRouteNode (message.Sender rsp))
                            s2 Hs2 Hht1) as [s3 E3].
  rewrite (bind_run _ _ _ _ _ E3), Hdata.
  exists s3. destruct success; reflexivity.
Qed.

(** A remote procedure call from node A to node B, end to end.  B's RPC
    handler, on the request as A built it and under whatever request-ID
    the transport gave it, returns after one response; when that response
    is what A's future delivers, A's [RemoteProcedureCall] returns what the
    procedure returned on B, called with A's origin as the sender: the
    result without an error, or the error without the result. *)
Theorem remote_procedure_call_round_trip (wA wB : World) (fuel i j : nat)
        (htA htB : routing.HashTable) (target method : string) (args : list bytes)
        (tn : node.Node) (rid : bytes) (sA s1 sB : DHT) :
  wellFormed sA ->
  tables sA !! i = Some htA ->
  FindNode wA fuel (Some i) target sA = Returned (Some tn, true, None) s1 ->
  target ≠ Encode wA (node.ID (routing.Origin htA)) ->
  sendFails wA (sent s1)
            (message.BuildRequest (routing.Origin htA) tn message.TypeRPC
                                  (message.RequestDataRPC method args)) = false ->
  wellFormed sB ->
  tables sB !! j = Some htB ->
  let delivered :=
    message.mkMessage (routing.Origin htA) tn message.TypeRPC rid
                      (message.RequestDataRPC method args) None false in
  let builder := message.BuildResponse (routing.Origin htB) (routing.Origin htA)
                                       message.TypeRPC in
  exists sB' rsp,
    processRPC wB (Some j) delivered builder sB = Returned tt sB'
    /\ responsesOf (trace sB') = responsesOf (trace sB) ++ [(rid, rsp)]
    /\ (outcome wA (sent s1) = transport.Reply rsp ->
        exists sA',
          RemoteProcedureCall wA fuel (Some i) target method args sA
          = Returned match Invoke wB (routing.Origin htA) method args with
                     | (result, None) => (result, None)
                     | (_, Some e) => ([], Some e)
                     end sA').
Proof.
  intros HsA HhtA HFind Hself Hsend HsB HhtB delivered builder.
  destruct (processRPC_run wB j htB delivered builder method args sB HsB HhtB eq_refl)
    as (sB1 & Hadd & E).
  destruct (addNode_run wB j htB (routing.NewRouteNode (message.Sender delivered)) sB HsB HhtB)
    as (sB1' & ht1 & Hadd' & _ & _ & _ & _ & Htr).
  rewrite Hadd in Hadd'. injection Hadd' as <-.
  eexists. eexists. split; [exact E|]. split.
  { simpl. rewrite !responsesOf_app, Htr. simpl. rewrite app_nil_r. reflexivity. }
  intros Hout. simpl in Hout.
  destruct (Invoke wB (routing.Origin htA) method args) as [result [e|]] eqn:Einv;
    simpl in Hout.
  - apply (RemoteProcedureCall_reply wA fuel i htA target method args tn sA s1 _
             false result e HsA HhtA HFind Hself Hsend Hout). reflexivity.
  - apply (RemoteProcedureCall_reply wA fuel i htA target method args tn sA s1 _
             true result ""%string HsA HhtA HFind Hself Hsend Hout). reflexivity.
Qed.

Lemma remote_procedure_call_round_trip_witness :
  let sA := sample.withBucket0 [sample.routePeer 1] in
  let wA := sample.answering (sample.rpcReply 1 true [120; 121] "") in
  let delivered :=
    message.mkMessage sample.selfNode (sample.peer 1) message.TypeRPC [7]
                      (message.RequestDataRPC "s" [[120]; [121]]) None false in
  exists sB' sA',
    processRPC echoing sample.ctx0 delivered
               (message.BuildResponse (sample.peer 1) sample.selfNode message.TypeRPC)
               freshPeer1
      = Returned tt sB'
    /\ responsesOf (trace sB') = [([7], sample.rpcReply 1 true [120; 121] "")]
    /\ RemoteProcedureCall wA 3 sample.ctx0 (base58.Encode (sample.peerID 1)) "s"
                           [[120]; [121]] sA
       = Returned ([120; 121], None) sA'.
Proof.
  intros sA wA delivered.
  destruct (remote_procedure_call_round_trip
              wA echoing 3 0 0 (sample.table0 [sample.routePeer 1])
              (routing.NewHashTable (sample.peerID 1) "127.0.0.1:40002" 0)
              (base58.Encode (sample.peerID 1)) "s" [[120]; [121]]
              (sample.peer 1) [7] sA sA freshPeer1)
    as (sB' & rsp & E & Hresp & H).
  - unfold wellFormed. apply (bool_decide_unpack _). vm_compute. reflexivity.
  - reflexivity.
  - vm_compute. reflexivity.
  - vm_compute. discriminate.
  - reflexivity.
  - unfold wellFormed. apply (bool_decide_unpack _). vm_compute. reflexivity.
  - reflexivity.
  - assert (Hrsp : rsp = sample.rpcReply 1 true [120; 121] "").
    { vm_compute in E. injection E as <-. vm_compute in Hresp.
      injection Hresp as <-. reflexivity. }
    subst rsp. destruct (H eq_refl) as [sA' HA].
    exists sB', sA'. split; [exact E|]. split; [exact Hresp | exact HA].
Defined.

(** ** The node as [NewDHT] makes it *)

Lemma orDefault_nonzero d v : d ≠ 0 -> orDefault d v ≠ 0.
Proof. intros Hd. unfold orDefault. destruct (Z.eqb_spec v 0); assumption. Qed.

(** The state [NewDHT] makes: one table per identity of the origin, in
    the order of the identities, each with the identity as its origin,
    [KeyBitSize] buckets and no node; the bucket invariant holds, and the
    state is well-formed when the IDs have [MaxContactsInBucket] bytes; no
    duration of the options is zero, and one that was given is kept. *)
Theorem NewDHT_initial_state (o : node.Origin) (opts : Options) (now : Z) :
  let s := NewDHT o opts now in
  bucketsOK s
  /\ length (tables s) = length (node.IDs o)
  /\ (forall i id,
         node.IDs o !! i = Some id ->
         exists ht,
           tables s !! i = Some ht
           /\ routing.Origin ht = node.mkNode id (node.OriginAddress o)
           /\ length (routing.RoutingTable ht) = routing.KeyBitSize
           /\ NumNodes (Some i) s = Returned 0%nat s)
  /\ (Forall (fun id => length id = routing.MaxContactsInBucket) (node.IDs o) ->
      wellFormed s)
  /\ Forall (fun d => d ≠ 0)
            [ExpirationTime (options s); RefreshTime (options s);
             ReplicateTime (options s); RepublishTime (options s);
             PingTimeout (options s); MessageTimeout (options s)]
  /\ (forall field : Options -> Z,
         field ∈ [ExpirationTime; RefreshTime; ReplicateTime; RepublishTime;
                  PingTimeout; MessageTimeout] ->
         field opts ≠ 0 -> field (options s) = field opts).
Proof.
  intros s.
  assert (Ht : tables s
               = (fun id => routing.NewHashTable id (node.OriginAddress o) now)
                   <$> node.IDs o) by reflexivity.
  assert (Hnew : forall id,
             routing.RoutingTable (routing.NewHashTable id (node.OriginAddress o) now)
             = replicate routing.KeyBitSize []) by reflexivity.
  split.
  { unfold bucketsOK. rewrite Ht. apply Forall_fmap, Forall_forall. intros id _.
    unfold compose, tableOK. rewrite Hnew. apply Forall_replicate. apply bucketOK_nil. }
  split; [rewrite Ht; apply length_fmap|].
  split.
  { intros i id Hid.
    assert (Hi : tables s !! i
                 = Some (routing.NewHashTable id (node.OriginAddress o) now))
      by (rewrite Ht, list_lookup_fmap, Hid; reflexivity).
    eexists. split; [exact Hi|].
    split; [reflexivity|]. split; [rewrite Hnew; apply length_replicate|].
    unfold NumNodes, htFromCtx, mbind, M_bind, gets. rewrite Hi.
    unfold mret, M_ret. f_equal. }
  split.
  { intros Hids. unfold wellFormed. rewrite Ht.
    change (map shape ?l) with (shape <$> l). rewrite <- list_fmap_compose.
    apply Forall_fmap. eapply Forall_impl; [exact Hids|].
    intros id Hid. unfold compose, shape. rewrite Hnew.
    split; [exact Hid | apply length_replicate]. }
  split.
  { unfold s, NewDHT. cbn [options ExpirationTime RefreshTime ReplicateTime RepublishTime
                                   PingTimeout MessageTimeout].
    repeat constructor; apply orDefault_nonzero; unfold Second; lia. }
  intros field Hf Hne.
  repeat (apply elem_of_cons in Hf as [->|Hf];
          [unfold s, NewDHT;
           cbn [options ExpirationTime RefreshTime ReplicateTime RepublishTime
                        PingTimeout MessageTimeout];
           unfold orDefault;
           destruct (_ =? 0) eqn:E; [apply Z.eqb_eq in E; contradiction|reflexivity]|]).
  apply elem_of_nil in Hf. destruct Hf.
Qed.

(** ** Bootstrap *)

Lemma indexOfID_finds ts k ht :
  ts !! k = Some ht -> is_Some (indexOfID (node.ID (routing.Origin ht)) ts).
Proof.
  revert k. induction ts as [|x ts IH]; intros [|k]; simpl; try discriminate.
  - intros [= ->]. unfold bytes_eqb. rewrite bool_decide_eq_true_2 by reflexivity. eauto.
  - intros H. destruct (bytes_eqb _ _); [eauto|].
    destruct (IH k H) as [i ->]. simpl. eauto.
Qed.

(** The context of a table of the node can always be built. *)
Lemma SetNodeByID_own k ht s :
  tables s !! k = Some ht ->
  exists i, SetNodeByID (node.ID (routing.Origin ht)) s = Returned (Some i, None) s.
Proof.
  intros H. destruct (indexOfID_finds _ _ _ H) as [i Hi]. exists i.
  unfold SetNodeByID, mbind, M_bind, gets. rewrite Hi. reflexivity.
Qed.

Lemma seedTables_no_error w seeds idxs :
  forall futures s err futures' s',
    seedTables w seeds idxs futures s = Returned (err, futures') s' -> err = None.
Proof.
  induction idxs as [|k rest IH]; intros futures s err futures' s'; simpl.
  - intros [= <- _ _]. reflexivity.
  - intros H. bind_inv H. injection E as <- <-.
    destruct (tables s !! k) as [ht|] eqn:Ek; [|eapply IH; exact H].
    destruct (SetNodeByID_own k ht s Ek) as [i Hi].
    rewrite (bind_run _ _ _ _ _ Hi) in H. cbv beta iota in H.
    bind_inv H. eapply IH; exact H.
Qed.

Lemma rangeTables_bootstrapTable_no_error w fuel idxs :
  forall s r s',
    rangeTables (fun _ ht => bootstrapTable w fuel ht) idxs s = Returned r s' ->
    default None r = None.
Proof.
  induction idxs as [|k rest IH]; intros s r s'; simpl.
  - intros [= <- _]. reflexivity.
  - intros H. bind_inv H. injection E as <- <-.
    destruct (tables s !! k) as [ht|] eqn:Ek; [|eapply IH; exact H].
    bind_inv H. destruct a as [err|].
    + injection H as <- <-. simpl.
      unfold bootstrapTable in E.
      destruct (SetNodeByID_own k ht s Ek) as [i Hi].
      rewrite (bind_run _ _ _ _ _ Hi) in E. cbv beta iota in E.
      bind_inv E. destruct (bool_decide (0 < a)%nat); [|discriminate E].
      bind_inv E.
      match goal with
      | Hit : iterate _ _ _ _ _ _ _ = Returned ?r _ |- _ =>
          destruct (returns_iterate _ _ _ _ _ _ _ _ _ Hit) as [He _];
          destruct r as [[v c] e]
      end.
      injection E as <- <-. exact He.
    + eapply IH; exact H.
Qed.

(** [Bootstrap] returns no error: the context of each of the node's own
    tables can be built, and the iterative bootstrap it ends with never
    returns one.  Whatever goes wrong with the seeds shows as a panic, as
    [log.Fatal], or not at all. *)
Theorem Bootstrap_returns_no_error (w : World) (fuel : nat) (s s' : DHT)
        (err : option string) :
  Bootstrap w fuel s = Returned err s' -> err = None.
Proof.
  unfold Bootstrap. intros H. bind_inv H. injection E as <- <-.
  destruct (bool_decide (length (BootstrapNodes (options s)) = 0%nat)).
  { injection H as <- _. reflexivity. }
  bind_inv H. unfold tableIndices, mbind, M_bind, gets in E. injection E as <- <-.
  bind_inv H. destruct a as [e futures].
  apply seedTables_no_error in E. subst e.
  bind_inv H. bind_inv H. injection H as <- _.
  match goal with
  | Hr : rangeTables _ _ _ = Returned _ _ |- _ =>
      exact (rangeTables_bootstrapTable_no_error _ _ _ _ _ _ Hr)
  end.
Qed.

Lemma Bootstrap_returns_no_error_witness :
  exists s', Bootstrap sample.silent 4 seeded = Returned None s'
             /\ sent s' = 2%nat.
Proof.
  destruct (Bootstrap sample.silent 4 seeded) as [e s'| |] eqn:E;
    [|vm_compute in E; discriminate E..].
  pose proof (Bootstrap_returns_no_error sample.silent 4 seeded s' e E) as He.
  subst e. exists s'. split; [reflexivity|].
  vm_compute in E. injection E as Hs. rewrite <- Hs. reflexivity.
Defined.

(** ** The console of cmd/example *)

Lemma Split_cons line : exists piece pieces, example.Split line = piece :: pieces.
Proof.
  destruct line as [|c rest]; simpl; [eauto|].
  case_bool_decide; [eauto|]. destruct (example.Split rest); eauto.
Qed.

Lemma Split_spaceless word :
  example.spaceless word = true -> example.Split word = [word].
Proof.
  induction word as [|c rest IH]; simpl; [reflexivity|].
  case_bool_decide; [discriminate|]. simpl. intros Hw. rewrite (IH Hw). reflexivity.
Qed.

Lemma Split_append word line :
  example.spaceless word = true ->
  example.Split (word ++ String " "%char line) = word :: example.Split line.
Proof.
  induction word as [|c rest IH]; simpl.
  - intros _. reflexivity.
  - case_bool_decide; [discriminate|]. simpl. intros Hw. rewrite (IH Hw). reflexivity.
Qed.

(** [strings.Split] undoes the joining of words without spaces. *)
Lemma Split_join words :
  words ≠ [] -> forallb example.spaceless words = true ->
  example.Split (example.join words) = words.
Proof.
  induction words as [|word words IH]; [contradiction|].
  intros _ H. simpl in H. apply andb_true_iff in H as [Hw Hws].
  destruct words as [|word' words].
  - simpl. apply Split_spaceless, Hw.
  - change (example.join (word :: word' :: words))
      with (word ++ String " "%char (example.join (word' :: words)))%string.
    rewrite (Split_append _ _ Hw). f_equal. apply IH; [discriminate | exact Hws].
Qed.

Lemma eqb_other (a b : string) : a ≠ b -> String.eqb a b = false.
Proof. intros H. apply String.eqb_neq. exact H. Qed.

Lemma length_nonempty (a : string) : a ≠ EmptyString -> String.length a ≠ 0%nat.
Proof. destruct a; [contradiction | discriminate]. Qed.

(** How the console reads a call: a line made of a method, a target and
    arguments, joined by single spaces, where the method is none of the
    console's own commands, runs [RemoteProcedureCall] once, for that
    target and method and with the arguments as byte strings, and prints
    the call and then its result or its error. *)
Theorem replLine_reads_a_call (w : World) (fuel : nat) (ctx : Context)
        (method target : string) (args : list string) (s : DHT) :
  forallb example.spaceless (method :: target :: args) = true ->
  method ≠ EmptyString -> target ≠ EmptyString ->
  method ≠ "help"%string -> method ≠ "findnode"%string -> method ≠ "info"%string ->
  example.replLine w fuel ctx (example.join (method :: target :: args)) s
  = ('(result, err) ← RemoteProcedureCall w fuel ctx target method
                                          (example.toBytes <$> args);
     mret [example.Running method target (example.toBytes <$> args);
           match err with
           | Some e => example.ErrorText e
           | None => example.Result result
           end]) s.
Proof.
  intros Hwords Hm Ht Hhelp Hfind Hinfo.
  unfold example.replLine. rewrite Split_join by (discriminate || exact Hwords).
  cbv zeta.
  change (example.word (method :: target :: args) 0) with method.
  rewrite (eqb_other _ _ Hhelp), (eqb_other _ _ Hfind), (eqb_other _ _ Hinfo).
  unfold example.doRPC.
  change (example.word (method :: target :: args) 0) with method.
  change (example.word (method :: target :: args) 1) with target.
  change (drop 2 (method :: target :: args)) with args.
  rewrite (bool_decide_eq_false_2 (length _ < 2)%nat) by (simpl; lia).
  rewrite (bool_decide_eq_false_2 (String.length method = 0%nat))
    by (apply length_nonempty, Hm).
  rewrite (bool_decide_eq_false_2 (String.length target = 0%nat))
    by (apply length_nonempty, Ht).
  reflexivity.
Qed.

Lemma replLine_reads_a_call_witness :
  let s := sample.withBucket0 [sample.routePeer 1] in
  let w := sample.answering (sample.rpcReply 1 true [120; 32; 121] "") in
  let target := base58.Encode (sample.peerID 1) in
  exists s',
    example.replLine w 3 sample.ctx0 ("s " +:+ target +:+ " x y") s
    = Returned [example.Running "s" target [[120]; [121]];
                example.Result [120; 32; 121]] s'.
Proof.
  intros s w target.
  assert (E : example.replLine w 3 sample.ctx0
                (example.join ["s"%string; target; "x"%string; "y"%string]) s
              = Returned [example.Running "s" target [[120]; [121]];
                          example.Result [120; 32; 121]]
                         (default s (finalState
                            (RemoteProcedureCall w 3 sample.ctx0 target "s"
                                                 [[120]; [121]] s)))).
  { rewrite (replLine_reads_a_call w 3 sample.ctx0 "s" target ["x"%string; "y"%string] s);
      [vm_compute; reflexivity | vm_compute; reflexivity | discriminate
      | vm_compute; discriminate | discriminate | discriminate | discriminate]. }
  eexists. etrans; [|exact E]. f_equal.
Defined.

Lemma framed_replLine w fuel ctx line : framed (example.replLine w fuel ctx line).
Proof.
  unfold example.replLine, example.doFindNode, example.doInfo, example.doRPC,
         example.displayInteractiveHelp.
  framed_auto. apply framed_RemoteProcedureCall.
Qed.

Lemma emits_replLine w fuel ctx line :
  emits (onlyRequests [message.TypePing; message.TypeFindNode; message.TypeRPC])
        (example.replLine w fuel ctx line).
Proof.
  unfold example.replLine, example.doFindNode, example.doInfo, example.doRPC,
         example.displayInteractiveHelp.
  emits_auto. apply emits_RemoteProcedureCall.
Qed.

(** Nothing that is typed at the console writes the store, the options,
    the origin or the clock, or makes the node send a Store request, a
    FindValue query or a response: whatever the line, and in whatever
    state its handling ends. *)
Theorem replLine_only_looks_up (w : World) (fuel : nat) (ctx : Context) (line : string) :
  framed (example.replLine w fuel ctx line)
  /\ emits (onlyRequests [message.TypePing; message.TypeFindNode; message.TypeRPC])
           (example.replLine w fuel ctx line).
Proof. split; [apply framed_replLine | apply emits_replLine]. Qed.

Lemma replLine_only_looks_up_witness :
  let s := sample.withBucket0 [sample.routePeer 1] in
  let line := ("findnode " +:+ base58.Encode (sample.peerID 9))%string in
  exists s' d,
    finalState (example.replLine sample.silent 3 sample.ctx0 line s) = Some s'
    /\ frame s s'
    /\ trace s' = trace s ++ d
    /\ Forall (onlyRequests [message.TypePing; message.TypeFindNode; message.TypeRPC]) d
    /\ d ≠ [].
Proof.
  intros s line.
  destruct (finalState (example.replLine sample.silent 3 sample.ctx0 line s))
    as [s'|] eqn:E; [|vm_compute in E; discriminate E].
  destruct (replLine_only_looks_up sample.silent 3 sample.ctx0 line) as (Hfr & Hem).
  destruct (Hem s s' E) as (d & T & F).
  exists s', d. split; [reflexivity|]. split; [exact (Hfr s s' E)|].
  split; [exact T|]. split; [exact F|].
  intros ->. vm_compute in E. injection E as Hs. rewrite <- Hs in T.
  vm_compute in T. discriminate T.
Defined.

(** ** The trace of an iteration *)

Lemma emits_requestsOf_addNode w allowed ctx n :
  message.TypePing ∈ allowed -> emits (requestsOf allowed) (addNode w ctx n).
Proof. intros H. apply emits_addNode. intros f m ok Hm. simpl. rewrite Hm. exact H. Qed.

Lemma emits_requestsOf_SendRequest w allowed msg :
  message.Type_ msg ∈ allowed -> emits (requestsOf allowed) (SendRequest w msg).
Proof. intros H. apply emits_SendRequest. intros f ok. exact H. Qed.

Lemma emits_requestsOf_Cancel allowed f : emits (requestsOf allowed) (Cancel f).
Proof. unfold Cancel. emits_auto. Qed.

#[local] Hint Resolve emits_requestsOf_Cancel : emits.
#[local] Hint Extern 1 (emits (requestsOf _) (addNode _ _ _)) =>
  apply emits_requestsOf_addNode;
  first [apply Ping_requestTypes | list_elem] : emits.
#[local] Hint Extern 1 (emits (requestsOf _) (SendRequest _ _)) =>
  apply emits_requestsOf_SendRequest;
  first [rewrite requestFor_type; apply queryType_requestTypes | simpl; list_elem] : emits.

Lemma requests_sendQueries w t target self queryRest receivers :
  forall i contacted remove futures,
    emits (requestsOf (requestTypes t))
          (sendQueries w t target self queryRest i receivers contacted remove futures).
Proof. induction receivers as [|r rest IH]; intros; simpl; emits_auto. Qed.

Lemma requests_awaitFutures w t ctx futures :
  emits (requestsOf (requestTypes t)) (awaitFutures w ctx futures).
Proof. induction futures as [|f rest IH]; simpl; emits_auto. Qed.

Lemma requests_storeFanOut w self data receivers :
  forall i, emits (requestsOf (requestTypes routing.IterateStore))
                  (storeFanOut w self data i receivers).
Proof. induction receivers as [|r rest IH]; intros; simpl; emits_auto. Qed.

#[local] Hint Resolve requests_sendQueries requests_awaitFutures requests_storeFanOut
  : emits.

Lemma requests_iterateLoop w fuel ctx t target data self :
  forall routeSet contacted queryRest closestNode remove,
    emits (requestsOf (requestTypes t))
          (iterateLoop w fuel ctx t target data self routeSet contacted queryRest
                       closestNode remove).
Proof. induction fuel as [|fuel IH]; intros; simpl; emits_auto. Qed.

(** The trace of [iterate]: its own mark, then requests and
    cancellations. *)
Lemma iterate_trace w fuel ctx t target data s s' :
  finalState (iterate w fuel ctx t target data s) = Some s' ->
  exists d, trace s' = trace s ++ transport.EvIterate t target :: d
            /\ Forall (requestsOf (requestTypes t)) d.
Proof.
  unfold iterate. intros H.
  rewrite (bind_run _ _ s (record (transport.EvIterate t target) s) tt) in H
    by reflexivity.
  assert (Hrest : emits (requestsOf (requestTypes t))
                    ('(htIdx, ht) ← htFromCtx ctx;
                     let routeSet :=
                       routing.GetClosestContacts ht routing.ParallelCalls target [] in
                     if bool_decide (routing.Len routeSet = 0%nat) then mret (None, [], None)
                     else
                       match routing.FirstNode routeSet with
                       | None => panic "index out of range"
                       | Some closestNode =>
                           (if bool_decide (t = routing.IterateBootstrap) then
                              let bucket :=
                                routing.GetBucketIndexFromDifferingBit
                                  target (node.ID (routing.Origin ht)) in
                              now ← Now;
                              updateTable htIdx
                                (fun ht => routing.ResetRefreshTimeForBucket ht bucket now)
                            else mret tt);;
                           iterateLoop w fuel ctx t target data (routing.Origin ht)
                                       routeSet ∅ false closestNode []
                       end)).
  { unfold Now. emits_auto. apply requests_iterateLoop. }
  destruct (Hrest _ _ H) as (d & T & F).
  exists d. split; [|exact F]. rewrite T. simpl. rewrite <- app_assoc. reflexivity.
Qed.

(** What an iteration leaves in the trace, in whatever state it ends: its
    own mark, and after it requests and cancellations only; no response,
    no call on the store or on the registry of remote procedures, no second
    iteration.  The requests are of the types of its goal: the ping of
    [addNode], FindValue queries for a FindValue, FindNode queries for the
    other three goals, and Store requests for a store only. *)
Theorem iterate_sends_its_own_requests (w : World) (fuel : nat) (ctx : Context)
        (t : routing.IterateType) (target data : bytes) (s s' : DHT) :
  finalState (iterate w fuel ctx t target data s) = Some s' ->
  exists d, trace s' = trace s ++ transport.EvIterate t target :: d
            /\ Forall (requestsOf (requestTypes t)) d.
Proof. apply iterate_trace. Qed.

Lemma iterate_sends_its_own_requests_witness :
  let s := sample.withBucket0 (sample.routePeer <$> seq 1 20) in
  exists s' d,
    finalState (iterate sample.silent 4 sample.ctx0 routing.IterateStore
                        (sample.peerID 30) [1; 2] s) = Some s'
    /\ trace s' = trace s ++ transport.EvIterate routing.IterateStore (sample.peerID 30) :: d
    /\ Forall (requestsOf (requestTypes routing.IterateStore)) d
    /\ length d = 12%nat.
Proof.
  intros s.
  destruct (finalState (iterate sample.silent 4 sample.ctx0 routing.IterateStore
                                (sample.peerID 30) [1; 2] s)) as [s'|] eqn:E;
    [|vm_compute in E; discriminate E].
  destruct (iterate_sends_its_own_requests sample.silent 4 sample.ctx0 routing.IterateStore
              (sample.peerID 30) [1; 2] s s' E) as (d & T & F).
  exists s', d. split; [reflexivity|]. split; [exact T|]. split; [exact F|].
  vm_compute in E. injection E as Hs. rewrite <- Hs in T. simpl in T.
  injection T as T. rewrite <- T. reflexivity.
Defined.

(** ** The iterative stores of a tick *)

Lemma storesStarted_app a b : storesStarted (a ++ b) = storesStarted a ++ storesStarted b.
Proof. apply omap_app. Qed.

Lemma storesStarted_none d : Forall notStoreMark d -> storesStarted d = [].
Proof.
  induction 1 as [|e d He _ IH]; [reflexivity|].
  change (storesStarted (e :: d)) with (storesStarted ([e] ++ d)).
  rewrite storesStarted_app, IH, app_nil_r.
  destruct e as [| | | | | | | |t tgt]; try reflexivity. destruct t; try reflexivity.
  contradiction.
Qed.

Lemma requestsOf_notStoreMark allowed e : requestsOf allowed e -> notStoreMark e.
Proof. destruct e; simpl; try contradiction; auto. Qed.

Lemma emits_notStoreMark_iterate w fuel ctx t target data :
  t ≠ routing.IterateStore -> emits notStoreMark (iterate w fuel ctx t target data).
Proof.
  intros Ht s s' H. destruct (iterate_trace _ _ _ _ _ _ _ _ H) as (d & T & F).
  exists (transport.EvIterate t target :: d). split; [exact T|].
  constructor.
  - destruct t; simpl; auto.
  - eapply Forall_impl; [exact F|]. apply requestsOf_notStoreMark.
Qed.

Lemma emits_notStoreMark_refreshBuckets w fuel ctx k buckets :
  emits notStoreMark (refreshBuckets w fuel ctx k buckets).
Proof.
  induction buckets as [|i rest IH]; simpl; unfold Now; emits_auto.
  apply emits_notStoreMark_iterate. discriminate.
Qed.

Tactic Notation "bind_inv" hyp(H) "as" simple_intropattern(a) ident(s1) ident(E) :=
  apply bind_cases in H as [(a & s1 & E & H)|[(? & ? & E & H)|[E H]]];
  [ | first [discriminate E | discriminate H | idtac]
    | first [discriminate E | discriminate H | idtac] ].

Lemma replicateKeys_storesStarted w fuel ctx keys :
  forall s s',
    replicateKeys w fuel ctx keys s = Returned tt s' ->
    storesStarted (trace s') = storesStarted (trace s) ++ keys.
Proof.
  induction keys as [|key rest IH]; intros s s'; simpl.
  - intros [= <-]. rewrite app_nil_r. reflexivity.
  - intros H. bind_inv H as value s1 Eret.
    assert (Hret : trace s1 = trace s ++ [transport.EvRetrieve key]).
    { unfold storeRetrieve, mbind, M_bind, modify, gets in Eret. injection Eret as _ <-.
      reflexivity. }
    bind_inv H as r s2 Eit.
    destruct (iterate_trace w fuel ctx routing.IterateStore key (default [] value) s1 s2)
      as (d & T & F); [rewrite Eit; reflexivity|].
    rewrite (IH _ _ H), T, Hret, !storesStarted_app. simpl.
    rewrite (storesStarted_none d)
      by (eapply Forall_impl; [exact F | apply requestsOf_notStoreMark]).
    rewrite app_nil_r, <- app_assoc. reflexivity.
Qed.

Lemma frame_length s s' : frame s s' -> length (tables s') = length (tables s).
Proof.
  intros [_ _ _ _ H]. apply (f_equal length) in H. rewrite !length_map in H. exact H.
Qed.

(** The loop over the tables of a tick. *)
Lemma rangeTables_republishes w fuel keys idxs :
  forall s r s',
    Forall (fun k => (k < length (tables s))%nat) idxs ->
    rangeTables (fun k ht =>
                   '(ctx, err) ← SetNodeByID (node.ID (routing.Origin ht));
                   match err with
                   | Some e => panic ("log.Fatal: " +:+ e)
                   | None =>
                       refreshBuckets w fuel ctx k (seq 0 routing.KeyBitSize);;
                       replicateKeys w fuel ctx keys;;
                       mret (@None unit)
                   end) idxs s = Returned r s' ->
    storesStarted (trace s')
    = storesStarted (trace s) ++ concat (replicate (length idxs) keys).
Proof.
  induction idxs as [|k rest IH]; intros s r s' Hidxs; cbn [rangeTables length replicate concat].
  - intros [= _ <-]. rewrite app_nil_r. reflexivity.
  - apply Forall_cons in Hidxs as [Hk Hrest].
    intros H. bind_inv H as ts s0 Ets. injection Ets as <- <-.
    destruct (lookup_lt_is_Some_2 _ _ Hk) as [ht Hht]. rewrite Hht in H.
    bind_inv H as r0 s3 Ebody.
    destruct (SetNodeByID_own k ht s Hht) as [i Hi].
    rewrite (bind_run _ _ _ _ _ Hi) in Ebody. cbv beta iota in Ebody.
    bind_inv Ebody as u1 s1 Hre. bind_inv Ebody as u2 s2 Hrep.
    injection Ebody as <- <-. destruct u2.
    destruct (emits_notStoreMark_refreshBuckets w fuel (Some i) k
                (seq 0 routing.KeyBitSize) s s1) as (d & T & F);
      [rewrite Hre; reflexivity|].
    pose proof (replicateKeys_storesStarted _ _ _ _ _ _ Hrep) as Hkeys.
    assert (Hlen : length (tables s2) = length (tables s)).
    { etrans; [apply frame_length, (framed_replicateKeys w fuel (Some i) keys s1 s2);
               rewrite Hrep; reflexivity
              |apply frame_length, (framed_refreshBuckets w fuel (Some i) k (seq 0 routing.KeyBitSize) s s1);
               rewrite Hre; reflexivity]. }
    rewrite <- Hlen in Hrest.
    rewrite (IH _ _ _ Hrest H).
    rewrite Hkeys, T, storesStarted_app, (storesStarted_none d F), app_nil_r.
    rewrite <- app_assoc. reflexivity.
Qed.


